(** * UTM hardware simulator: sample generator and test runner

    A shallow embedding of [firmware/src/main.cpp].  The firmware runs on
    an Arduino Due: [unsigned long] is a 32-bit word, [float] is IEEE-754
    binary32 and [double] is IEEE-754 binary64, both computed by the
    software floating-point library in round-to-nearest-even.  The
    floating-point operations are those of [SpecFloat], instantiated at
    the two formats, so every definition below evaluates. *)

From Stdlib Require Import ZArith QArith Qabs Qpower List String Ascii Bool.
From Stdlib Require Import Lia Lqa.
From Stdlib Require Import Floats.SpecFloat.
Import ListNotations.

Open Scope Z_scope.

(** ** Machine arithmetic *)

Module Word.

(** [unsigned long] on the SAM3X8E. *)
Definition width : Z := 32.
Definition modulus : Z := 2 ^ width.

Definition wrap (n : Z) : Z := n mod modulus.

(** [x++] on an [unsigned long]. *)
Definition incr (n : Z) : Z := wrap (n + 1).

End Word.

(** ** IEEE-754 formats *)

Module Fmt.

Record format := { prec : Z; emax : Z }.

Definition binary32 : format := {| prec := 24; emax := 128 |}.
Definition binary64 : format := {| prec := 53; emax := 1024 |}.

(** Rounding of a number held in any representation to format [f];
    the conversions [(float)d] and [(double)x] are instances. *)
Definition round (f : format) (x : spec_float) : spec_float :=
  match x with
  | S754_finite s m e => binary_round (prec f) (emax f) s m e
  | _ => x
  end.

Definition of_Z (f : format) (n : Z) : spec_float :=
  binary_normalize (prec f) (emax f) n 0 false.

Definition add (f : format) := SFadd (prec f) (emax f).
Definition mul (f : format) := SFmul (prec f) (emax f).
Definition div (f : format) := SFdiv (prec f) (emax f).

(** Correctly rounded value of the decimal literal [num / 10^scale]. *)
Definition of_decimal (f : format) (num : positive) (scale : positive)
  : spec_float :=
  div f (S754_finite false num 0)
        (S754_finite false (Pos.pow 10 scale) 0).

Definition is_nan (x : spec_float) : bool :=
  match x with S754_nan => true | _ => false end.

Definition is_finite (x : spec_float) : bool :=
  match x with S754_zero _ | S754_finite _ _ _ => true | _ => false end.

End Fmt.

(** [float] and [double] operations with the usual arithmetic
    conversions written out at each use. *)
Definition f32 := Fmt.binary32.
Definition f64 := Fmt.binary64.

Definition to_float (x : spec_float) : spec_float := Fmt.round f32 x.
Definition to_double (x : spec_float) : spec_float := Fmt.round f64 x.

Definition float_of_ulong (n : Z) : spec_float := Fmt.of_Z f32 n.
Definition float_of_int (n : Z) : spec_float := Fmt.of_Z f32 n.
Definition double_of_long (n : Z) : spec_float := Fmt.of_Z f64 n.
Definition double_lit (n : Z) : spec_float := Fmt.of_Z f64 n.

(** The value of a finite float as a rational number. *)
Definition SF2Q (x : spec_float) : Q :=
  match x with
  | S754_finite s m (Zneg p) => Qmake (cond_Zopp s (Zpos m)) (Pos.pow 2 p)
  | S754_finite s m e => inject_Z (cond_Zopp s (Zpos m) * 2 ^ e)
  | _ => 0%Q
  end.

(** ** Exact comparison of a float with an integer

    A finite float is the dyadic number [m * 2^e]; comparing it with an
    integer needs no rounding. *)

Definition pow2 (e : Z) : Z := 2 ^ Z.max e 0.

(** [m * 2^e <= n] *)
Definition dyadic_le (m e n : Z) : Prop := m * pow2 e <= n * pow2 (- e).

(** [n <= m * 2^e] *)
Definition dyadic_ge (m e n : Z) : Prop := n * pow2 (- e) <= m * pow2 e.

Definition signed (s : bool) (m : positive) : Z := cond_Zopp s (Zpos m).

(** [x] is a number (not an infinity, not a NaN) and [lo <= x <= hi]. *)
Definition SFbetween (lo hi : Z) (x : spec_float) : bool :=
  match x with
  | S754_zero _ => (lo <=? 0) && (0 <=? hi)
  | S754_finite s m e =>
      (lo * pow2 (- e) <=? signed s m * pow2 e)
      && (signed s m * pow2 e <=? hi * pow2 (- e))
  | _ => false
  end.

(** ** Vocabulary of the rounding procedure *)

Definition inexact (mrs : shr_record) : bool := shr_r mrs || shr_s mrs.

Definition round_up (mrs : shr_record) : Z :=
  round_nearest_even (shr_m mrs) (loc_of_shr_record mrs).

(** One shift of the rounding procedure takes [m * 2^e] to
    [m1 * 2^e1]: either nothing moves, or the exponent becomes the
    canonical one and the mantissa is the quotient, possibly plus one
    when the division is not exact. *)
Definition rounds_to (prec emax m e m1 e1 : Z) : Prop :=
  (fexp prec emax (Zdigits2 m + e) <= e /\ e1 = e /\ m1 = m)
  \/ (exists k, 0 < k /\ e1 = e + k
                /\ e1 = fexp prec emax (Zdigits2 m + e)
                /\ m / 2 ^ k <= m1 <= m / 2 ^ k + 1
                /\ (m mod 2 ^ k = 0 -> m1 = m / 2 ^ k)).

(** The magnitude of a result: its sign is [sx] and [a <= |x| <= b]. *)
Definition magnitude (sx : bool) (a b : Z) (x : spec_float) : Prop :=
  match x with
  | S754_zero s => s = sx /\ a <= 0
  | S754_finite s m e =>
      s = sx /\ dyadic_ge (Zpos m) e a /\ dyadic_le (Zpos m) e b
  | _ => False
  end.

(** The mantissa is not too short for its exponent. *)
Definition long_enough (prec emax m e : Z) : Prop :=
  0 < m -> e <= fexp prec emax (Zdigits2 m + e).

(** Structural equality of two floats, as a test. *)
Definition SFsame (x y : spec_float) : bool :=
  match x, y with
  | S754_zero s, S754_zero s' => Bool.eqb s s'
  | S754_infinity s, S754_infinity s' => Bool.eqb s s'
  | S754_nan, S754_nan => true
  | S754_finite s m e, S754_finite s' m' e' =>
      Bool.eqb s s' && Pos.eqb m m' && Z.eqb e e'
  | _, _ => false
  end.

(** ** Rounding to nearest, on values

    The vocabulary in which the results of the floating-point operations
    are compared with the exact results: integer quotients with the place
    of their remainder, as the rounding procedure holds them, and rational
    numbers with their nearest number of a format. *)

(** Where the remainder of [A / D] lies in the unit interval. *)
Definition locate (A D : Z) : location :=
  if A mod D =? 0 then loc_Exact else loc_Inexact (2 * (A mod D) ?= D).

(** The integer nearest to [A / D], the even one at a tie. *)
Definition rne (A D : Z) : Z := round_nearest_even (A / D) (locate A D).

(** The record holds the quotient of [A] by [D] and the place of its
    remainder. *)
Definition represents (mrs : shr_record) (A D : Z) : Prop :=
  shr_m mrs = A / D /\ loc_of_shr_record mrs = locate A D.

(** [M] is the integer nearest to [x], the even one when two are as
    near. *)
Definition nearest_even (x : Q) (M : Z) : Prop :=
  (Qabs (x - inject_Z M) <= 1 # 2)%Q
  /\ ((Qabs (x - inject_Z M) == 1 # 2)%Q -> Z.even M = true).

(** [c] is the exponent of the numbers of the format that are as large
    as [x >= 0]: the least exponent for a small [x], and otherwise the
    one that gives [x] a mantissa of [prec] digits. *)
Definition canonical_exponent (prec emax : Z) (x : Q) (c : Z) : Prop :=
  (c = emin prec emax /\ (x < 2 ^ (c + prec))%Q)
  \/ (emin prec emax < c /\ (2 ^ (c + prec - 1) <= x < 2 ^ (c + prec))%Q).

(** [r] is [x >= 0] rounded to the nearest number of the format, the
    one with an even mantissa at a tie; the exponent range is not bounded
    above. *)
Definition rounded (prec emax : Z) (x r : Q) : Prop :=
  (0 <= x)%Q
  /\ exists c M, canonical_exponent prec emax x c
                 /\ nearest_even (x / 2 ^ c) M
                 /\ (r == inject_Z M * 2 ^ c)%Q.

(** The same for a number of any sign. *)
Definition rounds (prec emax : Z) (x r : Q) : Prop :=
  rounded prec emax x r \/ rounded prec emax (- x) (- r).

(** [x >= 0] is a number of the format. *)
Definition held (prec emax : Z) (x : Q) : Prop :=
  exists M c, 0 <= M < 2 ^ prec /\ emin prec emax <= c
              /\ (x == inject_Z M * 2 ^ c)%Q.

(** [r] is a number, the rounding of [x] to the format. *)
Definition rounding_of (prec emax : Z) (x : Q) (r : spec_float) : Prop :=
  Fmt.is_finite r = true /\ rounds prec emax x (SF2Q r).

(** The mantissa has all the digits of the format, or more. *)
Definition full_mantissa (prec : Z) (x : spec_float) : bool :=
  match x with
  | S754_finite _ m _ => prec <=? Zpos (digits2_pos m)
  | _ => true
  end.

(** The [n] consecutive integers from [lo] on. *)
Definition Zrange (lo : Z) (n : nat) : list Z :=
  map (fun k => lo + Z.of_nat k) (seq 0 n).

(** ** Configuration (main.cpp, lines 20-25) *)

Definition SAMPLES_PER_TEST : Z := 100.
Definition SAMPLE_RATE_HZ : Z := 10.
Definition PAUSE_BETWEEN_TESTS_MS : Z := 2000.
Definition SAMPLE_INTERVAL_MS : Z := 1000 / SAMPLE_RATE_HZ.

(** ** Pattern types (main.cpp, lines 28-33)

    A C++ unscoped enumeration: its values are integers, and the
    [switch] of [generateSample] has a [default] label for any integer
    outside the three enumerators. *)

Definition PATTERN_SINE : Z := 0.
Definition PATTERN_RAMP : Z := 1.
Definition PATTERN_RANDOM_WALK : Z := 2.
Definition PATTERN_COUNT : Z := 3.

Inductive Case := CaseSine | CaseRamp | CaseRandomWalk | CaseDefault.

(** The label selected by [switch (currentPattern)]. *)
Definition switch_case (p : Z) : Case :=
  if p =? PATTERN_SINE then CaseSine
  else if p =? PATTERN_RAMP then CaseRamp
  else if p =? PATTERN_RANDOM_WALK then CaseRandomWalk
  else CaseDefault.

(** ** Current state (main.cpp, lines 36-43) *)

Record State := {
  currentPattern : Z;
  testCount : Z;
  randomWalkValue : spec_float
}.

Definition initial_state : State :=
  {| currentPattern := PATTERN_SINE;
     testCount := 0;
     randomWalkValue := to_float (double_lit 50) |}.

Definition set_randomWalkValue (v : spec_float) (st : State) : State :=
  {| currentPattern := currentPattern st;
     testCount := testCount st;
     randomWalkValue := v |}.

Definition set_testCount (n : Z) (st : State) : State :=
  {| currentPattern := currentPattern st;
     testCount := n;
     randomWalkValue := randomWalkValue st |}.

Definition set_currentPattern (p : Z) (st : State) : State :=
  {| currentPattern := p;
     testCount := testCount st;
     randomWalkValue := randomWalkValue st |}.

(** ** The platform

    The Arduino core and the C library are not part of the sources.  The
    generator uses two of their functions, taken here as parameters:
    [random(howsmall, howbig)], which also advances the generator's
    hidden state, and [sin]. *)

Class Platform := {
  rng : Type;
  random : Z -> Z -> rng -> Z * rng;
  sin : spec_float -> spec_float
}.

(** Modelled from the spec: the constant pi of "sin(t * 2 pi)"; the
    macro [PI] of [Arduino.h] is missing from the sources.  It is taken
    as the [double] of the 32-digit decimal literal of pi. *)
Definition PI : spec_float :=
  Fmt.of_decimal f64 31415926535897932384626433832795 31.

(** Pi to twenty decimal places; the number pi is within [10^-20] of
    it. *)
Definition pi_20 : Q := 314159265358979323846 # 100000000000000000000.

(** Modelled from the spec: the random source is "a uniform-random
    integer source over a given inclusive range"; the implementation of
    [random] is missing from the sources, and this is the contract the
    proofs below rely on. *)
Definition random_in_range (P : Platform) : Prop :=
  forall lo hi g, lo <= hi -> lo <= fst (random lo hi g) <= hi.

(** ** generateSample (main.cpp, lines 48-84) *)

Section Generator.

Context {P : Platform}.

(** [(float)sampleIndex / (float)totalSamples] *)
Definition position (sampleIndex totalSamples : Z) : spec_float :=
  Fmt.div f32 (float_of_ulong sampleIndex) (float_of_ulong totalSamples).

(** [random(lo, hi) / 100.0] for a draw [r]. *)
Definition noise (r : Z) : spec_float :=
  Fmt.div f64 (double_of_long r) (double_lit 100).

(** [x += d] for a [float] lvalue [x] and a [double] [d]. *)
Definition float_add_assign (x d : spec_float) : spec_float :=
  to_float (Fmt.add f64 (to_double x) d).

(** [float angle = t * 2.0 * PI] *)
Definition sine_angle (t : spec_float) : spec_float :=
  to_float (Fmt.mul f64 (Fmt.mul f64 (to_double t) (double_lit 2)) PI).

(** [value = 50.0 + 45.0 * sin(angle)] *)
Definition sine_raw (t : spec_float) : spec_float :=
  to_float
    (Fmt.add f64 (double_lit 50)
       (Fmt.mul f64 (double_lit 45) (sin (to_double (sine_angle t))))).

(** [value = t * 100.0] *)
Definition ramp_raw (t : spec_float) : spec_float :=
  to_float (Fmt.mul f64 (to_double t) (double_lit 100)).

(** The two [if] statements that clamp [randomWalkValue]. *)
Definition clamp (x : spec_float) : spec_float :=
  let x1 := if SFltb x (float_of_int 0) then float_of_int 0 else x in
  if SFltb (float_of_int 100) x1 then float_of_int 100 else x1.

Definition generateSample (sampleIndex totalSamples : Z)
           (st : State) (g : rng) : spec_float * State * rng :=
  let t := position sampleIndex totalSamples in
  match switch_case (currentPattern st) with
  | CaseSine =>
      let value := sine_raw t in
      let (r, g') := random (-500) 500 g in
      (float_add_assign value (noise r), st, g')
  | CaseRamp =>
      let value := ramp_raw t in
      let (r, g') := random (-200) 200 g in
      (float_add_assign value (noise r), st, g')
  | CaseRandomWalk =>
      let (r, g') := random (-200) 200 g in
      let w := clamp (float_add_assign (randomWalkValue st) (noise r)) in
      (w, set_randomWalkValue w st, g')
  | CaseDefault =>
      (to_float (double_lit 50), st, g)
  end.

End Generator.

(** ** Output

    [Serial] and [SerialUSB] are the two channels, the LED is the
    activity indicator, [delay] is the timed wait.  A run is observed as
    the list of these effects in program order. *)

Inductive Event :=
| EvSerial (text : string)
| EvSerialUSB (text : string)
| EvLed (high : bool)
| EvDelay (ms : Z).

Definition LED_PIN : Z := 13.

Module Print.

Local Open Scope string_scope.

Definition digit_char (d : Z) : ascii :=
  ascii_of_nat (48 + Z.to_nat (d mod 10)).

Definition is_digit (c : ascii) : bool :=
  let n := nat_of_ascii c in (48 <=? n)%nat && (n <=? 57)%nat.

(** The [k] least significant decimal digits of [n], most significant
    first, padded with zeros. *)
Fixpoint padded (k : nat) (n : Z) : string :=
  match k with
  | O => EmptyString
  | S k' => padded k' (n / 10) ++ String (digit_char n) EmptyString
  end.

(** Decimal digits of a natural number, without leading zeros. *)
Fixpoint decimal (fuel : nat) (n : Z) : string :=
  match fuel with
  | O => String (digit_char n) EmptyString
  | S fuel' =>
      if (n <? 10)%Z then String (digit_char n) EmptyString
      else decimal fuel' (n / 10) ++ String (digit_char n) EmptyString
  end.

Definition natural (n : Z) : string := decimal (Z.to_nat (Z.log2 n)) n.

(** [|x| * 10^digits] rounded to the nearest integer, halves up. *)
Definition scaled (digits : nat) (m : positive) (e : Z) : Z :=
  let p := 10 ^ Z.of_nat digits in
  if (0 <=? e)%Z then Zpos m * 2 ^ e * p
  else (2 * Zpos m * p + 2 ^ (- e)) / (2 * 2 ^ (- e)).

Definition newline : string := String (ascii_of_nat 10) EmptyString.

(** Modelled from the spec: the line printed for one value, "ASCII
    decimal representation of the value with exactly 6 digits after the
    decimal point, followed by a newline character"; the
    [println(double, int)] of the core's [Print] class is missing from
    the sources.  The spec names no text for a value that is not a
    number; those get a marker without a decimal point. *)
Definition println (x : spec_float) (digits : nat) : string :=
  match x with
  | S754_nan => "nan" ++ newline
  | S754_infinity s => (if s then "-inf" else "inf") ++ newline
  | S754_zero _ =>
      "0." ++ padded digits 0 ++ newline
  | S754_finite s m e =>
      let n := scaled digits m e in
      let p := 10 ^ Z.of_nat digits in
      (if s then "-" else EmptyString) ++ natural (n / p) ++ "."
        ++ padded digits (n mod p) ++ newline
  end.

(** A line of the wire format: an optional sign, one or more digits, a
    point, exactly [k] digits, a newline, and nothing else. *)
Fixpoint all_digits (s : string) : bool :=
  match s with
  | EmptyString => true
  | String c s' => is_digit c && all_digits s'
  end.

Definition is_fixed_line (k : nat) (line : string) : Prop :=
  exists sign int frac,
    line = sign ++ int ++ "." ++ frac ++ newline
    /\ (sign = EmptyString \/ sign = "-")
    /\ int <> EmptyString /\ all_digits int = true
    /\ String.length frac = k /\ all_digits frac = true.

End Print.

(** ** runTest (main.cpp, lines 89-115) *)

Section Runner.

Context {P : Platform}.

(** The three assignments that open a run. *)
Definition begin_run (st : State) : State :=
  let st1 := set_testCount (Word.incr (testCount st)) st in
  let st2 := set_randomWalkValue (to_float (double_lit 50)) st1 in
  set_currentPattern (testCount st2 mod PATTERN_COUNT) st2.

(** One iteration of the [for] loop, at index [i]. *)
Definition sample_step (i : Z) (st : State) (g : rng)
  : State * rng * list Event :=
  let '(value, st', g') := generateSample i SAMPLES_PER_TEST st g in
  (st', g',
   [ EvSerial (Print.println (to_double value) 6);
     EvSerialUSB (Print.println (to_double value) 6);
     EvLed (negb (Z.land i 1 =? 0));
     EvDelay SAMPLE_INTERVAL_MS ]).

(** [n] iterations of the loop starting at index [i]. *)
Fixpoint sample_loop (n : nat) (i : Z) (st : State) (g : rng)
  : State * rng * list Event :=
  match n with
  | O => (st, g, [])
  | S n' =>
      let '(st1, g1, out1) := sample_step i st g in
      let '(st2, g2, out2) := sample_loop n' (i + 1) st1 g1 in
      (st2, g2, out1 ++ out2)
  end.

Definition runTest (st : State) (g : rng) : State * rng * list Event :=
  let '(st', g', out) :=
    sample_loop (Z.to_nat SAMPLES_PER_TEST) 0 (begin_run st) g in
  (st', g', out ++ [EvLed false]).

(** [loop()]: a run followed by the pause. *)
Definition loop (st : State) (g : rng) : State * rng * list Event :=
  let '(st', g', out) := runTest st g in
  (st', g', out ++ [EvDelay PAUSE_BETWEEN_TESTS_MS]).

(** The first [n] calls of [loop()]. *)
Fixpoint loops (n : nat) (st : State) (g : rng) : State * rng * list Event :=
  match n with
  | O => (st, g, [])
  | S n' =>
      let '(st1, g1, out1) := loops n' st g in
      let '(st2, g2, out2) := loop st1 g1 in
      (st2, g2, out1 ++ out2)
  end.

End Runner.

(** ** Observations of a run *)

(** The texts written to each channel, in order. *)
Fixpoint serial_lines (out : list Event) : list string :=
  match out with
  | [] => []
  | EvSerial text :: out' => text :: serial_lines out'
  | _ :: out' => serial_lines out'
  end.

Fixpoint usb_lines (out : list Event) : list string :=
  match out with
  | [] => []
  | EvSerialUSB text :: out' => text :: usb_lines out'
  | _ :: out' => usb_lines out'
  end.

(** The samples generated by [n] iterations of the loop from index [i]. *)
Fixpoint sample_values {P : Platform} (n : nat) (i : Z) (st : State) (g : rng)
  : list spec_float :=
  match n with
  | O => []
  | S n' =>
      let '(value, st', g') := generateSample i SAMPLES_PER_TEST st g in
      value :: sample_values n' (i + 1) st' g'
  end.

(** What a run needs from [sin]: a number in [-1, 1] for the angle of
    each of its samples. *)
Definition sine_in_range (P : Platform) : Prop :=
  forall i, 0 <= i < SAMPLES_PER_TEST ->
    SFbetween (-1) 1
      (sin (to_double (sine_angle (position i SAMPLES_PER_TEST)))) = true.

(** ** Program states

    The states the three globals go through: the initial values, and a
    step for each statement that assigns one of them. *)

Inductive step {P : Platform} : State -> State -> Prop :=
| step_count st :
    step st (set_testCount (Word.incr (testCount st)) st)
| step_reset st :
    step st (set_randomWalkValue (to_float (double_lit 50)) st)
| step_select st :
    step st (set_currentPattern (testCount st mod PATTERN_COUNT) st)
| step_sample st i n g :
    step st (snd (fst (generateSample i n st g))).

Inductive reachable {P : Platform} : State -> Prop :=
| reach_init : reachable initial_state
| reach_step st st' : reachable st -> step st st' -> reachable st'.

(** ** A reference platform

    A concrete instance of the platform, used to run the model: the
    range arithmetic of the core's [random(howsmall, howbig)] over a
    linear congruential generator, and a sine computed as a Taylor
    polynomial in exact integer arithmetic and rounded once. *)

Module Reference.

Definition next (g : Z) : Z :=
  (g * 6364136223846793005 + 1) mod 2 ^ 64.

Definition raw (g : Z) : Z := Z.land (Z.shiftr g 32) 2147483647.

Definition random_long (howsmall howbig : Z) (g : Z) : Z * Z :=
  if howbig <=? howsmall then (howsmall, g)
  else
    let g' := next g in
    (raw g' mod (howbig - howsmall) + howsmall, g').

(** [p / q] after [n] more steps of the Horner scheme for
    [1 - y/(2*3) * (1 - y/(4*5) * (1 - ...))], with [y = a2 / s2b]. *)
Fixpoint sin_horner (n : nat) (a2 s2b p q : Z) : Z * Z :=
  match n with
  | O => (p, q)
  | S n' =>
      let k := Z.of_nat n' in
      let d := (2 * k + 2) * (2 * k + 3) * s2b in
      sin_horner n' a2 s2b (d * q - a2 * p) (d * q)
  end.

(** The [double] nearest to [num / den], for [den > 0]. *)
Definition double_of_ratio (num den : Z) : spec_float :=
  match num with
  | Z0 => S754_zero false
  | Zpos n =>
      Fmt.div f64 (S754_finite false n 0) (S754_finite false (Z.to_pos den) 0)
  | Zneg n =>
      Fmt.div f64 (S754_finite true n 0) (S754_finite false (Z.to_pos den) 0)
  end.

Definition sin_taylor (x : spec_float) : spec_float :=
  match x with
  | S754_finite s m e =>
      let a0 := cond_Zopp s (Zpos m) * 2 ^ Z.max e 0 in
      let b0 := 2 ^ Z.max (- e) 0 in
      let c := Z.gcd a0 b0 in
      let a := a0 / c in
      let b := b0 / c in
      let '(p, q) := sin_horner 16 (a * a) (b * b) 1 1 in
      double_of_ratio (a * p) (b * q)
  | S754_zero _ => x
  | _ => S754_nan
  end.

Definition platform : Platform :=
  {| rng := Z; random := random_long; sin := sin_taylor |}.

End Reference.

(** ** Projections of a result *)

Definition state_of {A B : Type} (r : State * A * B) : State := fst (fst r).
Definition output_of {A B : Type} (r : State * A * B) : B := snd r.

(** The pattern in effect in the [n]-th run since power-up. *)
Definition pattern_of_run {P : Platform} (g : rng) (n : Z) : Z :=
  currentPattern (state_of (loops (Z.to_nat n) initial_state g)).


(** ** setup (main.cpp, lines 117-145)

    The wait for a serial connection reads the outside world: whether
    each port is connected, and the millisecond clock.  One element of
    [polls] is what one evaluation of the loop condition and body sees.
    [randomSeed] only fixes the state the random source starts from,
    which is the [rng] the runs are given. *)

Record Poll := {
  serial_ready : bool;
  usb_ready : bool;
  clock : Z
}.

Inductive Wait := Connected | TimedOut | Pending.

Definition STARTUP_TIMEOUT_MS : Z := 5000.

(** [millis() - startTime], a difference of two [unsigned long]. *)
Definition elapsed (startTime now : Z) : Z := Word.wrap (now - startTime).

(** [while (!Serial && !SerialUSB) { if (millis() - startTime > 5000)
    break; }]: how the loop ends and how many times its body ran to the
    end; [Pending] when the polls run out before it does. *)
Fixpoint wait_for_serial (startTime : Z) (polls : list Poll) : Wait * nat :=
  match polls with
  | [] => (Pending, O)
  | p :: rest =>
      if negb (serial_ready p) && negb (usb_ready p) then
        if STARTUP_TIMEOUT_MS <? elapsed startTime (clock p) then (TimedOut, O)
        else
          let '(w, k) := wait_for_serial startTime rest in (w, S k)
      else (Connected, O)
  end.

(** The startup indication: [n] times on for 100 ms and off for 100 ms. *)
Fixpoint startup_blink (n : nat) : list Event :=
  match n with
  | O => []
  | S n' =>
      [EvLed true; EvDelay 100; EvLed false; EvDelay 100] ++ startup_blink n'
  end.

Definition setup (startTime : Z) (polls : list Poll)
  : Wait * nat * list Event :=
  let '(w, k) := wait_for_serial startTime polls in
  (w, k, EvLed false :: startup_blink 3).

(** [setup()] followed by the first [n] calls of [loop()]. *)
Definition firmware {P : Platform} (startTime : Z) (polls : list Poll)
           (n : nat) (g : rng) : list Event :=
  snd (setup startTime polls) ++ output_of (loops n initial_state g).

(** ** More observations of a trace *)

(** The total time spent in [delay]. *)
Fixpoint delays (out : list Event) : Z :=
  match out with
  | [] => 0
  | EvDelay ms :: out' => ms + delays out'
  | _ :: out' => delays out'
  end.

(** The successive levels written to the LED pin. *)
Fixpoint led_states (out : list Event) : list bool :=
  match out with
  | [] => []
  | EvLed high :: out' => high :: led_states out'
  | _ :: out' => led_states out'
  end.

(** The samples generated by the first [n] calls of [loop()]. *)
Fixpoint loops_values {P : Platform} (n : nat) (st : State) (g : rng)
  : list spec_float :=
  match n with
  | O => []
  | S n' =>
      let '(st1, g1, _) := loops n' st g in
      loops_values n' st g
        ++ sample_values (Z.to_nat SAMPLES_PER_TEST) 0 (begin_run st1) g1
  end.

(** The effects of the iteration of index [i] that generated [value]. *)
Definition sample_events (i : Z) (value : spec_float) : list Event :=
  [ EvSerial (Print.println (to_double value) 6);
    EvSerialUSB (Print.println (to_double value) 6);
    EvLed (Z.odd i);
    EvDelay SAMPLE_INTERVAL_MS ].

(** The effects of the iterations from index [i] on, one per value. *)
Fixpoint run_events (i : Z) (values : list spec_float) : list Event :=
  match values with
  | [] => []
  | value :: values' => sample_events i value ++ run_events (i + 1) values'
  end.
(** * Rounding

    Facts about the rounding procedure of [SpecFloat], for any format
    whose exponent range is wide enough for its precision. *)

Module Rounding.

(** ** Digits and powers of two *)

Lemma digits2_size p : digits2_pos p = Pos.size p.
Proof. induction p; simpl; congruence. Qed.

Lemma digits2_upper p : Zpos p < 2 ^ Zpos (digits2_pos p).
Proof.
  rewrite digits2_size, <- Pos2Z.inj_pow.
  apply Pos2Z.pos_lt_pos, Pos.size_gt.
Qed.

Lemma digits2_lower p : 2 ^ (Zpos (digits2_pos p) - 1) <= Zpos p.
Proof.
  rewrite digits2_size.
  pose proof (Pos.size_le p) as H.
  apply Pos2Z.pos_le_pos in H. rewrite Pos2Z.inj_pow in H.
  change (Zpos p~0) with (2 * Zpos p) in H.
  replace (Zpos (Pos.size p)) with (Zpos (Pos.size p) - 1 + 1) in H by lia.
  rewrite Z.pow_add_r in H by lia. lia.
Qed.

Lemma pow2_pos e : 0 < pow2 e.
Proof. unfold pow2. apply Z.pow_pos_nonneg; lia. Qed.

Lemma pow2_nonneg e : 0 <= e -> pow2 e = 2 ^ e.
Proof. intros H. unfold pow2. now rewrite Z.max_l by lia. Qed.

Lemma pow2_nonpos e : e <= 0 -> pow2 e = 1.
Proof. intros H. unfold pow2. now rewrite Z.max_r by lia. Qed.

(** ** Shifting a mantissa to the right *)

Lemma iter_pos_nat {A : Type} (f : A -> A) p : forall x,
  iter_pos f p x = Nat.iter (Pos.to_nat p) f x.
Proof.
  induction p as [p IH | p IH |]; intros x; cbn [iter_pos].
  - rewrite !IH, Pos2Nat.inj_xI.
    replace (S (2 * Pos.to_nat p))%nat
      with (Pos.to_nat p + (Pos.to_nat p + 1))%nat by lia.
    rewrite !Nat.iter_add. reflexivity.
  - rewrite !IH, Pos2Nat.inj_xO.
    replace (2 * Pos.to_nat p)%nat
      with (Pos.to_nat p + Pos.to_nat p)%nat by lia.
    rewrite Nat.iter_add. reflexivity.
  - reflexivity.
Qed.

Lemma shr_1_m mrs : 0 <= shr_m mrs -> shr_m (shr_1 mrs) = shr_m mrs / 2.
Proof.
  destruct mrs as [m r s]; simpl. intros Hm.
  rewrite <- Z.div2_div.
  destruct m as [|[p|p|]|p]; try reflexivity; lia.
Qed.

Lemma shr_1_inexact mrs :
  0 <= shr_m mrs ->
  inexact (shr_1 mrs) = Z.odd (shr_m mrs) || inexact mrs.
Proof.
  destruct mrs as [m r s]; unfold inexact; simpl. intros Hm.
  destruct m as [|[p|p|]|p]; try reflexivity; lia.
Qed.

(** After [n] shifts the mantissa is the quotient by [2^n], and the
    round and sticky bits are clear when the division is exact. *)
Lemma shr_iter n : forall mrs,
  0 <= shr_m mrs ->
  shr_m (Nat.iter n shr_1 mrs) = shr_m mrs / 2 ^ Z.of_nat n
  /\ (inexact (Nat.iter n shr_1 mrs) = true ->
      inexact mrs = true \/ shr_m mrs mod 2 ^ Z.of_nat n <> 0).
Proof.
  induction n as [|n IH]; intros mrs Hm.
  - simpl. rewrite Z.div_1_r. auto.
  - destruct (IH mrs Hm) as [IHm IHi].
    assert (Hp : 0 < 2 ^ Z.of_nat n) by (apply Z.pow_pos_nonneg; lia).
    assert (Hq : 0 <= shr_m (Nat.iter n shr_1 mrs)).
    { rewrite IHm. apply Z.div_pos; lia. }
    assert (E : 2 ^ Z.of_nat (S n) = 2 ^ Z.of_nat n * 2).
    { rewrite Nat2Z.inj_succ, Z.pow_succ_r by lia. lia. }
    change (Nat.iter (S n) shr_1 mrs) with (shr_1 (Nat.iter n shr_1 mrs)).
    split.
    + rewrite shr_1_m by exact Hq.
      rewrite IHm, Z.div_div, E by lia. reflexivity.
    + rewrite shr_1_inexact by exact Hq. intros H.
      rewrite E, Z.rem_mul_r by lia.
      apply orb_true_iff in H. destruct H as [H | H].
      * right. rewrite IHm in H.
        pose proof (Zmod_odd (shr_m mrs / 2 ^ Z.of_nat n)) as Ho.
        rewrite H in Ho.
        pose proof (Z.mod_pos_bound (shr_m mrs) (2 ^ Z.of_nat n) Hp). nia.
      * destruct (IHi H) as [H' | H']; [now left | right].
        pose proof (Z.mod_pos_bound (shr_m mrs) (2 ^ Z.of_nat n) Hp).
        pose proof (Z.mod_pos_bound (shr_m mrs / 2 ^ Z.of_nat n) 2). nia.
Qed.

(** Rounding to nearest keeps the quotient or adds one to it, and
    keeps it when nothing was shifted out. *)
Lemma round_up_range mrs :
  shr_m mrs <= round_up mrs <= shr_m mrs + 1
  /\ (inexact mrs = false -> round_up mrs = shr_m mrs).
Proof.
  destruct mrs as [m [|] [|]]; unfold round_up, inexact; simpl;
    try destruct (Z.even m); split; try lia; try discriminate; reflexivity.
Qed.

Section ShiftBounds.

Variables prec emax : Z.
Hypothesis prec_pos : 0 < prec.
Hypothesis emax_large : 2 * prec <= emax.

Abbreviation emin := (SpecFloat.emin prec emax).
Abbreviation fexp := (SpecFloat.fexp prec emax).

Lemma emin_nonpos : emin <= 0.
Proof. unfold SpecFloat.emin. lia. Qed.

Lemma fexp_ge_emin e : emin <= fexp e.
Proof. unfold SpecFloat.fexp. lia. Qed.

(** [shr_fexp] on an exact input is one shift of the procedure, before
    and after the rounding of its quotient. *)
Lemma shr_fexp_exact m e :
  0 <= m ->
  let r := shr_fexp prec emax m e loc_Exact in
  rounds_to prec emax m e (shr_m (fst r)) (snd r)
  /\ rounds_to prec emax m e (round_up (fst r)) (snd r).
Proof.
  intros Hm. unfold shr_fexp, shr. cbn [shr_record_of_loc].
  destruct (fexp (Zdigits2 m + e) - e) as [|k|k] eqn:E; cbn [fst snd].
  - split; left; unfold round_up; simpl; repeat split; lia.
  - set (mrs := {| shr_m := m; shr_r := false; shr_s := false |}).
    rewrite iter_pos_nat.
    destruct (shr_iter (Pos.to_nat k) mrs Hm) as [Hq Hi].
    rewrite positive_nat_Z in Hq, Hi. cbn [mrs shr_m] in Hq, Hi.
    set (res := Nat.iter (Pos.to_nat k) shr_1 mrs) in *.
    destruct (round_up_range res) as [Hr He].
    split; right; exists (Zpos k);
      (split; [lia|]); (split; [lia|]); (split; [lia|]).
    + split; [lia | intros _; exact Hq].
    + split; [lia|].
      intros H0. destruct (inexact res) eqn:Ei.
      * destruct (Hi eq_refl) as [H | H]; [discriminate H | contradiction].
      * rewrite (He eq_refl). exact Hq.
  - split; left; unfold round_up; simpl; repeat split; lia.
Qed.

Lemma rounds_to_nonneg m e m1 e1 :
  rounds_to prec emax m e m1 e1 -> 0 <= m -> 0 <= m1.
Proof.
  intros [(_ & _ & ->) | (k & Hk & _ & _ & Hr & _)] Hm; [exact Hm|].
  assert (0 <= m / 2 ^ k) by (apply Z.div_pos; [lia | apply Z.pow_pos_nonneg; lia]).
  lia.
Qed.

(** A positive number below [2^prec] has its canonical exponent at most
    zero. *)
Lemma digits_le_prec m e n :
  0 < m -> n < 2 ^ prec -> dyadic_le m e n -> Zdigits2 m + e - prec <= 0.
Proof.
  intros Hm Hn Hle.
  destruct m as [|p|p]; try lia. cbn [Zdigits2].
  pose proof (digits2_lower p) as Hd.
  set (d := Zpos (digits2_pos p)) in *.
  assert (0 < d) by (unfold d; lia).
  unfold dyadic_le in Hle.
  destruct (Z_lt_le_dec (d + e - prec) 1) as [|Hc]; [lia | exfalso].
  destruct (Z_le_gt_dec 0 e) as [He | He].
  - rewrite pow2_nonneg, pow2_nonpos in Hle by lia.
    assert (2 ^ prec <= 2 ^ (d - 1) * 2 ^ e).
    { rewrite <- Z.pow_add_r by lia. apply Z.pow_le_mono_r; lia. }
    assert (0 < 2 ^ e) by (apply Z.pow_pos_nonneg; lia). nia.
  - rewrite pow2_nonpos, pow2_nonneg in Hle by lia.
    assert (2 ^ prec * 2 ^ (- e) <= 2 ^ (d - 1)).
    { rewrite <- Z.pow_add_r by lia. apply Z.pow_le_mono_r; lia. }
    assert (0 < 2 ^ (- e)) by (apply Z.pow_pos_nonneg; lia). nia.
Qed.

(** A shift does not cross an integer bound that the format
    represents: from above ... *)
Lemma rounds_to_le m e m1 e1 n :
  rounds_to prec emax m e m1 e1 -> 0 <= m -> 0 <= n < 2 ^ prec ->
  dyadic_le m e n -> dyadic_le m1 e1 n.
Proof.
  intros [(_ & -> & ->) | (k & Hk & He1 & Hf & Hr & Hx)] Hm Hn Hle; [exact Hle|].
  assert (Hpk : 0 < 2 ^ k) by (apply Z.pow_pos_nonneg; lia).
  destruct (Z.eq_dec m 0) as [-> | Hm0].
  - rewrite Z.mod_0_l, Z.div_0_l in * by lia. rewrite (Hx eq_refl).
    unfold dyadic_le. pose proof (pow2_pos (- e1)). nia.
  - pose proof (digits_le_prec m e n ltac:(lia) ltac:(lia) Hle) as Hd.
    pose proof emin_nonpos as Hemin.
    assert (He1' : e1 <= 0) by (rewrite Hf; unfold SpecFloat.fexp; lia).
    unfold dyadic_le in *.
    rewrite (pow2_nonpos e), (pow2_nonneg (- e)) in Hle by lia.
    rewrite (pow2_nonpos e1), (pow2_nonneg (- e1)) by lia.
    replace (- e) with (- e1 + k) in Hle by lia.
    rewrite Z.pow_add_r in Hle by lia.
    set (B := n * 2 ^ (- e1)).
    assert (HB : m <= B * 2 ^ k) by (unfold B; lia).
    pose proof (Z.div_mod m (2 ^ k) ltac:(lia)) as Hdm.
    pose proof (Z.mod_pos_bound m (2 ^ k) Hpk) as Hmod.
    destruct (Z.eq_dec (m mod 2 ^ k) 0) as [H0 | H0].
    + rewrite (Hx H0). nia.
    + assert (m / 2 ^ k < B) by nia. lia.
Qed.

(** ... and from below. *)
Lemma rounds_to_ge m e m1 e1 n :
  rounds_to prec emax m e m1 e1 -> 0 <= m -> 0 <= n < 2 ^ prec ->
  dyadic_ge m e n -> dyadic_ge m1 e1 n.
Proof.
  intros [(_ & -> & ->) | (k & Hk & He1 & Hf & Hr & Hx)] Hm Hn Hge; [exact Hge|].
  assert (Hpk : 0 < 2 ^ k) by (apply Z.pow_pos_nonneg; lia).
  destruct (Z.eq_dec m 0) as [-> | Hm0].
  - rewrite Z.mod_0_l, Z.div_0_l in * by lia. rewrite (Hx eq_refl).
    unfold dyadic_ge in *. pose proof (pow2_pos (- e)).
    pose proof (pow2_pos (- e1)). nia.
  - unfold dyadic_ge in *.
    destruct (Z_le_gt_dec e1 0) as [He1' | He1'].
    + rewrite (pow2_nonpos e), (pow2_nonneg (- e)) in Hge by lia.
      rewrite (pow2_nonpos e1), (pow2_nonneg (- e1)) by lia.
      replace (- e) with (- e1 + k) in Hge by lia.
      rewrite Z.pow_add_r in Hge by lia.
      assert (n * 2 ^ (- e1) <= m / 2 ^ k).
      { apply Z.div_le_lower_bound; lia. }
      lia.
    + rewrite (pow2_nonneg e1), (pow2_nonpos (- e1)) by lia.
      pose proof emin_nonpos as Hemin.
      assert (Hk' : k = Zdigits2 m - prec).
      { unfold SpecFloat.fexp in Hf. lia. }
      destruct m as [|p|p]; try lia. cbn [Zdigits2] in *.
      pose proof (digits2_lower p) as Hd.
      set (d := Zpos (digits2_pos p)) in *.
      assert (2 ^ (prec - 1) <= Zpos p / 2 ^ k).
      { apply Z.div_le_lower_bound; [lia|].
        rewrite <- Z.pow_add_r by lia.
        replace (k + (prec - 1)) with (d - 1) by lia. exact Hd. }
      assert (2 ^ prec <= 2 ^ (prec - 1) * 2 ^ e1).
      { rewrite <- Z.pow_add_r by lia. apply Z.pow_le_mono_r; lia. }
      assert (0 < 2 ^ e1) by (apply Z.pow_pos_nonneg; lia).
      nia.
Qed.

End ShiftBounds.

(** [2^(e1+e2) = 2^e1 * 2^e2], with denominators cleared. *)
Lemma pow2_add e1 e2 :
  pow2 (e1 + e2) * pow2 (- e1) * pow2 (- e2)
  = pow2 (- (e1 + e2)) * pow2 e1 * pow2 e2.
Proof.
  destruct (Z_le_gt_dec 0 e1), (Z_le_gt_dec 0 e2), (Z_le_gt_dec 0 (e1 + e2));
    try lia;
    repeat match goal with
      | |- context [pow2 ?x] =>
          first [ rewrite (pow2_nonneg x) by lia
                | rewrite (pow2_nonpos x) by lia ]
      end;
    rewrite ?Z.mul_1_l, ?Z.mul_1_r, <- ?Z.pow_add_r by lia;
    try reflexivity; f_equal; lia.
Qed.

(** ** Arithmetic of the exact comparisons *)

Lemma dyadic_le_weaken m e n n' :
  dyadic_le m e n -> n <= n' -> dyadic_le m e n'.
Proof.
  unfold dyadic_le. intros H Hn. pose proof (pow2_pos (- e)). nia.
Qed.

Lemma dyadic_ge_weaken m e n n' :
  dyadic_ge m e n -> n' <= n -> dyadic_ge m e n'.
Proof.
  unfold dyadic_ge. intros H Hn. pose proof (pow2_pos (- e)). nia.
Qed.

Lemma pow2_shift e d :
  0 <= d -> pow2 e * pow2 (d - e) = pow2 (- e) * pow2 (e - d) * 2 ^ d.
Proof.
  intros Hd. pose proof (pow2_add (e - d) d) as H.
  replace (e - d + d) with e in H by lia.
  replace (- (e - d)) with (d - e) in H by lia.
  rewrite (pow2_nonpos (- d)), (pow2_nonneg d) in H by lia. lia.
Qed.

Lemma dyadic_le_shift m e d n :
  0 <= d -> dyadic_le m e n -> dyadic_le (m * 2 ^ d) (e - d) n.
Proof.
  unfold dyadic_le. intros Hd H.
  replace (- (e - d)) with (d - e) by lia.
  pose proof (pow2_shift e d Hd) as E.
  pose proof (pow2_pos (- e)). pose proof (pow2_pos (d - e)).
  apply Z.mul_le_mono_pos_r with (p := pow2 (- e)); [assumption|].
  replace (m * 2 ^ d * pow2 (e - d) * pow2 (- e))
    with (m * (pow2 (- e) * pow2 (e - d) * 2 ^ d)) by ring.
  rewrite <- E. nia.
Qed.

Lemma dyadic_ge_shift m e d n :
  0 <= d -> dyadic_ge m e n -> dyadic_ge (m * 2 ^ d) (e - d) n.
Proof.
  unfold dyadic_ge. intros Hd H.
  replace (- (e - d)) with (d - e) by lia.
  pose proof (pow2_shift e d Hd) as E.
  pose proof (pow2_pos (- e)). pose proof (pow2_pos (d - e)).
  apply Z.mul_le_mono_pos_r with (p := pow2 (- e)); [assumption|].
  replace (m * 2 ^ d * pow2 (e - d) * pow2 (- e))
    with (m * (pow2 (- e) * pow2 (e - d) * 2 ^ d)) by ring.
  rewrite <- E. nia.
Qed.

Lemma dyadic_le_mul m1 e1 n1 m2 e2 n2 :
  0 <= m1 -> 0 <= m2 ->
  dyadic_le m1 e1 n1 -> dyadic_le m2 e2 n2 ->
  dyadic_le (m1 * m2) (e1 + e2) (n1 * n2).
Proof.
  unfold dyadic_le. intros Hm1 Hm2 H1 H2.
  pose proof (pow2_add e1 e2) as E.
  pose proof (pow2_pos e1). pose proof (pow2_pos e2).
  pose proof (pow2_pos (- e1)). pose proof (pow2_pos (- e2)).
  pose proof (pow2_pos (e1 + e2)). pose proof (pow2_pos (- (e1 + e2))).
  apply Z.mul_le_mono_pos_r with (p := pow2 e1 * pow2 e2); [nia|].
  replace (n1 * n2 * pow2 (- (e1 + e2)) * (pow2 e1 * pow2 e2))
    with (n1 * n2 * (pow2 (- (e1 + e2)) * pow2 e1 * pow2 e2)) by ring.
  rewrite <- E.
  replace (m1 * m2 * pow2 (e1 + e2) * (pow2 e1 * pow2 e2))
    with ((m1 * pow2 e1) * (m2 * pow2 e2) * pow2 (e1 + e2)) by ring.
  replace (n1 * n2 * (pow2 (e1 + e2) * pow2 (- e1) * pow2 (- e2)))
    with ((n1 * pow2 (- e1)) * (n2 * pow2 (- e2)) * pow2 (e1 + e2)) by ring.
  apply Z.mul_le_mono_nonneg_r; [lia|].
  apply Z.mul_le_mono_nonneg; nia.
Qed.

(** ** Alignment of a mantissa to a smaller exponent *)

Lemma iter_xO m d : Zpos (Pos.iter xO m d) = Zpos m * 2 ^ Zpos d.
Proof.
  rewrite <- Z.shiftl_mul_pow2 by lia. cbn [Z.shiftl].
  apply (Pos.iter_swap_gen _ _ Zpos xO (Z.mul 2)). reflexivity.
Qed.

Lemma shl_align_spec mx ex ex' :
  let r := shl_align mx ex ex' in
  (ex' < ex /\ snd r = ex' /\ Zpos (fst r) = Zpos mx * 2 ^ (ex - ex'))
  \/ (ex <= ex' /\ r = (mx, ex)).
Proof.
  unfold shl_align.
  destruct (ex' - ex) as [|d|d] eqn:E; cbn [fst snd].
  - right. split; [lia | reflexivity].
  - right. split; [lia | reflexivity].
  - left. split; [lia|]. split; [reflexivity|].
    rewrite iter_xO. do 2 f_equal. lia.
Qed.

Section RoundBounds.

Variables prec emax : Z.
Hypothesis prec_pos : 0 < prec.
Hypothesis emax_large : 2 * prec <= emax.

(** ** Rounding keeps a number between two integers

    When an exact positive number lies between two integers below
    [2^prec], so does its rounding, which is then zero or finite. *)
Lemma binary_round_aux_magnitude sx m e a b :
  0 <= m -> 0 <= a < 2 ^ prec -> 0 <= b < 2 ^ prec ->
  dyadic_ge m e a -> dyadic_le m e b ->
  magnitude sx a b (binary_round_aux prec emax sx m e loc_Exact).
Proof.
  intros Hm Ha Hb Hge Hle. unfold binary_round_aux.
  destruct (shr_fexp_exact prec emax m e Hm) as [_ H1].
  destruct (shr_fexp prec emax m e loc_Exact) as [mrs1 e1].
  cbn [fst snd] in H1. fold (round_up mrs1).
  pose proof (rounds_to_nonneg _ _ _ _ _ _ H1 Hm) as Hm1.
  destruct (shr_fexp_exact prec emax (round_up mrs1) e1 Hm1) as [H2 _].
  destruct (shr_fexp prec emax (round_up mrs1) e1 loc_Exact) as [mrs2 e2].
  cbn [fst snd] in H2.
  pose proof (rounds_to_nonneg _ _ _ _ _ _ H2 Hm1) as Hm2.
  assert (Hge2 : dyadic_ge (shr_m mrs2) e2 a).
  { eapply rounds_to_ge; [exact prec_pos | exact emax_large | exact H2 | | |];
      try assumption.
    eapply rounds_to_ge; [exact prec_pos | exact emax_large | exact H1 | | |];
      assumption. }
  assert (Hle2 : dyadic_le (shr_m mrs2) e2 b).
  { eapply rounds_to_le; [exact prec_pos | exact emax_large | exact H2 | | |];
      try assumption.
    eapply rounds_to_le; [exact prec_pos | exact emax_large | exact H1 | | |];
      assumption. }
  destruct (shr_m mrs2) as [|p|p]; [| |lia].
  - split; [reflexivity|].
    unfold dyadic_ge in Hge2. pose proof (pow2_pos (- e2)). nia.
  - assert (He2 : e2 <= emax - prec).
    { destruct (Z_le_gt_dec e2 0) as [|Hpos]; [lia|].
      unfold dyadic_le in Hle2.
      rewrite (pow2_nonneg e2), (pow2_nonpos (- e2)) in Hle2 by lia.
      assert (e2 < prec); [|lia].
      apply (Z.pow_lt_mono_r_iff 2); [lia | lia |].
      assert (0 < 2 ^ e2) by (apply Z.pow_pos_nonneg; lia). nia. }
    apply Z.leb_le in He2. rewrite He2.
    repeat split; assumption.
Qed.

Lemma binary_round_magnitude sx m e a b :
  0 <= a < 2 ^ prec -> 0 <= b < 2 ^ prec ->
  dyadic_ge (Zpos m) e a -> dyadic_le (Zpos m) e b ->
  magnitude sx a b (binary_round prec emax sx m e).
Proof.
  intros Ha Hb Hge Hle. unfold binary_round.
  destruct (shl_align_spec m e (fexp prec emax (Zpos (digits2_pos m) + e)))
    as [(Hlt & He & Hm) | (_ & E)].
  - destruct (shl_align m e _) as [mz ez]. cbn [fst snd] in He, Hm. subst ez.
    set (e' := fexp prec emax (Zpos (digits2_pos m) + e)) in *.
    apply binary_round_aux_magnitude; try assumption; try lia; rewrite Hm.
    + replace e' with (e - (e - e')) at 2 by lia.
      apply dyadic_ge_shift; [lia | assumption].
    + replace e' with (e - (e - e')) at 2 by lia.
      apply dyadic_le_shift; [lia | assumption].
  - rewrite E. apply binary_round_aux_magnitude; try assumption; lia.
Qed.

End RoundBounds.

(** ** Interval arithmetic on integer bounds *)

Lemma SFbetween_finite lo hi s m e :
  SFbetween lo hi (S754_finite s m e) = true
  <-> dyadic_ge (signed s m) e lo /\ dyadic_le (signed s m) e hi.
Proof.
  unfold SFbetween, dyadic_ge, dyadic_le.
  rewrite andb_true_iff, !Z.leb_le. reflexivity.
Qed.

Lemma SFbetween_zero lo hi s :
  SFbetween lo hi (S754_zero s) = true <-> lo <= 0 <= hi.
Proof.
  unfold SFbetween. rewrite andb_true_iff, !Z.leb_le. reflexivity.
Qed.

Lemma SFbetween_weaken lo hi lo' hi' x :
  SFbetween lo hi x = true -> lo' <= lo -> hi <= hi' ->
  SFbetween lo' hi' x = true.
Proof.
  intros H Hlo Hhi. destruct x as [s|s| |s m e]; try discriminate H.
  - apply SFbetween_zero in H. apply SFbetween_zero. lia.
  - apply SFbetween_finite in H. destruct H as [H1 H2].
    apply SFbetween_finite. split.
    + eapply dyadic_ge_weaken; eassumption.
    + eapply dyadic_le_weaken; eassumption.
Qed.

Lemma SFbetween_order lo hi x : SFbetween lo hi x = true -> lo <= hi.
Proof.
  destruct x as [s|s| |s m e]; try discriminate.
  - intros H. apply SFbetween_zero in H. lia.
  - intros H. apply SFbetween_finite in H. destruct H as [H1 H2].
    unfold dyadic_ge, dyadic_le in *. pose proof (pow2_pos (- e)). nia.
Qed.

Lemma magnitude_between sx a b lo hi x :
  magnitude sx a b x -> 0 <= a <= b ->
  (if sx then lo <= - b /\ - a <= hi else lo <= a /\ b <= hi) ->
  SFbetween lo hi x = true.
Proof.
  intros Hmag Hab Hs. destruct x as [s|s| |s m e]; try contradiction.
  - destruct Hmag as [-> Ha]. apply SFbetween_zero. destruct sx; lia.
  - destruct Hmag as (-> & Hge & Hle). apply SFbetween_finite.
    unfold dyadic_ge, dyadic_le, signed in *.
    pose proof (pow2_pos (- e)). pose proof (pow2_pos e).
    destruct sx; cbn [cond_Zopp]; split; nia.
Qed.

(** Bounds on the magnitude of a finite float between two integers. *)
Lemma between_magnitude lo hi s m e :
  SFbetween lo hi (S754_finite s m e) = true ->
  let a := if s then Z.max (- hi) 0 else Z.max lo 0 in
  let b := if s then - lo else hi in
  0 <= a <= b /\ dyadic_ge (Zpos m) e a /\ dyadic_le (Zpos m) e b
  /\ (if s then lo <= - b /\ - a <= hi else lo <= a /\ b <= hi).
Proof.
  intros H. apply SFbetween_finite in H. destruct H as [Hge Hle].
  unfold dyadic_ge, dyadic_le, signed in *.
  pose proof (pow2_pos (- e)). pose proof (pow2_pos e).
  destruct s; cbn [cond_Zopp] in *; repeat split; try nia.
Qed.

Section Interval.

Variables prec emax : Z.
Hypothesis prec_pos : 0 < prec.
Hypothesis emax_large : 2 * prec <= emax.

(** Rounding, multiplication and addition keep their result within the
    interval computed from the bounds of their arguments, as long as the
    bounds are below [2^prec] in absolute value. *)
Lemma binary_round_between lo hi s m e :
  - 2 ^ prec < lo -> hi < 2 ^ prec ->
  SFbetween lo hi (S754_finite s m e) = true ->
  SFbetween lo hi (binary_round prec emax s m e) = true.
Proof.
  intros Hlo Hhi H.
  destruct (between_magnitude lo hi s m e H) as (Hab & Hge & Hle & Hs).
  eapply magnitude_between; [| exact Hab | exact Hs].
  apply binary_round_magnitude; try assumption; destruct s; lia.
Qed.

Lemma binary_normalize_between lo hi m e :
  - 2 ^ prec < lo -> hi < 2 ^ prec ->
  dyadic_ge m e lo -> dyadic_le m e hi ->
  SFbetween lo hi (binary_normalize prec emax m e false) = true.
Proof.
  intros Hlo Hhi Hge Hle. unfold binary_normalize.
  destruct m as [|p|p].
  - apply SFbetween_zero. unfold dyadic_ge, dyadic_le in *.
    pose proof (pow2_pos (- e)). nia.
  - apply binary_round_between; try assumption.
    apply SFbetween_finite. split; assumption.
  - apply binary_round_between; try assumption.
    apply SFbetween_finite. split; assumption.
Qed.

Lemma SFmul_between A B x y :
  0 <= A -> 0 <= B -> A * B < 2 ^ prec ->
  SFbetween (- A) A x = true -> SFbetween (- B) B y = true ->
  SFbetween (- (A * B)) (A * B) (SFmul prec emax x y) = true.
Proof.
  intros HA HB HAB Hx Hy.
  destruct x as [sx|sx| |sx mx ex]; try discriminate Hx;
    destruct y as [sy|sy| |sy my ey]; try discriminate Hy;
    cbn [SFmul]; try (apply SFbetween_zero; nia).
  destruct (between_magnitude _ _ _ _ _ Hx) as (_ & _ & Hlx & _).
  destruct (between_magnitude _ _ _ _ _ Hy) as (_ & _ & Hly & _).
  assert (Hx' : dyadic_le (Zpos mx) ex A).
  { destruct sx; [|exact Hlx]. now replace A with (- - A) by lia. }
  assert (Hy' : dyadic_le (Zpos my) ey B).
  { destruct sy; [|exact Hly]. now replace B with (- - B) by lia. }
  pose proof (dyadic_le_mul (Zpos mx) ex A (Zpos my) ey B
                ltac:(lia) ltac:(lia) Hx' Hy') as Hp.
  eapply magnitude_between with (a := 0) (b := A * B).
  - change (Zpos (mx * my)) with (Zpos mx * Zpos my).
    assert (0 < 2 ^ prec) by (apply Z.pow_pos_nonneg; lia).
    apply (binary_round_aux_magnitude prec emax prec_pos emax_large).
    + lia.
    + lia.
    + nia.
    + unfold dyadic_ge. pose proof (pow2_pos (ex + ey)). nia.
    + exact Hp.
  - nia.
  - destruct (xorb sx sy); lia.
Qed.

Lemma signed_align s m e ez :
  ez <= e ->
  signed s (fst (shl_align m e ez)) = signed s m * 2 ^ (e - ez).
Proof.
  intros He.
  destruct (shl_align_spec m e ez) as [(Hlt & _ & Hm) | (Hle & E)].
  - unfold signed. rewrite Hm. destruct s; cbn [cond_Zopp]; lia.
  - rewrite E. cbn [fst]. replace (e - ez) with 0 by lia.
    rewrite Z.pow_0_r. lia.
Qed.

Lemma SFadd_between a b c d x y :
  - 2 ^ prec < a + c -> b + d < 2 ^ prec ->
  SFbetween a b x = true -> SFbetween c d y = true ->
  SFbetween (a + c) (b + d) (SFadd prec emax x y) = true.
Proof.
  intros Hlo Hhi Hx Hy.
  pose proof (SFbetween_order _ _ _ Hx) as Hab.
  pose proof (SFbetween_order _ _ _ Hy) as Hcd.
  destruct x as [sx|sx| |sx mx ex]; try discriminate Hx;
    destruct y as [sy|sy| |sy my ey]; try discriminate Hy; cbn [SFadd].
  - apply SFbetween_zero in Hx. apply SFbetween_zero in Hy.
    destruct sx, sy; apply SFbetween_zero; lia.
  - apply SFbetween_zero in Hx.
    eapply SFbetween_weaken; [exact Hy | lia | lia].
  - apply SFbetween_zero in Hy.
    eapply SFbetween_weaken; [exact Hx | lia | lia].
  - apply SFbetween_finite in Hx. apply SFbetween_finite in Hy.
    destruct Hx as [Hxl Hxh]. destruct Hy as [Hyl Hyh].
    cbv zeta. set (ez := Z.min ex ey).
    change (cond_Zopp sx (Zpos (fst (shl_align mx ex ez))))
      with (signed sx (fst (shl_align mx ex ez))).
    change (cond_Zopp sy (Zpos (fst (shl_align my ey ez))))
      with (signed sy (fst (shl_align my ey ez))).
    rewrite !signed_align by (unfold ez; lia).
    apply (dyadic_ge_shift _ _ (ex - ez)) in Hxl; [|unfold ez; lia].
    apply (dyadic_le_shift _ _ (ex - ez)) in Hxh; [|unfold ez; lia].
    apply (dyadic_ge_shift _ _ (ey - ez)) in Hyl; [|unfold ez; lia].
    apply (dyadic_le_shift _ _ (ey - ez)) in Hyh; [|unfold ez; lia].
    replace (ex - (ex - ez)) with ez in * by lia.
    replace (ey - (ey - ez)) with ez in * by lia.
    apply binary_normalize_between; try assumption;
      unfold dyadic_ge, dyadic_le in *; nia.
Qed.

End Interval.

(** ** Canonical results *)

Lemma Zdigits2_log2 m : 0 < m -> Zdigits2 m = Z.log2 m + 1.
Proof.
  intros Hm. destruct m as [|p|p]; try lia. cbn [Zdigits2].
  pose proof (digits2_lower p). pose proof (digits2_upper p).
  symmetry. apply Z.add_move_r. apply Z.log2_unique; [lia|].
  replace (Z.succ (Zpos (digits2_pos p) - 1)) with (Zpos (digits2_pos p)) by lia.
  lia.
Qed.

Lemma Zdigits2_mono m m' : 0 < m <= m' -> Zdigits2 m <= Zdigits2 m'.
Proof.
  intros H. rewrite !Zdigits2_log2 by lia.
  apply Z.add_le_mono_r, Z.log2_le_mono. lia.
Qed.

Lemma Zdigits2_div m k :
  0 < k -> 0 < m / 2 ^ k -> Zdigits2 (m / 2 ^ k) = Zdigits2 m - k.
Proof.
  intros Hk Hq.
  assert (Hp : 0 < 2 ^ k) by (apply Z.pow_pos_nonneg; lia).
  assert (Hm : 0 < m).
  { destruct (Z_lt_le_dec 0 m) as [|Hn]; [assumption|].
    assert (m / 2 ^ k <= 0) by (apply Z.div_le_upper_bound; lia). lia. }
  rewrite !Zdigits2_log2 by lia.
  rewrite <- Z.shiftr_div_pow2 by lia.
  rewrite Z.log2_shiftr by lia.
  destruct (Z_lt_le_dec (Z.log2 m) k) as [Hlt | Hle]; [|lia].
  exfalso.
  assert (m < 2 ^ k).
  { apply Z.log2_lt_pow2; assumption. }
  rewrite Z.div_small in Hq by lia. lia.
Qed.

Lemma Zdigits2_small m k : 0 < m -> m / 2 ^ k = 0 -> 0 < k -> Zdigits2 m <= k.
Proof.
  intros Hm Hq Hk. rewrite Zdigits2_log2 by lia.
  assert (Hp : 0 < 2 ^ k) by (apply Z.pow_pos_nonneg; lia).
  assert (m < 2 ^ k).
  { apply Z.div_small_iff in Hq; lia. }
  assert (Z.log2 m < k) by (apply Z.log2_lt_pow2; lia). lia.
Qed.

Section Validity.

Variables prec emax : Z.
Hypothesis prec_pos : 0 < prec.
Hypothesis emax_large : 2 * prec <= emax.

Abbreviation fexp := (SpecFloat.fexp prec emax).

Lemma fexp_mono a b : a <= b -> fexp a <= fexp b.
Proof. unfold SpecFloat.fexp. lia. Qed.

Lemma rounds_to_long_enough m e m1 e1 :
  rounds_to prec emax m e m1 e1 -> 0 <= m ->
  long_enough prec emax m e -> long_enough prec emax m1 e1.
Proof.
  intros [(_ & -> & ->) | (k & Hk & He1 & Hf & Hr & Hx)] Hm HJ; [exact HJ|].
  intros Hm1.
  assert (Hp : 0 < 2 ^ k) by (apply Z.pow_pos_nonneg; lia).
  destruct (Z.eq_dec (m / 2 ^ k) 0) as [H0 | H0].
  - destruct (Z.eq_dec m 0) as [-> | Hm0].
    + rewrite Z.mod_0_l in Hx by lia. rewrite Z.div_0_l in Hx by lia.
      specialize (Hx eq_refl). lia.
    + pose proof (Zdigits2_small m k ltac:(lia) H0 Hk) as Hd.
      assert (e1 = SpecFloat.emin prec emax).
      { rewrite Hf in He1 |- *. unfold SpecFloat.fexp in *. lia. }
      subst e1. rewrite H. apply fexp_ge_emin.
  - assert (Hq : 0 < m / 2 ^ k).
    { assert (0 <= m / 2 ^ k) by (apply Z.div_pos; lia). lia. }
    pose proof (Zdigits2_div m k Hk Hq) as Hd.
    pose proof (Zdigits2_mono (m / 2 ^ k) m1 ltac:(lia)) as Hmono.
    rewrite Hf at 1.
    apply fexp_mono. lia.
Qed.

Lemma shr_fexp_floor m e :
  0 <= m ->
  let r := shr_fexp prec emax m e loc_Exact in
  0 < shr_m (fst r) -> fexp (Zdigits2 (shr_m (fst r)) + snd r) <= snd r.
Proof.
  intros Hm. unfold shr_fexp, shr. cbn [shr_record_of_loc].
  destruct (fexp (Zdigits2 m + e) - e) as [|k|k] eqn:E; cbn [fst snd shr_m];
    try lia.
  set (mrs := {| shr_m := m; shr_r := false; shr_s := false |}).
  rewrite iter_pos_nat.
  destruct (shr_iter (Pos.to_nat k) mrs Hm) as [Hq _].
  rewrite positive_nat_Z in Hq. cbn [mrs shr_m] in Hq.
  rewrite Hq. intros Hpos.
  rewrite Zdigits2_div by lia.
  replace (Zdigits2 m - Zpos k + (e + Zpos k)) with (Zdigits2 m + e) by lia.
  lia.
Qed.

(** The rounding of a mantissa that is long enough is canonical. *)
Lemma binary_round_aux_valid sx m e :
  0 <= m -> long_enough prec emax m e ->
  valid_binary prec emax (binary_round_aux prec emax sx m e loc_Exact) = true.
Proof.
  intros Hm HJ. unfold binary_round_aux.
  destruct (shr_fexp_exact prec emax m e Hm) as [_ H1].
  destruct (shr_fexp prec emax m e loc_Exact) as [mrs1 e1].
  cbn [fst snd] in H1. fold (round_up mrs1).
  pose proof (rounds_to_nonneg _ _ _ _ _ _ H1 Hm) as Hm1.
  pose proof (rounds_to_long_enough _ _ _ _ H1 Hm HJ) as HJ1.
  destruct (shr_fexp_exact prec emax (round_up mrs1) e1 Hm1) as [H2 _].
  pose proof (shr_fexp_floor (round_up mrs1) e1 Hm1) as HB.
  destruct (shr_fexp prec emax (round_up mrs1) e1 loc_Exact) as [mrs2 e2].
  cbn [fst snd] in H2, HB.
  pose proof (rounds_to_long_enough _ _ _ _ H2 Hm1 HJ1) as HJ2.
  destruct (shr_m mrs2) as [|p|p]; try reflexivity.
  destruct (Z.leb_spec e2 (emax - prec)) as [Hle | Hgt]; [|reflexivity].
  cbn [valid_binary]. unfold bounded, canonical_mantissa.
  apply andb_true_iff. split.
  - apply Z.eqb_eq. specialize (HJ2 ltac:(lia)). specialize (HB ltac:(lia)).
    cbn [Zdigits2] in HJ2, HB. lia.
  - apply Z.leb_le. exact Hle.
Qed.

(** A conversion always returns a canonical number of the format. *)
Lemma binary_round_valid sx m e :
  valid_binary prec emax (binary_round prec emax sx m e) = true.
Proof.
  unfold binary_round.
  destruct (shl_align_spec m e (fexp (Zpos (digits2_pos m) + e)))
    as [(Hlt & He & Hm) | (Hle & E)].
  - destruct (shl_align m e _) as [mz ez]. cbn [fst snd] in He, Hm. subst ez.
    apply binary_round_aux_valid; [lia|].
    intros _. rewrite Zdigits2_log2, Hm by lia.
    rewrite Z.log2_mul_pow2 by lia.
    pose proof (Zdigits2_log2 (Zpos m) ltac:(lia)) as Hd.
    cbn [Zdigits2] in Hd.
    apply fexp_mono. lia.
  - rewrite E. apply binary_round_aux_valid; [lia|].
    intros _. cbn [Zdigits2]. exact Hle.
Qed.

(** ** Results that are not a NaN *)

Lemma round_up_nonneg mrs : 0 <= shr_m mrs -> 0 <= round_up mrs.
Proof. intros H. destruct (round_up_range mrs). lia. Qed.

Lemma shr_fexp_nonneg m e l :
  0 <= m -> 0 <= shr_m (fst (shr_fexp prec emax m e l)).
Proof.
  intros Hm. unfold shr_fexp, shr.
  assert (H0 : 0 <= shr_m (shr_record_of_loc m l)).
  { destruct l as [|[| |]]; exact Hm. }
  destruct (fexp (Zdigits2 m + e) - e) as [|k|k]; cbn [fst]; try exact H0.
  rewrite iter_pos_nat.
  destruct (shr_iter (Pos.to_nat k) _ H0) as [Hq _]. rewrite Hq.
  apply Z.div_pos; [exact H0 | apply Z.pow_pos_nonneg; lia].
Qed.

Lemma binary_round_aux_not_nan sx m e l :
  0 <= m -> binary_round_aux prec emax sx m e l <> S754_nan.
Proof.
  intros Hm. unfold binary_round_aux.
  pose proof (shr_fexp_nonneg m e l Hm) as H1.
  destruct (shr_fexp prec emax m e l) as [mrs1 e1]. cbn [fst] in H1.
  fold (round_up mrs1).
  pose proof (shr_fexp_nonneg (round_up mrs1) e1 loc_Exact
                (round_up_nonneg mrs1 H1)) as H2.
  destruct (shr_fexp prec emax (round_up mrs1) e1 loc_Exact) as [mrs2 e2].
  cbn [fst] in H2.
  destruct (shr_m mrs2) as [|p|p]; try discriminate; [|lia].
  destruct (e2 <=? emax - prec); discriminate.
Qed.

Lemma binary_round_not_nan sx m e :
  binary_round prec emax sx m e <> S754_nan.
Proof.
  unfold binary_round. destruct (shl_align m e _) as [mz ez].
  apply binary_round_aux_not_nan. lia.
Qed.

Lemma binary_normalize_not_nan m e s :
  binary_normalize prec emax m e s <> S754_nan.
Proof.
  destruct m; cbn [binary_normalize];
    [discriminate | apply binary_round_not_nan | apply binary_round_not_nan].
Qed.

Lemma SFdiv_finite_not_nan x sy my ey :
  x <> S754_nan ->
  SFdiv prec emax x (S754_finite sy my ey) <> S754_nan.
Proof.
  intros Hx. destruct x as [sx|sx| |sx mx ex]; cbn [SFdiv];
    try discriminate; try contradiction.
  unfold SFdiv_core_binary.
  set (m' := match _ with Zpos _ => _ | Z0 => _ | Zneg _ => _ end).
  assert (Hm' : 0 <= m').
  { unfold m'. destruct (_ - _ - _); try lia.
    apply Z.shiftl_nonneg. lia. }
  pose proof (Z_div_mod m' (Zpos my) ltac:(lia)) as Hdm.
  destruct (Z.div_eucl m' (Zpos my)) as [q r].
  apply binary_round_aux_not_nan. nia.
Qed.

Lemma SFadd_number_not_nan lo hi x y :
  SFbetween lo hi x = true -> y <> S754_nan ->
  SFadd prec emax x y <> S754_nan.
Proof.
  intros Hx Hy.
  destruct x as [s|s| |s m e]; try discriminate Hx;
    destruct y as [sy|sy| |sy my ey]; cbn [SFadd]; try discriminate;
    try contradiction.
  - destruct s, sy; discriminate.
  - apply binary_normalize_not_nan.
Qed.

End Validity.

End Rounding.

(** * The two formats of the firmware *)

Section Formats.

Lemma f32_prec_pos : 0 < Fmt.prec f32. Proof. reflexivity. Qed.
Lemma f32_emax_large : 2 * Fmt.prec f32 <= Fmt.emax f32.
Proof. discriminate. Qed.
Lemma f64_prec_pos : 0 < Fmt.prec f64. Proof. reflexivity. Qed.
Lemma f64_emax_large : 2 * Fmt.prec f64 <= Fmt.emax f64.
Proof. discriminate. Qed.

Lemma to_float_between lo hi x :
  - 2 ^ 24 < lo -> hi < 2 ^ 24 ->
  SFbetween lo hi x = true -> SFbetween lo hi (to_float x) = true.
Proof.
  intros Hlo Hhi H. destruct x as [s|s| |s m e]; try exact H.
  apply (Rounding.binary_round_between _ _ f32_prec_pos f32_emax_large);
    assumption.
Qed.

Lemma to_double_between lo hi x :
  - 2 ^ 53 < lo -> hi < 2 ^ 53 ->
  SFbetween lo hi x = true -> SFbetween lo hi (to_double x) = true.
Proof.
  intros Hlo Hhi H. destruct x as [s|s| |s m e]; try exact H.
  apply (Rounding.binary_round_between _ _ f64_prec_pos f64_emax_large);
    assumption.
Qed.

Lemma double_add_between a b c d x y :
  - 2 ^ 53 < a + c -> b + d < 2 ^ 53 ->
  SFbetween a b x = true -> SFbetween c d y = true ->
  SFbetween (a + c) (b + d) (Fmt.add f64 x y) = true.
Proof. apply (Rounding.SFadd_between _ _ f64_prec_pos f64_emax_large). Qed.

Lemma double_mul_between A B x y :
  0 <= A -> 0 <= B -> A * B < 2 ^ 53 ->
  SFbetween (- A) A x = true -> SFbetween (- B) B y = true ->
  SFbetween (- (A * B)) (A * B) (Fmt.mul f64 x y) = true.
Proof. apply (Rounding.SFmul_between _ _ f64_prec_pos f64_emax_large). Qed.

Lemma to_float_valid x : valid_binary 24 128 (to_float x) = true.
Proof.
  destruct x as [s|s| |s m e]; try reflexivity.
  apply Rounding.binary_round_valid; try reflexivity; discriminate.
Qed.

Lemma to_float_not_nan x : x <> S754_nan -> to_float x <> S754_nan.
Proof.
  intros H. destruct x as [s|s| |s m e]; try assumption.
  apply Rounding.binary_round_not_nan.
Qed.

Lemma to_double_not_nan x : x <> S754_nan -> to_double x <> S754_nan.
Proof.
  intros H. destruct x as [s|s| |s m e]; try assumption.
  apply Rounding.binary_round_not_nan.
Qed.

Lemma SFbetween_not_nan lo hi x : SFbetween lo hi x = true -> x <> S754_nan.
Proof. intros H ->. discriminate H. Qed.

Lemma SFbetween_is_finite lo hi x :
  SFbetween lo hi x = true -> Fmt.is_finite x = true.
Proof. destruct x; try discriminate; reflexivity. Qed.

(** Whatever integer is drawn, the noise is not a NaN. *)
Lemma noise_not_nan r : noise r <> S754_nan.
Proof.
  unfold noise, Fmt.div.
  change (double_lit 100) with (S754_finite false 7036874417766400 (-46)).
  apply Rounding.SFdiv_finite_not_nan.
  apply Rounding.binary_normalize_not_nan.
Qed.

Lemma float_add_assign_not_nan x d :
  SFbetween 0 100 x = true -> d <> S754_nan ->
  float_add_assign x d <> S754_nan.
Proof.
  intros Hx Hd. unfold float_add_assign.
  apply to_float_not_nan.
  apply (Rounding.SFadd_number_not_nan _ _ 0 100); [|exact Hd].
  apply to_double_between; [reflexivity | reflexivity | exact Hx].
Qed.

(** The two [if] statements bring any single-precision number, and
    either infinity, into [0, 100]. *)
Lemma clamp_between x :
  x <> S754_nan -> valid_binary 24 128 x = true ->
  SFbetween 0 100 (clamp x) = true.
Proof.
  intros Hnan Hv. unfold clamp.
  change (float_of_int 0) with (S754_zero false).
  change (float_of_int 100) with (S754_finite false 13107200 (-17)).
  destruct x as [s|s| |s m e]; try contradiction.
  - destruct s; reflexivity.
  - destruct s; reflexivity.
  - destruct s; [reflexivity|].
    change (SFltb (S754_finite false m e) (S754_zero false)) with false.
    cbv iota.
    destruct (SFltb (S754_finite false 13107200 (-17)) (S754_finite false m e))
      eqn:E; [reflexivity|].
    cbn [valid_binary] in Hv. unfold bounded, canonical_mantissa in Hv.
    apply andb_true_iff in Hv. destruct Hv as [Hc _].
    apply Z.eqb_eq in Hc.
    pose proof (Rounding.digits2_upper m) as Hd.
    apply Rounding.SFbetween_finite. unfold dyadic_ge, dyadic_le, signed.
    cbn [cond_Zopp].
    pose proof (Rounding.pow2_pos e) as Hp.
    pose proof (Rounding.pow2_pos (- e)) as Hp'.
    split; [nia|].
    unfold SFltb, SFcompare in E.
    destruct (Z.compare_spec (-17) e) as [He | He | He]; try discriminate E.
    + subst e. change (pow2 (-17)) with 1. change (pow2 (- -17)) with 131072.
      destruct (Pos.compare_cont Eq 13107200 m) eqn:Ec; try discriminate E.
      * apply Pos.compare_eq in Ec. subst m. discriminate.
      * change (Pos.compare_cont Eq 13107200 m) with (13107200 ?= m)%positive in Ec.
        apply Pos.compare_gt_iff, Pos2Z.pos_lt_pos in Ec. clear - Ec. lia.
    + rewrite (Rounding.pow2_nonpos e), (Rounding.pow2_nonneg (- e)) by lia.
      unfold fexp, emin in Hc.
      assert (Hdig : Zpos (digits2_pos m) <= 24) by lia.
      assert (Zpos m < 2 ^ 24).
      { eapply Z.lt_le_trans; [exact Hd|]. apply Z.pow_le_mono_r; lia. }
      assert (2 ^ 18 <= 2 ^ (- e)) by (apply Z.pow_le_mono_r; lia).
      change (2 ^ 24) with 16777216 in *. change (2 ^ 18) with 262144 in *.
      lia.
Qed.

End Formats.

(** [SFbetween] is the comparison of the rational value. *)
Lemma SFbetween_Q lo hi x :
  SFbetween lo hi x = true
  <-> Fmt.is_finite x = true
      /\ (inject_Z lo <= SF2Q x <= inject_Z hi)%Q.
Proof.
  destruct x as [s|s| |s m e]; cbn [SFbetween Fmt.is_finite SF2Q].
  - rewrite andb_true_iff, !Z.leb_le. unfold Qle; simpl. intuition lia.
  - split; [discriminate | intros [H _]; discriminate H].
  - split; [discriminate | intros [H _]; discriminate H].
  - rewrite andb_true_iff, !Z.leb_le.
    destruct e as [|p|p].
    + change (pow2 0) with 1. change (pow2 (- 0)) with 1.
      unfold Qle; simpl. rewrite !Z.mul_1_r. intuition lia.
    + rewrite (Rounding.pow2_nonneg (Zpos p)), (Rounding.pow2_nonpos (- Zpos p))
        by lia.
      unfold Qle; cbn [Qnum Qden inject_Z]. rewrite !Z.mul_1_r. intuition lia.
    + rewrite (Rounding.pow2_nonpos (Zneg p)), (Rounding.pow2_nonneg (- Zneg p))
        by lia.
      change (- Zneg p) with (Zpos p).
      unfold Qle; cbn [Qnum Qden inject_Z].
      rewrite Pos2Z.inj_pow, !Z.mul_1_r. intuition lia.
Qed.

(** ** Checking a property on every integer of an interval *)

Lemma In_Zrange lo n r :
  lo <= r < lo + Z.of_nat n -> In r (Zrange lo n).
Proof.
  intros H. unfold Zrange. apply in_map_iff.
  exists (Z.to_nat (r - lo)). split; [lia|].
  apply in_seq. lia.
Qed.

Lemma forall_Zrange (f : Z -> bool) lo n :
  forallb f (Zrange lo n) = true ->
  forall r, lo <= r < lo + Z.of_nat n -> f r = true.
Proof.
  intros H r Hr. rewrite forallb_forall in H. apply H, In_Zrange, Hr.
Qed.

Lemma SFsame_eq x y : SFsame x y = true -> x = y.
Proof.
  destruct x as [s|s| |s m e], y as [s'|s'| |s' m' e']; cbn [SFsame];
    try discriminate; try reflexivity.
  - intros H. apply eqb_prop in H. now subst.
  - intros H. apply eqb_prop in H. now subst.
  - intros H. apply andb_true_iff in H. destruct H as [H He].
    apply andb_true_iff in H. destruct H as [Hs Hm].
    apply eqb_prop in Hs. apply Pos.eqb_eq in Hm. apply Z.eqb_eq in He.
    now subst.
Qed.

(** ** The noise term *)

Lemma noise_between_5 r :
  -500 <= r <= 500 -> SFbetween (-5) 5 (noise r) = true.
Proof.
  intros H.
  apply (forall_Zrange (fun r => SFbetween (-5) 5 (noise r)) (-500) 1001);
    [vm_compute; reflexivity | lia].
Qed.

Lemma noise_between_2 r :
  -200 <= r <= 200 -> SFbetween (-2) 2 (noise r) = true.
Proof.
  intros H.
  apply (forall_Zrange (fun r => SFbetween (-2) 2 (noise r)) (-200) 401);
    [vm_compute; reflexivity | lia].
Qed.


(** ** The sine pattern *)

Lemma sine_value_between s :
  SFbetween (-1) 1 s = true ->
  SFbetween 5 95
    (to_float (Fmt.add f64 (double_lit 50) (Fmt.mul f64 (double_lit 45) s)))
  = true.
Proof.
  intros Hs.
  apply to_float_between; [reflexivity | reflexivity |].
  apply (double_add_between 50 50 (-45) 45);
    [reflexivity | reflexivity | reflexivity |].
  apply (double_mul_between 45 1); try lia; try reflexivity.
  exact Hs.
Qed.
(** * Rounding to nearest

    The rounding procedure of [SpecFloat] returns the number of the
    format nearest to the exact result, the one with an even mantissa at a
    tie.  This is proved for the procedure itself, on any located
    quotient, and carried to the conversions, the product, the sum and
    the quotient. *)

Module Nearest.

(** ** The place of a remainder *)

Lemma represents_of_loc A D :
  represents (shr_record_of_loc (A / D) (locate A D)) A D.
Proof.
  unfold represents. destruct (locate A D) as [|[| |]]; split; reflexivity.
Qed.

(** One shift of the record doubles the divisor. *)
Lemma represents_shr_1 mrs A D :
  0 <= A -> 0 < D -> represents mrs A D -> represents (shr_1 mrs) A (D * 2).
Proof.
  intros HA HD [Hm Hl].
  assert (Hq : 0 <= A / D) by (apply Z.div_pos; lia).
  pose proof (Z.mod_pos_bound A D HD) as Hr.
  pose proof (Z.rem_mul_r A D 2 ltac:(lia) ltac:(lia)) as Hrem.
  pose proof (Z.mod_pos_bound (A / D) 2 ltac:(lia)) as Hb.
  pose proof (Zmod_odd (A / D)) as Ho.
  split.
  - rewrite Rounding.shr_1_m by lia. rewrite Hm, Z.div_div by lia. reflexivity.
  - destruct mrs as [m r s]. cbn [shr_m] in Hm. subst m.
    unfold locate in *. rewrite Hrem.
    assert (Hodd : shr_r (shr_1 {| shr_m := A / D; shr_r := r; shr_s := s |})
                   = Z.odd (A / D)
                   /\ shr_s (shr_1 {| shr_m := A / D; shr_r := r; shr_s := s |})
                      = r || s).
    { cbn [shr_1]. destruct (A / D) as [|[p|p|]|p]; try lia; split; reflexivity. }
    destruct Hodd as [Hr' Hs'].
    destruct (shr_1 {| shr_m := A / D; shr_r := r; shr_s := s |}) as [m' r' s'].
    cbn [shr_r shr_s] in Hr', Hs'. subst r' s'. cbn [loc_of_shr_record] in *.
    destruct (Z.odd (A / D)); rewrite Ho.
    + destruct (A mod D =? 0) eqn:E0.
      * apply Z.eqb_eq in E0. rewrite E0.
        replace (0 + D * 1 =? 0) with false by (symmetry; apply Z.eqb_neq; lia).
        replace (2 * (0 + D * 1) ?= D * 2) with Eq
          by (symmetry; apply Z.compare_eq_iff; lia).
        destruct r, s; try discriminate Hl. reflexivity.
      * apply Z.eqb_neq in E0.
        replace (A mod D + D * 1 =? 0) with false
          by (symmetry; apply Z.eqb_neq; lia).
        replace (2 * (A mod D + D * 1) ?= D * 2) with Gt
          by (symmetry; apply Z.compare_gt_iff; lia).
        destruct r, s; try discriminate Hl; reflexivity.
    + destruct (A mod D =? 0) eqn:E0.
      * apply Z.eqb_eq in E0. rewrite E0.
        replace (0 + D * 0 =? 0) with true by (symmetry; apply Z.eqb_eq; lia).
        destruct r, s; try discriminate Hl. reflexivity.
      * apply Z.eqb_neq in E0.
        replace (A mod D + D * 0 =? 0) with false
          by (symmetry; apply Z.eqb_neq; lia).
        replace (2 * (A mod D + D * 0) ?= D * 2) with Lt
          by (symmetry; apply Z.compare_lt_iff; lia).
        destruct r, s; try discriminate Hl; reflexivity.
Qed.

Lemma represents_iter n : forall mrs A D,
  0 <= A -> 0 < D -> represents mrs A D ->
  represents (Nat.iter n shr_1 mrs) A (D * 2 ^ Z.of_nat n).
Proof.
  induction n as [|n IH]; intros mrs A D HA HD H.
  - cbn [Nat.iter]. change (2 ^ Z.of_nat 0) with 1. rewrite Z.mul_1_r. exact H.
  - change (Nat.iter (S n) shr_1 mrs) with (shr_1 (Nat.iter n shr_1 mrs)).
    rewrite Nat2Z.inj_succ, Z.pow_succ_r by lia.
    replace (D * (2 * 2 ^ Z.of_nat n)) with (D * 2 ^ Z.of_nat n * 2) by ring.
    assert (0 < 2 ^ Z.of_nat n) by (apply Z.pow_pos_nonneg; lia).
    apply represents_shr_1; [assumption | nia | apply IH; assumption].
Qed.

(** The first shift of the rounding procedure, on any located input. *)
Lemma shr_represents A D e k :
  0 <= A -> 0 < D -> 0 <= k ->
  let r := shr (shr_record_of_loc (A / D) (locate A D)) e k in
  represents (fst r) A (D * 2 ^ k) /\ snd r = e + k.
Proof.
  intros HA HD Hk. unfold shr.
  destruct k as [|p|p]; cbn [fst snd]; try lia.
  - rewrite Z.mul_1_r. split; [apply represents_of_loc | lia].
  - split; [|reflexivity].
    rewrite Rounding.iter_pos_nat, <- (positive_nat_Z p).
    apply represents_iter; try assumption. apply represents_of_loc.
Qed.

(** ** The nearest integer *)

(** [rne] keeps the quotient when the remainder is below one half,
    takes the next integer when it is above, and the even one of the two
    at one half. *)
Lemma rne_cases A D :
  0 <= A -> 0 < D ->
  (2 * (A mod D) < D -> rne A D = A / D)
  /\ (D < 2 * (A mod D) -> rne A D = A / D + 1)
  /\ (2 * (A mod D) = D ->
      (rne A D = A / D \/ rne A D = A / D + 1) /\ Z.even (rne A D) = true).
Proof.
  intros HA HD. unfold rne, locate.
  pose proof (Z.mod_pos_bound A D HD) as Hr.
  destruct (A mod D =? 0) eqn:E0; cbn [round_nearest_even].
  - apply Z.eqb_eq in E0. split; [reflexivity|]. split; intros; exfalso; lia.
  - apply Z.eqb_neq in E0.
    destruct (Z.compare_spec (2 * (A mod D)) D) as [E | E | E].
    + split; [intros; lia|]. split; [intros; lia|]. intros _.
      destruct (Z.even (A / D)) eqn:Ev.
      * split; [now left | exact Ev].
      * split; [now right|]. rewrite Z.even_add, Ev. reflexivity.
    + split; [reflexivity|]. split; intros; exfalso; lia.
    + split; [intros; lia|]. split; [reflexivity | intros; exfalso; lia].
Qed.

(** It is within one half of the quotient. *)
Lemma rne_near A D :
  0 <= A -> 0 < D ->
  2 * Z.abs (rne A D * D - A) <= D
  /\ (2 * Z.abs (rne A D * D - A) = D -> Z.even (rne A D) = true)
  /\ A / D <= rne A D <= A / D + 1.
Proof.
  intros HA HD.
  destruct (rne_cases A D HA HD) as (H1 & H2 & H3).
  pose proof (Z.mod_pos_bound A D HD) as Hr.
  pose proof (Z.div_mod A D ltac:(lia)) as Hdm.
  set (M := rne A D) in *. set (q := A / D) in *. set (r := A mod D) in *.
  assert (Hc : (M = q /\ 2 * r <= D /\ (2 * r = D -> Z.even M = true))
               \/ (M = q + 1 /\ D <= 2 * r
                   /\ (2 * r = D -> Z.even M = true))).
  { destruct (Z.compare_spec (2 * r) D) as [E | E | E].
    - destruct (H3 E) as [[Hm | Hm] Hev]; [left | right];
        (split; [exact Hm|]); (split; [lia|]); intros _; exact Hev.
    - left. split; [exact (H1 E)|]. split; [lia | intros; exfalso; lia].
    - right. split; [exact (H2 E)|]. split; [lia | intros; exfalso; lia]. }
  destruct Hc as [(Hm & Hle & Hev) | (Hm & Hle & Hev)].
  - assert (Ed : M * D - A = - r) by (rewrite Hm, Hdm; ring).
    rewrite Ed. split; [lia|]. split; [intros; apply Hev; lia | lia].
  - assert (Ed : M * D - A = D - r) by (rewrite Hm, Hdm; ring).
    rewrite Ed. split; [lia|]. split; [intros; apply Hev; lia | lia].
Qed.

(** ** The number of digits of a mantissa *)

Lemma Zdigits2_bounds M :
  0 < M -> 2 ^ (Zdigits2 M - 1) <= M < 2 ^ Zdigits2 M.
Proof.
  destruct M as [|p|p]; try lia. intros _. cbn [Zdigits2].
  split; [apply Rounding.digits2_lower | apply Rounding.digits2_upper].
Qed.

Lemma Zdigits2_nonneg M : 0 <= Zdigits2 M.
Proof. destruct M; cbn [Zdigits2]; lia. Qed.

Lemma Zdigits2_le M n : 0 <= M -> 0 <= n -> M < 2 ^ n -> Zdigits2 M <= n.
Proof.
  intros HM Hn Hlt. destruct (Z.eq_dec M 0) as [-> | H0]; [cbn; lia|].
  destruct (Zdigits2_bounds M ltac:(lia)) as [Hlo _].
  destruct (Z_le_gt_dec (Zdigits2 M) n) as [|Hgt]; [assumption | exfalso].
  assert (2 ^ n <= 2 ^ (Zdigits2 M - 1)) by (apply Z.pow_le_mono_r; lia).
  lia.
Qed.

Lemma Zdigits2_gt M n : 0 <= n -> 2 ^ n <= M -> n < Zdigits2 M.
Proof.
  intros Hn Hle.
  assert (0 < 2 ^ n) by (apply Z.pow_pos_nonneg; lia).
  destruct (Zdigits2_bounds M ltac:(lia)) as [_ Hhi].
  apply (Z.pow_lt_mono_r_iff 2); [lia | apply Zdigits2_nonneg | lia].
Qed.

(** ** The rounding procedure, on integers *)

Section Procedure.

Variables prec emax : Z.
Hypothesis prec_pos : 0 < prec.
Hypothesis emax_large : 2 * prec <= emax.

Abbreviation emin := (SpecFloat.emin prec emax).
Abbreviation fexp := (SpecFloat.fexp prec emax).

(** The result of the rounding procedure on a located quotient whose
    exponent is not above the canonical one. *)
Lemma binary_round_aux_spec sx A D e :
  0 <= A -> 0 < D -> e <= fexp (Zdigits2 (A / D) + e) ->
  let c := fexp (Zdigits2 (A / D) + e) in
  let M := rne A (D * 2 ^ (c - e)) in
  0 <= M <= 2 ^ prec
  /\ binary_round_aux prec emax sx (A / D) e (locate A D)
     = if M =? 0 then S754_zero sx
       else if M <? 2 ^ prec then
         if c <=? emax - prec then S754_finite sx (Z.to_pos M) c
         else S754_infinity sx
       else
         if c + 1 <=? emax - prec
         then S754_finite sx (Z.to_pos (2 ^ (prec - 1))) (c + 1)
         else S754_infinity sx.
Proof.
  intros HA HD He c M.
  assert (Hk : 0 <= c - e) by (unfold c; lia).
  assert (Hpk : 0 < 2 ^ (c - e)) by (apply Z.pow_pos_nonneg; lia).
  assert (HD' : 0 < D * 2 ^ (c - e)) by nia.
  assert (Hpp : 0 < 2 ^ prec) by (apply Z.pow_pos_nonneg; lia).
  assert (Hcmin : emin <= c) by (unfold c, SpecFloat.fexp; lia).
  (* the quotient has at most [prec] digits *)
  assert (Hq : A / (D * 2 ^ (c - e)) < 2 ^ prec).
  { rewrite <- Z.div_div by lia.
    assert (Hm : 0 <= A / D) by (apply Z.div_pos; lia).
    apply Z.div_lt_upper_bound; [lia|].
    destruct (Z.eq_dec (A / D) 0) as [-> | H0]; [nia|].
    destruct (Zdigits2_bounds (A / D) ltac:(lia)) as [_ Hhi].
    eapply Z.lt_le_trans; [exact Hhi|].
    rewrite <- Z.pow_add_r by lia.
    apply Z.pow_le_mono_r; [lia|]. unfold c, SpecFloat.fexp. lia. }
  destruct (rne_near A (D * 2 ^ (c - e)) HA HD') as (_ & _ & HM).
  fold M in HM.
  assert (Hq0 : 0 <= A / (D * 2 ^ (c - e))) by (apply Z.div_pos; lia).
  split; [lia|].
  unfold binary_round_aux, shr_fexp. fold c.
  destruct (shr_represents A D e (c - e) HA HD Hk) as [[Hm1 Hl1] He1].
  destruct (shr (shr_record_of_loc (A / D) (locate A D)) e (c - e))
    as [mrs1 e1].
  cbn [fst snd] in Hm1, Hl1, He1.
  replace e1 with c by lia.
  rewrite Hm1, Hl1. fold (rne A (D * 2 ^ (c - e))). fold M.
  cbn [shr_record_of_loc]. unfold shr.
  destruct (Z.eq_dec M 0) as [E0 | E0].
  - rewrite E0. cbn [Zdigits2 Z.eqb].
    destruct (fexp (0 + c) - c) as [|p|p] eqn:Ek; try reflexivity.
    exfalso. unfold SpecFloat.fexp in Ek. lia.
  - replace (M =? 0) with false by (symmetry; apply Z.eqb_neq; exact E0).
    destruct (Z.ltb_spec M (2 ^ prec)) as [Hlt | Hge].
    + assert (Hd : Zdigits2 M <= prec) by (apply Zdigits2_le; lia).
      destruct (fexp (Zdigits2 M + c) - c) as [|p|p] eqn:Ek;
        try (exfalso; unfold SpecFloat.fexp in Ek; lia);
        cbn [shr_m]; destruct M as [|m|m]; try lia; reflexivity.
    + assert (EM : M = 2 ^ prec) by lia.
      assert (Hd : Zdigits2 M = prec + 1).
      { apply Z.le_antisymm.
        - apply Zdigits2_le; try lia. rewrite EM, Z.pow_add_r by lia. lia.
        - pose proof (Zdigits2_gt M prec ltac:(lia) ltac:(lia)). lia. }
      assert (Ek : fexp (Zdigits2 M + c) - c = 1).
      { rewrite Hd. unfold SpecFloat.fexp. lia. }
      rewrite Ek. cbn [iter_pos].
      assert (Hs : shr_m (shr_1 {| shr_m := M; shr_r := false; shr_s := false |})
                   = 2 ^ (prec - 1)).
      { rewrite Rounding.shr_1_m by (cbn; lia). cbn [shr_m]. rewrite EM.
        replace prec with (prec - 1 + 1) at 1 by lia.
        rewrite Z.pow_add_r by lia. apply Z.div_mul. lia. }
      rewrite Hs.
      assert (0 < 2 ^ (prec - 1)) by (apply Z.pow_pos_nonneg; lia).
      destruct (2 ^ (prec - 1)) as [|h|h]; try lia. reflexivity.
Qed.

End Procedure.

(** ** Powers of two in [Q] *)

Lemma Qpow_pos e : (0 < 2 ^ e)%Q.
Proof. apply Qpower_0_lt. reflexivity. Qed.

Lemma Qpow_add a b : (2 ^ (a + b) == 2 ^ a * 2 ^ b)%Q.
Proof. apply Qpower_plus. discriminate. Qed.

Lemma Qpow_sub a b : (2 ^ (a - b) == 2 ^ a / 2 ^ b)%Q.
Proof. apply Qpower_minus. discriminate. Qed.

Lemma Qpow_le a b : a <= b -> (2 ^ a <= 2 ^ b)%Q.
Proof. intros H. apply Qpower_le_compat_l; [exact H | discriminate]. Qed.

Lemma Qpow_lt a b : a < b -> (2 ^ a < 2 ^ b)%Q.
Proof. intros H. apply Qpower_lt_compat_l; [exact H | reflexivity]. Qed.

Lemma Qpow_lt_inv a b : (2 ^ a < 2 ^ b)%Q -> a < b.
Proof. intros H. apply (Qpower_lt_compat_l_inv 2); [exact H | reflexivity]. Qed.

Lemma Qpow_inject n : 0 <= n -> (inject_Z (2 ^ n) == 2 ^ n)%Q.
Proof. intros H. rewrite Zpower_Qpower by exact H. reflexivity. Qed.

Lemma Qpow_succ a : (2 ^ (a + 1) == 2 * 2 ^ a)%Q.
Proof. rewrite Qpow_add. change (2 ^ 1)%Q with 2%Q. ring. Qed.

(** ** The value of a float *)

Lemma SF2Q_finite s m e :
  (SF2Q (S754_finite s m e) == inject_Z (cond_Zopp s (Zpos m)) * 2 ^ e)%Q.
Proof.
  destruct e as [|p|p]; cbn [SF2Q].
  - rewrite Z.pow_0_r, Z.mul_1_r. change (2 ^ 0)%Q with 1%Q. ring.
  - rewrite inject_Z_mult, Qpow_inject by lia. reflexivity.
  - rewrite Qmake_Qdiv.
    change (Z.neg p) with (- Z.pos p). rewrite Qpower_opp.
    rewrite <- Qpow_inject by lia. rewrite <- Pos2Z.inj_pow. 
    reflexivity.
Qed.

(** ** The nearest integer, in [Q] *)

Lemma nearest_even_bounds x M :
  nearest_even x M ->
  (inject_Z M - (1 # 2) <= x <= inject_Z M + (1 # 2))%Q.
Proof.
  intros [H _]. apply Qabs_Qle_condition in H. destruct H. split; lra.
Qed.

Lemma nearest_even_le x M n :
  nearest_even x M -> (x <= inject_Z n)%Q -> M <= n.
Proof.
  intros H Hx. apply nearest_even_bounds in H.
  destruct (Z_le_gt_dec M n) as [|Hgt]; [assumption | exfalso].
  assert (Hq : (inject_Z (n + 1) <= inject_Z M)%Q) by (rewrite <- Zle_Qle; lia).
  rewrite inject_Z_plus in Hq. change (inject_Z 1) with 1%Q in Hq. lra.
Qed.

Lemma nearest_even_ge x M n :
  nearest_even x M -> (inject_Z n <= x)%Q -> n <= M.
Proof.
  intros H Hx. apply nearest_even_bounds in H.
  destruct (Z_le_gt_dec n M) as [|Hgt]; [assumption | exfalso].
  assert (Hq : (inject_Z (M + 1) <= inject_Z n)%Q) by (rewrite <- Zle_Qle; lia).
  rewrite inject_Z_plus in Hq. change (inject_Z 1) with 1%Q in Hq. lra.
Qed.

Lemma nearest_even_mono x y M N :
  nearest_even x M -> nearest_even y N -> (x <= y)%Q -> M <= N.
Proof.
  intros HM HN Hxy.
  pose proof (nearest_even_bounds _ _ HM) as BM.
  pose proof (nearest_even_bounds _ _ HN) as BN.
  destruct (Z_le_gt_dec M N) as [|Hgt]; [assumption | exfalso].
  assert (Hq : (inject_Z (N + 1) <= inject_Z M)%Q) by (rewrite <- Zle_Qle; lia).
  rewrite inject_Z_plus in Hq. change (inject_Z 1) with 1%Q in Hq.
  assert (Ex : (x - inject_Z M == - (1 # 2))%Q) by lra.
  assert (Ey : (y - inject_Z N == 1 # 2)%Q) by lra.
  assert (EM : (inject_Z M == inject_Z (N + 1))%Q).
  { rewrite inject_Z_plus. change (inject_Z 1) with 1%Q. lra. }
  assert (EZ : M = N + 1) by (apply inject_Z_injective; exact EM).
  destruct HM as [_ HM], HN as [_ HN].
  assert (E1 : Z.even M = true).
  { apply HM. rewrite Ex. reflexivity. }
  assert (E2 : Z.even N = true).
  { apply HN. rewrite Ey. reflexivity. }
  rewrite EZ, Z.even_add, E2 in E1. discriminate E1.
Qed.

Lemma nearest_even_int n : nearest_even (inject_Z n) n.
Proof.
  assert (E : (inject_Z n - inject_Z n == 0)%Q) by ring.
  split.
  - rewrite E. discriminate.
  - rewrite E. intros H. discriminate H.
Qed.

Lemma nearest_even_eq x y M : (x == y)%Q -> nearest_even x M -> nearest_even y M.
Proof.
  intros E [H1 H2]. split.
  - rewrite <- E. exact H1.
  - intros H. apply H2. rewrite E. exact H.
Qed.

Lemma rne_nearest_even A D :
  0 <= A -> 0 < D -> nearest_even (inject_Z A / inject_Z D) (rne A D).
Proof.
  intros HA HD.
  destruct (rne_near A D HA HD) as (Hle & Hev & _).
  set (M := rne A D) in *.
  assert (Hd : (0 < inject_Z D)%Q)
    by (change 0%Q with (inject_Z 0); rewrite <- Zlt_Qlt; exact HD).
  assert (Ey : (inject_Z A / inject_Z D * inject_Z D == inject_Z A)%Q)
    by (field; lra).
  set (y := (inject_Z A / inject_Z D)%Q) in *.
  assert (H1 : (inject_Z (2 * (M * D - A)) <= inject_Z D)%Q)
    by (rewrite <- Zle_Qle; lia).
  assert (H2 : (inject_Z (- D) <= inject_Z (2 * (M * D - A)))%Q)
    by (rewrite <- Zle_Qle; lia).
  unfold Zminus in H1, H2.
  rewrite inject_Z_mult, inject_Z_plus, inject_Z_mult, inject_Z_opp in H1, H2.
  rewrite inject_Z_opp in H2. change (inject_Z 2) with 2%Q in H1, H2.
  split.
  - apply Qabs_Qle_condition. split; nra.
  - intros Ht. apply Hev.
    assert (Hc : (2 * (inject_Z M * inject_Z D - inject_Z A) == inject_Z D
                  \/ 2 * (inject_Z M * inject_Z D - inject_Z A)
                     == - inject_Z D)%Q).
    { destruct (Qlt_le_dec (y - inject_Z M) 0) as [Hn | Hp].
      - rewrite Qabs_neg in Ht by lra. left. nra.
      - rewrite Qabs_pos in Ht by lra. right. nra. }
    assert (Hz : 2 * (M * D - A) = D \/ 2 * (M * D - A) = - D).
    { destruct Hc as [Hc | Hc]; [left | right]; apply inject_Z_injective;
        unfold Zminus;
        rewrite inject_Z_mult, inject_Z_plus, inject_Z_mult, !inject_Z_opp;
        change (inject_Z 2) with 2%Q; lra. }
    lia.
Qed.

(** ** Rounded values *)

Lemma Qdiv_pow x c : (x / 2 ^ c * 2 ^ c == x)%Q.
Proof. pose proof (Qpow_pos c). field. lra. Qed.

Lemma inject_Z_nonneg n : 0 <= n -> (0 <= inject_Z n)%Q.
Proof. intros H. change 0%Q with (inject_Z 0). rewrite <- Zle_Qle. exact H. Qed.

Section Values.

Variables prec emax : Z.
Hypothesis prec_pos : 0 < prec.

Abbreviation emin := (SpecFloat.emin prec emax).

Lemma canonical_exponent_emin x c :
  canonical_exponent prec emax x c -> emin <= c.
Proof. intros [[-> _] | [H _]]; lia. Qed.

Lemma canonical_exponent_upper x c :
  canonical_exponent prec emax x c -> (x < 2 ^ (c + prec))%Q.
Proof. intros [[_ H] | [_ [_ H]]]; exact H. Qed.

Lemma canonical_exponent_mono x c x' c' :
  canonical_exponent prec emax x c -> canonical_exponent prec emax x' c' ->
  (x <= x')%Q -> c <= c'.
Proof.
  intros Hc Hc' Hx.
  pose proof (canonical_exponent_emin _ _ Hc') as Hmin.
  pose proof (canonical_exponent_upper _ _ Hc') as Hup.
  destruct Hc as [[-> _] | [Hgt [Hlo _]]]; [exact Hmin|].
  destruct (Z_le_gt_dec c c') as [|Hlt]; [assumption | exfalso].
  assert (H : (2 ^ (c' + prec) <= 2 ^ (c + prec - 1))%Q)
    by (apply Qpow_le; lia).
  lra.
Qed.

(** A bound on the number bounds its canonical exponent. *)
Lemma canonical_exponent_le x c p :
  canonical_exponent prec emax x c -> (x < 2 ^ p)%Q ->
  c <= Z.max (p - prec) emin.
Proof.
  intros [[-> _] | [Hgt [Hlo _]]] Hx; [lia|].
  assert (H : c + prec - 1 < p) by (apply Qpow_lt_inv; lra).
  lia.
Qed.

Lemma rounded_nonneg x r : rounded prec emax x r -> (0 <= r)%Q.
Proof.
  intros (Hx & c & M & Hc & HM & ->).
  pose proof (Qpow_pos c) as HP.
  assert (H0 : 0 <= M).
  { apply (nearest_even_ge _ _ 0 HM). change (inject_Z 0) with 0%Q.
    apply Qle_shift_div_l; [exact HP | lra]. }
  apply inject_Z_nonneg in H0. nra.
Qed.

(** The rounding error is at most half a unit in the last place. *)
Lemma rounded_error x r p :
  rounded prec emax x r -> (x < 2 ^ p)%Q ->
  (Qabs (r - x) <= 2 ^ (Z.max (p - prec) emin - 1))%Q.
Proof.
  intros (Hx & c & M & Hc & HM & Er) Hp.
  pose proof (canonical_exponent_le _ _ _ Hc Hp) as Hcp.
  pose proof (Qpow_pos c) as HP.
  pose proof (Qdiv_pow x c) as Ey.
  apply nearest_even_bounds in HM.
  set (y := (x / 2 ^ c)%Q) in *.
  assert (H : (2 ^ c <= 2 * 2 ^ (Z.max (p - prec) emin - 1))%Q).
  { rewrite <- Qpow_succ. apply Qpow_le. lia. }
  apply Qabs_Qle_condition. rewrite Er. split; nra.
Qed.

(** Rounding does not decrease with the number. *)
Lemma rounded_mono x r x' r' :
  rounded prec emax x r -> rounded prec emax x' r' ->
  (x <= x')%Q -> (r <= r')%Q.
Proof.
  intros (Hx & c & M & Hc & HM & Er) (Hx' & c' & M' & Hc' & HM' & Er') Hle.
  pose proof (canonical_exponent_mono _ _ _ _ Hc Hc' Hle) as Hcc.
  pose proof (Qpow_pos c) as HP. pose proof (Qpow_pos c') as HP'.
  pose proof (Qdiv_pow x c) as Ey. pose proof (Qdiv_pow x' c') as Ey'.
  rewrite Er, Er'.
  destruct (Z.eq_dec c c') as [<- | Hne].
  - assert (HMM : M <= M').
    { apply (nearest_even_mono _ _ _ _ HM HM').
      apply Qmult_le_r with (z := (2 ^ c)%Q); [exact HP | lra]. }
    rewrite Zle_Qle in HMM. nra.
  - assert (Hlt : c < c') by lia.
    pose proof (canonical_exponent_emin _ _ Hc) as Hmin.
    pose proof (canonical_exponent_upper _ _ Hc) as Hup.
    destruct Hc' as [[-> _] | [_ [Hlo' _]]]; [lia|].
    set (j := c' + prec - 1 - c).
    assert (Hj : 0 <= j) by (unfold j; lia).
    assert (EB : (2 ^ (c' + prec - 1) == inject_Z (2 ^ j) * 2 ^ c)%Q).
    { rewrite Qpow_inject by exact Hj. rewrite <- Qpow_add.
      unfold j. replace (c' + prec - 1 - c + c) with (c' + prec - 1) by lia.
      reflexivity. }
    assert (EB' : (2 ^ (c' + prec - 1) == inject_Z (2 ^ (prec - 1)) * 2 ^ c')%Q).
    { rewrite Qpow_inject by lia. rewrite <- Qpow_add.
      replace (prec - 1 + c') with (c' + prec - 1) by lia. reflexivity. }
    assert (H1 : M <= 2 ^ j).
    { apply (nearest_even_le _ _ _ HM).
      apply Qmult_le_r with (z := (2 ^ c)%Q); [exact HP|].
      rewrite Ey, <- EB.
      assert ((2 ^ (c + prec) <= 2 ^ (c' + prec - 1))%Q) by (apply Qpow_le; lia).
      lra. }
    assert (H2 : 2 ^ (prec - 1) <= M').
    { apply (nearest_even_ge _ _ _ HM').
      apply Qmult_le_r with (z := (2 ^ c')%Q); [exact HP'|].
      rewrite Ey', <- EB'. exact Hlo'. }
    rewrite Zle_Qle in H1, H2.
    apply Qle_trans with (y := (2 ^ (c' + prec - 1))%Q).
    + rewrite EB. nra.
    + rewrite EB'. nra.
Qed.

Lemma rounded_unique x r r' :
  rounded prec emax x r -> rounded prec emax x r' -> (r == r')%Q.
Proof.
  intros H H'. apply Qle_antisym.
  - apply (rounded_mono x r x r'); [assumption | assumption | lra].
  - apply (rounded_mono x r' x r); [assumption | assumption | lra].
Qed.

Lemma rounded_eq x x' r r' :
  (x == x')%Q -> (r == r')%Q -> rounded prec emax x r -> rounded prec emax x' r'.
Proof.
  intros Ex Er (Hx & c & M & Hc & HM & E).
  split; [lra|]. exists c, M. split; [|split].
  - destruct Hc as [[Hc H] | [Hc [H1 H2]]]; [left | right];
      (split; [exact Hc|]); try split; lra.
  - apply (nearest_even_eq (x / 2 ^ c)); [|exact HM].
    rewrite Ex. reflexivity.
  - rewrite <- Er. exact E.
Qed.

(** A number of the format rounds to itself. *)
Lemma held_rounded x : held prec emax x -> rounded prec emax x x.
Proof.
  intros (M & c0 & [HM0 HM] & Hc0 & Ex).
  pose proof (Qpow_pos c0) as HP0.
  pose proof (inject_Z_nonneg M HM0) as HMq.
  assert (Hx : (0 <= x)%Q) by (rewrite Ex; nra).
  split; [exact Hx|].
  destruct (Z.eq_dec M 0) as [-> | Hne].
  - exists emin, 0. split; [|split].
    + left. split; [reflexivity|]. rewrite Ex.
      pose proof (Qpow_pos (emin + prec)). change (inject_Z 0) with 0%Q. lra.
    + apply (nearest_even_eq (inject_Z 0)); [|apply nearest_even_int].
      rewrite Ex. change (inject_Z 0) with 0%Q. field.
      pose proof (Qpow_pos emin). lra.
    + rewrite Ex. change (inject_Z 0) with 0%Q. ring.
  - destruct (Zdigits2_bounds M ltac:(lia)) as [Hlo Hhi].
    pose proof (Zdigits2_le M prec ltac:(lia) ltac:(lia) HM) as Hd.
    assert (Hd1 : 1 <= Zdigits2 M).
    { pose proof (Zdigits2_gt M 0 ltac:(lia) ltac:(change (2 ^ 0) with 1; lia)).
      lia. }
    set (d := Zdigits2 M) in *.
    set (c := Z.max (d + c0 - prec) emin).
    assert (Hcc : c <= c0) by (unfold c; lia).
    rewrite Zle_Qle in Hlo. rewrite Zlt_Qlt in Hhi.
    rewrite Qpow_inject in Hlo, Hhi by lia.
    assert (Hxlo : (2 ^ (d + c0 - 1) <= x)%Q).
    { replace (d + c0 - 1) with (d - 1 + c0) by lia.
      rewrite Qpow_add, Ex. nra. }
    assert (Hxhi : (x < 2 ^ (d + c0))%Q).
    { rewrite Qpow_add, Ex. nra. }
    exists c, (M * 2 ^ (c0 - c)). split; [|split].
    + destruct (Z_le_gt_dec (d + c0 - prec) emin) as [Hs | Hn].
      * left. split; [unfold c; lia|].
        assert ((2 ^ (d + c0) <= 2 ^ (c + prec))%Q) by (apply Qpow_le; unfold c; lia).
        lra.
      * right. split; [unfold c; lia|].
        replace (c + prec) with (d + c0) by (unfold c; lia). split; assumption.
    + apply (nearest_even_eq (inject_Z (M * 2 ^ (c0 - c))));
        [|apply nearest_even_int].
      rewrite inject_Z_mult, Qpow_inject by lia.
      rewrite Ex, Qpow_sub. field. pose proof (Qpow_pos c). lra.
    + rewrite inject_Z_mult, Qpow_inject by lia.
      rewrite Ex, Qpow_sub. field. pose proof (Qpow_pos c). lra.
Qed.

Lemma rounded_held_eq x r :
  held prec emax x -> rounded prec emax x r -> (r == x)%Q.
Proof.
  intros Hh Hr. apply (rounded_unique x); [exact Hr | apply held_rounded; exact Hh].
Qed.

(** The result of a rounding is a number of the format. *)
Lemma rounded_held x r : rounded prec emax x r -> held prec emax r.
Proof.
  intros (Hx & c & M & Hc & HM & Er).
  pose proof (Qpow_pos c) as HP.
  pose proof (Qdiv_pow x c) as Ey.
  pose proof (canonical_exponent_upper _ _ Hc) as Hup.
  pose proof (canonical_exponent_emin _ _ Hc) as Hmin.
  assert (H0 : 0 <= M).
  { apply (nearest_even_ge _ _ 0 HM). change (inject_Z 0) with 0%Q.
    apply Qle_shift_div_l; [exact HP | lra]. }
  assert (H1 : M <= 2 ^ prec).
  { apply (nearest_even_le _ _ _ HM).
    apply Qmult_le_r with (z := (2 ^ c)%Q); [exact HP|].
    rewrite Ey, Qpow_inject, <- Qpow_add by lia.
    replace (prec + c) with (c + prec) by lia. lra. }
  destruct (Z.eq_dec M (2 ^ prec)) as [E | Hne].
  - exists (2 ^ (prec - 1)), (c + 1). split; [|split].
    + assert (0 < 2 ^ (prec - 1)) by (apply Z.pow_pos_nonneg; lia).
      assert (2 ^ (prec - 1) < 2 ^ prec) by (apply Z.pow_lt_mono_r; lia).
      lia.
    + lia.
    + rewrite Er, E, !Qpow_inject by lia.
      rewrite <- !Qpow_add. replace (prec - 1 + (c + 1)) with (prec + c) by lia.
      reflexivity.
  - exists M, c. split; [lia|]. split; [exact Hmin | exact Er].
Qed.

(** ** Numbers of any sign *)

Lemma rounds_error x r p :
  rounds prec emax x r -> (Qabs x < 2 ^ p)%Q ->
  (Qabs (r - x) <= 2 ^ (Z.max (p - prec) emin - 1))%Q.
Proof.
  intros [H | H] Hp.
  - apply rounded_error; [exact H|].
    destruct H as [Hx _]. rewrite Qabs_pos in Hp by exact Hx. exact Hp.
  - assert (E : (r - x == - (- r - - x))%Q) by ring.
    rewrite E, Qabs_opp. apply rounded_error; [exact H|].
    destruct H as [Hx _]. rewrite <- Qabs_opp, Qabs_pos in Hp by exact Hx.
    exact Hp.
Qed.

Lemma rounded_zero : rounded prec emax 0 0.
Proof.
  apply held_rounded. exists 0, emin. split; [|split].
  - split; [lia | apply Z.pow_pos_nonneg; lia].
  - lia.
  - change (inject_Z 0) with 0%Q. ring.
Qed.

Lemma rounds_mono x r x' r' :
  rounds prec emax x r -> rounds prec emax x' r' ->
  (x <= x')%Q -> (r <= r')%Q.
Proof.
  intros [H | H] [H' | H'] Hle.
  - apply (rounded_mono x r x' r'); assumption.
  - assert (Hx : (0 <= x)%Q) by apply H.
    assert (Hx' : (0 <= - x')%Q) by apply H'.
    assert (E : (r == 0)%Q).
    { apply (rounded_unique 0); [|exact rounded_zero].
      apply (rounded_eq x 0 r r); [lra | reflexivity | exact H]. }
    assert (E' : (- r' == 0)%Q).
    { apply (rounded_unique 0); [|exact rounded_zero].
      apply (rounded_eq (- x') 0 (- r') (- r')); [lra | reflexivity | exact H']. }
    lra.
  - pose proof (rounded_nonneg _ _ H). pose proof (rounded_nonneg _ _ H'). lra.
  - assert ((- r' <= - r)%Q); [|lra].
    apply (rounded_mono (- x') (- r') (- x) (- r)); [assumption | assumption | lra].
Qed.

Lemma rounds_held_eq x r :
  held prec emax (Qabs x) -> rounds prec emax x r -> (r == x)%Q.
Proof.
  intros Hh [H | H].
  - assert (Hx : (0 <= x)%Q) by apply H.
    apply rounded_held_eq; [|exact H].
    destruct Hh as (M & c & HM & Hc & E). exists M, c.
    rewrite Qabs_pos in E by exact Hx. auto.
  - assert (Hx : (0 <= - x)%Q) by apply H.
    assert ((- r == - x)%Q); [|lra].
    apply rounded_held_eq; [|exact H].
    destruct Hh as (M & c & HM & Hc & E). exists M, c.
    rewrite <- Qabs_opp, Qabs_pos in E by exact Hx. auto.
Qed.

End Values.

(** ** The procedure rounds to nearest *)

Lemma inject_Z_pos n : 0 < n -> (0 < inject_Z n)%Q.
Proof. intros H. change 0%Q with (inject_Z 0). rewrite <- Zlt_Qlt. exact H. Qed.

(** The quotient of two integers lies between its integer part and the
    next integer. *)
Lemma Qdiv_floor A D :
  0 < D ->
  (inject_Z (A / D) <= inject_Z A / inject_Z D < inject_Z (A / D) + 1)%Q.
Proof.
  intros HD. pose proof (inject_Z_pos D HD) as Hd.
  pose proof (Z.mul_div_le A D HD) as H1.
  pose proof (Z.mul_succ_div_gt A D HD) as H2.
  rewrite Zle_Qle, inject_Z_mult in H1.
  rewrite Zlt_Qlt, inject_Z_mult in H2. unfold Z.succ in H2.
  rewrite inject_Z_plus in H2. change (inject_Z 1) with 1%Q in H2.
  split.
  - apply Qle_shift_div_l; [exact Hd | lra].
  - apply Qlt_shift_div_r; [exact Hd | lra].
Qed.

Section Link.

Variables prec emax : Z.
Hypothesis prec_pos : 0 < prec.
Hypothesis emax_large : 2 * prec <= emax.

Abbreviation emin := (SpecFloat.emin prec emax).
Abbreviation fexp := (SpecFloat.fexp prec emax).

(** The rounding procedure rounds to nearest: on a located quotient
    below [2^emax] it returns a number, the rounding of the quotient. *)
Lemma binary_round_aux_rounded sx A D e p :
  0 <= A -> 0 < D -> e <= fexp (Zdigits2 (A / D) + e) ->
  (inject_Z A / inject_Z D * 2 ^ e < 2 ^ p)%Q -> p < emax ->
  let r := binary_round_aux prec emax sx (A / D) e (locate A D) in
  Fmt.is_finite r = true
  /\ exists R, rounded prec emax (inject_Z A / inject_Z D * 2 ^ e) R
               /\ (SF2Q r == if sx then - R else R)%Q.
Proof.
  intros HA HD He Hp Hpe.
  destruct (binary_round_aux_spec prec emax prec_pos sx A D e HA HD He)
    as [HM Hr].
  set (c := fexp (Zdigits2 (A / D) + e)) in *.
  set (M := rne A (D * 2 ^ (c - e))) in *.
  cbv zeta. rewrite Hr. clear Hr.
  pose proof (inject_Z_pos D HD) as Hd.
  pose proof (inject_Z_nonneg A HA) as Ha.
  pose proof (Qpow_pos e) as HPe. pose proof (Qpow_pos c) as HPc.
  destruct (Qdiv_floor A D HD) as [Hfl Hfu].
  set (y := (inject_Z A / inject_Z D)%Q) in *.
  assert (Hy : (0 <= y)%Q).
  { unfold y. apply Qle_shift_div_l; [exact Hd | lra]. }
  set (X := (y * 2 ^ e)%Q) in *.
  assert (HX : (0 <= X)%Q) by (unfold X; nra).
  assert (Hk : 0 <= c - e) by lia.
  assert (Hcmin : emin <= c) by (unfold c, SpecFloat.fexp; lia).
  (* the canonical exponent *)
  assert (Hcan : canonical_exponent prec emax X c).
  { destruct (Z.eq_dec (A / D) 0) as [E0 | E0].
    - left. unfold c in He |- *. rewrite E0 in He |- *. cbn [Zdigits2] in *.
      unfold SpecFloat.fexp in *. split; [lia|].
      rewrite E0 in Hfu. change (inject_Z 0) with 0%Q in Hfu.
      assert ((2 ^ e <= 2 ^ (Z.max (0 + e - prec) emin + prec))%Q)
        by (apply Qpow_le; lia).
      unfold X. nra.
    - assert (Hq : 0 < A / D).
      { pose proof (Z.div_pos A D HA HD). lia. }
      destruct (Zdigits2_bounds (A / D) Hq) as [Hlo Hhi].
      pose proof (Zdigits2_gt (A / D) 0 ltac:(lia)
                    ltac:(change (2 ^ 0) with 1; lia)) as Hd1.
      set (d := Zdigits2 (A / D)) in *.
      assert (Hhi' : A / D + 1 <= 2 ^ d) by lia.
      rewrite Zle_Qle in Hlo, Hhi'.
      rewrite inject_Z_plus in Hhi'. change (inject_Z 1) with 1%Q in Hhi'.
      rewrite Qpow_inject in Hlo, Hhi' by lia.
      assert (Hxlo : (2 ^ (d + e - 1) <= X)%Q).
      { replace (d + e - 1) with (d - 1 + e) by lia.
        rewrite Qpow_add. unfold X. nra. }
      assert (Hxhi : (X < 2 ^ (d + e))%Q).
      { rewrite Qpow_add. unfold X. nra. }
      destruct (Z_le_gt_dec (d + e - prec) emin) as [Hs | Hn].
      + left. split; [unfold c, SpecFloat.fexp; lia|].
        assert ((2 ^ (d + e) <= 2 ^ (c + prec))%Q)
          by (apply Qpow_le; unfold c, SpecFloat.fexp; lia).
        lra.
      + right. split; [unfold c, SpecFloat.fexp; lia|].
        replace (c + prec) with (d + e) by (unfold c, SpecFloat.fexp; lia).
        split; assumption. }
  (* the nearest integer *)
  assert (Hpk : 0 < 2 ^ (c - e)) by (apply Z.pow_pos_nonneg; lia).
  assert (Hne : nearest_even (X / 2 ^ c) M).
  { apply (nearest_even_eq (inject_Z A / inject_Z (D * 2 ^ (c - e))));
      [|apply rne_nearest_even; [exact HA | nia]].
    rewrite inject_Z_mult, Qpow_inject, Qpow_sub by lia.
    unfold X, y. field. split; [|split]; intros E; lra. }
  assert (HR : rounded prec emax X (inject_Z M * 2 ^ c)).
  { split; [exact HX|]. exists c, M.
    split; [exact Hcan|]. split; [exact Hne | reflexivity]. }
  (* the exponent of the result is in range *)
  pose proof (canonical_exponent_le prec emax X c p Hcan Hp) as Hcp.
  assert (Hfin : M < 2 ^ prec -> c <= emax - prec).
  { intros _. unfold SpecFloat.emin in *. lia. }
  assert (Hfin' : c + 1 <= emax - prec).
  { unfold SpecFloat.emin in *. lia. }
  destruct (Z.eqb_spec M 0) as [E0 | E0].
  - split; [reflexivity|]. exists (inject_Z M * 2 ^ c)%Q.
    split; [exact HR|]. rewrite E0. cbn [SF2Q]. change (inject_Z 0) with 0%Q.
    destruct sx; ring.
  - destruct (Z.ltb_spec M (2 ^ prec)) as [Hlt | Hge].
    + apply Hfin in Hlt as Hc2. apply Z.leb_le in Hc2. rewrite Hc2.
      split; [reflexivity|]. exists (inject_Z M * 2 ^ c)%Q.
      split; [exact HR|]. rewrite SF2Q_finite, Z2Pos.id by lia.
      destruct sx; cbn [cond_Zopp]; [rewrite inject_Z_opp; ring | reflexivity].
    + apply Z.leb_le in Hfin' as Hc2. rewrite Hc2.
      split; [reflexivity|]. exists (inject_Z M * 2 ^ c)%Q.
      split; [exact HR|].
      assert (0 < 2 ^ (prec - 1)) by (apply Z.pow_pos_nonneg; lia).
      rewrite SF2Q_finite, Z2Pos.id by lia.
      assert (EM : M = 2 ^ prec) by lia.
      assert (EQ : (inject_Z (2 ^ (prec - 1)) * 2 ^ (c + 1)
                    == inject_Z M * 2 ^ c)%Q).
      { rewrite EM, !Qpow_inject by lia. rewrite <- !Qpow_add.
        replace (prec - 1 + (c + 1)) with (prec + c) by lia. reflexivity. }
      destruct sx; cbn [cond_Zopp]; [rewrite inject_Z_opp|]; lra.
Qed.

End Link.

(** ** The operations round to nearest *)

Lemma Zdigits2_shift m k :
  0 < m -> 0 <= k -> Zdigits2 (m * 2 ^ k) = Zdigits2 m + k.
Proof.
  intros Hm Hk.
  assert (0 < 2 ^ k) by (apply Z.pow_pos_nonneg; lia).
  rewrite !Rounding.Zdigits2_log2 by nia.
  rewrite Z.log2_mul_pow2 by lia. lia.
Qed.

Lemma locate_exact A : locate A 1 = loc_Exact.
Proof. unfold locate. rewrite Z.mod_1_r. reflexivity. Qed.

(** The place that the division computes for its remainder. *)
Lemma new_location_locate A D :
  0 <= A -> 0 < D -> new_location D (A mod D) = locate A D.
Proof.
  intros HA HD. unfold new_location, locate.
  pose proof (Z.mod_pos_bound A D HD) as Hr.
  destruct (Z.even D) eqn:Ev.
  - reflexivity.
  - unfold new_location_odd.
    destruct (A mod D =? 0) eqn:E0; [reflexivity|].
    f_equal.
    assert (Ho : Z.odd D = true) by (rewrite <- Z.negb_even, Ev; reflexivity).
    apply Z.odd_spec in Ho. destruct Ho as [h Hh].
    destruct (Z.compare_spec (2 * (A mod D) + 1) D) as [E | E | E];
      symmetry; [apply Z.compare_lt_iff | apply Z.compare_lt_iff
                | apply Z.compare_gt_iff]; lia.
Qed.

Section Operations.

Variables prec emax : Z.
Hypothesis prec_pos : 0 < prec.
Hypothesis emax_large : 2 * prec <= emax.

Abbreviation emin := (SpecFloat.emin prec emax).
Abbreviation fexp := (SpecFloat.fexp prec emax).

Lemma rounding_of_signed (sx : bool) (X x : Q) (r : spec_float) :
  Fmt.is_finite r = true ->
  (exists R, rounded prec emax X R /\ (SF2Q r == if sx then - R else R)%Q) ->
  (x == if sx then - X else X)%Q ->
  rounding_of prec emax x r.
Proof.
  intros Hf (R & HR & Er) Ex. split; [exact Hf|].
  destruct sx.
  - right. apply (rounded_eq prec emax X (- x) R (- SF2Q r)); [lra | lra | exact HR].
  - left. apply (rounded_eq prec emax X x R (SF2Q r)); [lra | lra | exact HR].
Qed.

Lemma rounding_of_zero (x : Q) (s : bool) :
  (x == 0)%Q -> rounding_of prec emax x (S754_zero s).
Proof.
  intros Ex. split; [reflexivity|]. left. cbn [SF2Q].
  apply (rounded_eq prec emax 0 x 0 0); [lra | reflexivity|].
  apply rounded_zero. exact prec_pos.
Qed.

(** ** Conversions *)

(** A conversion returns the rounding of the number it is given, when
    that number is below [2^emax]. *)
Lemma binary_round_rounding sx m e p :
  (inject_Z (Zpos m) * 2 ^ e < 2 ^ p)%Q -> p < emax ->
  rounding_of prec emax (inject_Z (cond_Zopp sx (Zpos m)) * 2 ^ e)
    (binary_round prec emax sx m e).
Proof.
  intros Hp Hpe. unfold binary_round.
  assert (H : exists mz ez,
             shl_align m e (fexp (Zpos (digits2_pos m) + e)) = (mz, ez)
             /\ ez <= fexp (Zdigits2 (Zpos mz) + ez)
             /\ (inject_Z (Zpos mz) * 2 ^ ez == inject_Z (Zpos m) * 2 ^ e)%Q).
  { destruct (Rounding.shl_align_spec m e (fexp (Zpos (digits2_pos m) + e)))
      as [(Hlt & He & Hm) | (Hle & E)].
    - destruct (shl_align m e _) as [mz ez]. cbn [fst snd] in He, Hm. subst ez.
      exists mz, (fexp (Zpos (digits2_pos m) + e)). split; [reflexivity|].
      set (e' := fexp (Zpos (digits2_pos m) + e)) in *.
      split.
      + rewrite Hm, Zdigits2_shift by lia. cbn [Zdigits2].
        replace (Zpos (digits2_pos m) + (e - e') + e')
          with (Zpos (digits2_pos m) + e) by lia.
        fold e'. lia.
      + rewrite Hm, inject_Z_mult, Qpow_inject by lia.
        rewrite Qpow_sub. field. pose proof (Qpow_pos e'). lra.
    - exists m, e. split; [exact E|]. split; [exact Hle | reflexivity]. }
  destruct H as (mz & ez & -> & He & Ev).
  pose proof (binary_round_aux_rounded prec emax prec_pos emax_large sx
                (Zpos mz) 1 ez p ltac:(lia) ltac:(lia)) as H.
  rewrite Z.div_1_r, locate_exact in H.
  assert (E1 : (inject_Z (Zpos mz) / inject_Z 1 * 2 ^ ez
                == inject_Z (Zpos m) * 2 ^ e)%Q).
  { rewrite <- Ev. change (inject_Z 1) with 1%Q. field. }
  destruct (H He ltac:(rewrite E1; exact Hp) Hpe) as [Hf (R & HR & Er)].
  apply (rounding_of_signed sx (inject_Z (Zpos m) * 2 ^ e)); [exact Hf | |].
  - exists R. split; [|exact Er].
    apply (rounded_eq prec emax _ _ R R E1); [reflexivity | exact HR].
  - destruct sx; cbn [cond_Zopp]; [rewrite inject_Z_opp; ring | reflexivity].
Qed.

Lemma binary_normalize_rounding m e s p :
  (Qabs (inject_Z m * 2 ^ e) < 2 ^ p)%Q -> p < emax ->
  rounding_of prec emax (inject_Z m * 2 ^ e)
    (binary_normalize prec emax m e s).
Proof.
  intros Hp Hpe. pose proof (Qpow_pos e) as HP.
  destruct m as [|m|m]; cbn [binary_normalize].
  - apply rounding_of_zero. change (inject_Z 0) with 0%Q. ring.
  - apply (binary_round_rounding false m e p); [|exact Hpe].
    rewrite Qabs_pos in Hp; [exact Hp|].
    pose proof (inject_Z_pos (Zpos m) ltac:(lia)). nra.
  - apply (binary_round_rounding true m e p); [|exact Hpe].
    rewrite <- Qabs_opp, Qabs_pos in Hp.
    + change (Z.neg m) with (- Zpos m) in Hp. rewrite inject_Z_opp in Hp.
      assert (E : (- (- inject_Z (Zpos m) * 2 ^ e) == inject_Z (Zpos m) * 2 ^ e)%Q)
        by ring.
      rewrite E in Hp. exact Hp.
    + change (Z.neg m) with (- Zpos m). rewrite inject_Z_opp.
      pose proof (inject_Z_pos (Zpos m) ltac:(lia)). nra.
Qed.

Lemma SF2Q_abs s m e :
  (Qabs (SF2Q (S754_finite s m e)) == inject_Z (Zpos m) * 2 ^ e)%Q.
Proof.
  rewrite SF2Q_finite. pose proof (Qpow_pos e) as HP.
  pose proof (inject_Z_pos (Zpos m) ltac:(lia)) as Hm.
  destruct s; cbn [cond_Zopp].
  - change (Z.neg m) with (- Zpos m). rewrite inject_Z_opp.
    rewrite <- Qabs_opp, Qabs_pos; [ring | nra].
  - rewrite Qabs_pos; [reflexivity | nra].
Qed.

Lemma round_rounding x p :
  Fmt.is_finite x = true -> (Qabs (SF2Q x) < 2 ^ p)%Q -> p < emax ->
  rounding_of prec emax (SF2Q x)
    (Fmt.round {| Fmt.prec := prec; Fmt.emax := emax |} x).
Proof.
  intros Hf Hp Hpe. destruct x as [s|s| |s m e]; try discriminate Hf.
  - apply rounding_of_zero. reflexivity.
  - cbn [Fmt.round Fmt.prec Fmt.emax].
    destruct (binary_round_rounding s m e p) as [Hfr Hr];
      [rewrite <- SF2Q_abs with (s := s); exact Hp | exact Hpe |].
    split; [exact Hfr|].
    destruct Hr as [Hr | Hr]; [left | right];
      (eapply rounded_eq; [| reflexivity | exact Hr]);
      rewrite SF2Q_finite; reflexivity.
Qed.

Lemma of_Z_rounding n p :
  (Qabs (inject_Z n) < 2 ^ p)%Q -> p < emax ->
  rounding_of prec emax (inject_Z n)
    (Fmt.of_Z {| Fmt.prec := prec; Fmt.emax := emax |} n).
Proof.
  intros Hp Hpe. unfold Fmt.of_Z. cbn [Fmt.prec Fmt.emax].
  assert (E : (inject_Z n * 2 ^ 0 == inject_Z n)%Q)
    by (change (2 ^ 0)%Q with 1%Q; ring).
  destruct (binary_normalize_rounding n 0 false p) as [Hf Hr];
    [rewrite E; exact Hp | exact Hpe |].
  split; [exact Hf|].
  destruct Hr as [Hr | Hr]; [left | right];
    (eapply rounded_eq; [| reflexivity | exact Hr]); rewrite E; reflexivity.
Qed.

(** ** Multiplication *)

(** The product of two numbers, one of which has a full mantissa, is the
    rounding of the exact product. *)
Lemma SFmul_rounding x y p :
  Fmt.is_finite x = true -> Fmt.is_finite y = true ->
  full_mantissa prec x = true \/ full_mantissa prec y = true ->
  (Qabs (SF2Q x * SF2Q y) < 2 ^ p)%Q -> p < emax ->
  rounding_of prec emax (SF2Q x * SF2Q y) (SFmul prec emax x y).
Proof.
  intros Hfx Hfy Hfull Hp Hpe.
  destruct x as [sx|sx| |sx mx ex]; try discriminate Hfx;
    destruct y as [sy|sy| |sy my ey]; try discriminate Hfy;
    cbn [SFmul]; try (apply rounding_of_zero; cbn [SF2Q]; ring).
  pose proof (binary_round_aux_rounded prec emax prec_pos emax_large
                (xorb sx sy) (Zpos (mx * my)) 1 (ex + ey) p
                ltac:(lia) ltac:(lia)) as H.
  rewrite Z.div_1_r, locate_exact in H.
  assert (Hprec : ex + ey <= fexp (Zdigits2 (Zpos (mx * my)) + (ex + ey))).
  { assert (Hd : prec <= Zdigits2 (Zpos (mx * my))).
    { cbn [full_mantissa] in Hfull.
      destruct Hfull as [Hd | Hd]; apply Z.leb_le in Hd;
        (eapply Z.le_trans; [exact Hd|]);
        [change (Zpos (digits2_pos mx)) with (Zdigits2 (Zpos mx))
        |change (Zpos (digits2_pos my)) with (Zdigits2 (Zpos my))];
        apply Rounding.Zdigits2_mono; nia. }
    unfold SpecFloat.fexp. lia. }
  assert (E1 : (inject_Z (Zpos (mx * my)) / inject_Z 1 * 2 ^ (ex + ey)
                == (inject_Z (Zpos mx) * 2 ^ ex) * (inject_Z (Zpos my) * 2 ^ ey))%Q).
  { rewrite Pos2Z.inj_mul, inject_Z_mult, Qpow_add.
    change (inject_Z 1) with 1%Q. field. }
  assert (Hb : (inject_Z (Zpos (mx * my)) / inject_Z 1 * 2 ^ (ex + ey) < 2 ^ p)%Q).
  { rewrite E1, <- (SF2Q_abs sx), <- (SF2Q_abs sy), <- Qabs_Qmult. exact Hp. }
  destruct (H Hprec Hb Hpe) as [Hf HR].
  apply (rounding_of_signed (xorb sx sy) _ _ _ Hf HR).
  rewrite !SF2Q_finite.
  destruct sx, sy; cbn [xorb cond_Zopp]; rewrite E1;
    change (Z.neg mx) with (- Zpos mx); change (Z.neg my) with (- Zpos my);
    rewrite ?inject_Z_opp; ring.
Qed.

(** ** Addition *)

Lemma shl_align_fst m e e' :
  e' <= e -> Zpos (fst (shl_align m e e')) = Zpos m * 2 ^ (e - e').
Proof.
  intros Hle.
  destruct (Rounding.shl_align_spec m e e') as [(_ & _ & H) | (Hge & E)].
  - exact H.
  - rewrite E. cbn [fst]. replace (e - e') with 0 by lia. lia.
Qed.

(** The sum of two finite numbers is the rounding of the exact sum. *)
Lemma SFadd_rounding sx mx ex sy my ey p :
  let x := S754_finite sx mx ex in
  let y := S754_finite sy my ey in
  (Qabs (SF2Q x + SF2Q y) < 2 ^ p)%Q -> p < emax ->
  rounding_of prec emax (SF2Q x + SF2Q y) (SFadd prec emax x y).
Proof.
  intros x y Hp Hpe. unfold x, y in *. cbn [SFadd].
  set (ez := Z.min ex ey).
  rewrite !shl_align_fst by (unfold ez; lia).
  set (S := cond_Zopp sx (Zpos mx * 2 ^ (ex - ez))
            + cond_Zopp sy (Zpos my * 2 ^ (ey - ez))).
  assert (E : (inject_Z S * 2 ^ ez
               == SF2Q (S754_finite sx mx ex) + SF2Q (S754_finite sy my ey))%Q).
  { rewrite !SF2Q_finite. unfold S.
    assert (Ha : forall s m e, ez <= e ->
              (inject_Z (cond_Zopp s (Zpos m * 2 ^ (e - ez))) * 2 ^ ez
               == inject_Z (cond_Zopp s (Zpos m)) * 2 ^ e)%Q).
    { intros s m e Hle. pose proof (Qpow_pos ez).
      destruct s; cbn [cond_Zopp];
        rewrite ?inject_Z_opp, inject_Z_mult, Qpow_inject, Qpow_sub by lia;
        change (Z.neg m) with (- Zpos m); rewrite ?inject_Z_opp; field; lra. }
    rewrite inject_Z_plus, Qmult_plus_distr_l.
    rewrite (Ha sx mx ex), (Ha sy my ey) by (unfold ez; lia). reflexivity. }
  destruct (binary_normalize_rounding S ez false p) as [Hf Hr];
    [rewrite E; exact Hp | exact Hpe |].
  split; [exact Hf|].
  destruct Hr as [Hr | Hr]; [left | right];
    (eapply rounded_eq; [| reflexivity | exact Hr]); rewrite E; reflexivity.
Qed.

(** ** Division *)

(** The quotient of two finite numbers is the rounding of the exact
    quotient. *)
Lemma SFdiv_rounding sx mx ex sy my ey p :
  let x := S754_finite sx mx ex in
  let y := S754_finite sy my ey in
  (Qabs (SF2Q x / SF2Q y) < 2 ^ p)%Q -> p < emax ->
  rounding_of prec emax (SF2Q x / SF2Q y) (SFdiv prec emax x y).
Proof.
  intros x y Hp Hpe. unfold x, y in *. cbn [SFdiv].
  unfold SFdiv_core_binary.
  set (d1 := Zdigits2 (Zpos mx)). set (d2 := Zdigits2 (Zpos my)).
  set (e' := Z.min (fexp (d1 + ex - (d2 + ey))) (ex - ey)).
  set (s := ex - ey - e').
  assert (Hs : 0 <= s) by (unfold s, e'; lia).
  set (m' := match s with Zpos _ => Z.shiftl (Zpos mx) s | 0 => Zpos mx
                        | Z.neg _ => 0 end).
  assert (Hm' : m' = Zpos mx * 2 ^ s).
  { unfold m'. destruct s as [|k|k]; try lia.
    rewrite Z.shiftl_mul_pow2 by lia. reflexivity. }
  assert (Hps : 0 < 2 ^ s) by (apply Z.pow_pos_nonneg; lia).
  assert (HA : 0 <= m') by nia.
  assert (Hqr : Z.div_eucl m' (Zpos my) = (m' / Zpos my, m' mod Zpos my)).
  { unfold Z.div, Z.modulo. destruct (Z.div_eucl m' (Zpos my)). reflexivity. }
  rewrite Hqr. rewrite new_location_locate by lia.
  pose proof (binary_round_aux_rounded prec emax prec_pos emax_large
                (xorb sx sy) m' (Zpos my) e' p HA ltac:(lia)) as H.
  assert (Hprec : e' <= fexp (Zdigits2 (m' / Zpos my) + e')).
  { destruct (Z_le_gt_dec e' emin) as [Hle | Hgt];
      [unfold SpecFloat.fexp; lia|].
    assert (Hg : e' <= d1 + ex - (d2 + ey) - prec).
    { unfold e', SpecFloat.fexp in *. lia. }
    assert (Hq : 2 ^ (prec - 1) <= m' / Zpos my).
    { apply Z.div_le_lower_bound; [lia|].
      destruct (Zdigits2_bounds (Zpos mx) ltac:(lia)) as [Hlo1 _].
      destruct (Zdigits2_bounds (Zpos my) ltac:(lia)) as [_ Hhi2].
      fold d1 in Hlo1. fold d2 in Hhi2.
      assert (Hd1 : 1 <= d1) by (unfold d1; cbn; lia).
      assert (Hd2 : 1 <= d2) by (unfold d2; cbn; lia).
      assert (Hpw : 2 ^ (prec - 1) * 2 ^ d2 <= 2 ^ (d1 - 1) * 2 ^ s).
      { rewrite <- !Z.pow_add_r by lia. apply Z.pow_le_mono_r; [lia|].
        unfold s. lia. }
      assert (0 < 2 ^ (prec - 1)) by (apply Z.pow_pos_nonneg; lia).
      rewrite Hm'. nia. }
    pose proof (Zdigits2_gt (m' / Zpos my) (prec - 1) ltac:(lia) Hq).
    unfold SpecFloat.fexp. lia. }
  pose proof (inject_Z_pos (Zpos mx) ltac:(lia)) as Hmx.
  pose proof (inject_Z_pos (Zpos my) ltac:(lia)) as Hmy.
  pose proof (Qpow_pos ex) as HPx. pose proof (Qpow_pos ey) as HPy.
  pose proof (Qpow_pos e') as HPe.
  assert (E1 : (inject_Z m' / inject_Z (Zpos my) * 2 ^ e'
                == (inject_Z (Zpos mx) * 2 ^ ex) / (inject_Z (Zpos my) * 2 ^ ey))%Q).
  { rewrite Hm', inject_Z_mult, Qpow_inject by lia.
    unfold s. rewrite !Qpow_sub. field. repeat split; lra. }
  assert (Hb : (inject_Z m' / inject_Z (Zpos my) * 2 ^ e' < 2 ^ p)%Q).
  { rewrite E1, <- (SF2Q_abs sx), <- (SF2Q_abs sy).
    unfold Qdiv. rewrite <- Qabs_Qinv, <- Qabs_Qmult. exact Hp. }
  destruct (H Hprec Hb Hpe) as [Hf HR].
  apply (rounding_of_signed (xorb sx sy) _ _ _ Hf HR).
  rewrite !SF2Q_finite.
  destruct sx, sy; cbn [xorb cond_Zopp]; rewrite E1;
    change (Z.neg mx) with (- Zpos mx); change (Z.neg my) with (- Zpos my);
    rewrite ?inject_Z_opp; field; nra.
Qed.

End Operations.

(** ** What follows for a result *)

Section Consequences.

Variables prec emax : Z.
Hypothesis prec_pos : 0 < prec.

Abbreviation emin := (SpecFloat.emin prec emax).

Lemma rounding_error x r p :
  rounding_of prec emax x r -> (Qabs x < 2 ^ p)%Q ->
  (Qabs (SF2Q r - x) <= 2 ^ (Z.max (p - prec) emin - 1))%Q.
Proof. intros [_ H]. apply rounds_error; assumption. Qed.

Lemma rounding_mono x r x' r' :
  rounding_of prec emax x r -> rounding_of prec emax x' r' ->
  (x <= x')%Q -> (SF2Q r <= SF2Q r')%Q.
Proof. intros [_ H] [_ H']. apply (rounds_mono prec emax prec_pos x _ x'); assumption. Qed.

Lemma rounding_exact x r :
  rounding_of prec emax x r -> held prec emax (Qabs x) -> (SF2Q r == x)%Q.
Proof. intros [_ H] Hh. apply (rounds_held_eq prec emax prec_pos); assumption. Qed.

Lemma held_eq x y : (x == y)%Q -> held prec emax x -> held prec emax y.
Proof.
  intros E (M & c & HM & Hc & Ex). exists M, c. repeat split; try tauto.
  rewrite <- E. exact Ex.
Qed.

Lemma rounding_held x r :
  rounding_of prec emax x r -> held prec emax (Qabs (SF2Q r)).
Proof.
  intros [_ [H | H]].
  - pose proof (rounded_nonneg prec emax _ _ H) as Hr.
    apply (held_eq (SF2Q r)); [rewrite Qabs_pos by exact Hr; reflexivity|].
    apply (rounded_held prec emax prec_pos _ _ H).
  - pose proof (rounded_nonneg prec emax _ _ H) as Hr.
    apply (held_eq (- SF2Q r)).
    + rewrite <- Qabs_opp, Qabs_pos by exact Hr. reflexivity.
    + apply (rounded_held prec emax prec_pos _ _ H).
Qed.

Lemma rounding_of_eq x y r :
  (x == y)%Q -> rounding_of prec emax x r -> rounding_of prec emax y r.
Proof.
  intros E [Hf [H | H]]; (split; [exact Hf|]); [left | right];
    (eapply rounded_eq; [| reflexivity | exact H]); lra.
Qed.

(** Rounding keeps a number on its side of a number of the format. *)
Lemma rounding_le x r b :
  rounding_of prec emax x r -> held prec emax b -> (x <= b)%Q ->
  (SF2Q r <= b)%Q.
Proof.
  intros [_ H] Hb Hle.
  apply (rounds_mono prec emax prec_pos x (SF2Q r) b b); [exact H | | exact Hle].
  left. apply held_rounded; assumption.
Qed.

Lemma rounding_ge x r b :
  rounding_of prec emax x r -> held prec emax b -> (b <= x)%Q ->
  (b <= SF2Q r)%Q.
Proof.
  intros [_ H] Hb Hle.
  apply (rounds_mono prec emax prec_pos b b x (SF2Q r)); [| exact H | exact Hle].
  left. apply held_rounded; assumption.
Qed.

(** The relative error of the rounding of a number that is not
    subnormal. *)
Lemma rounding_relative x r :
  rounding_of prec emax x r -> (2 ^ (emin + prec) <= x)%Q ->
  (Qabs (SF2Q r - x) <= x * 2 ^ (- prec))%Q.
Proof.
  intros [_ [H | H]] Hx.
  - destruct H as (H0 & c & M & Hc & HM & Er).
    destruct Hc as [[-> Hlt] | [Hgt [Hlo Hhi]]]; [lra|].
    pose proof (Qpow_pos c) as HP.
    pose proof (Qdiv_pow x c) as Ey.
    apply nearest_even_bounds in HM.
    set (y := (x / 2 ^ c)%Q) in *.
    assert (E : (2 ^ c == 2 * (2 ^ (c + prec - 1) * 2 ^ (- prec)))%Q).
    { rewrite <- Qpow_add, <- Qpow_succ.
      replace (c + prec - 1 + - prec + 1) with c by lia. reflexivity. }
    pose proof (Qpow_pos (- prec)) as HQ.
    apply Qabs_Qle_condition. rewrite Er. split; nra.
  - destruct H as (H0 & _). pose proof (Qpow_pos (emin + prec)). lra.
Qed.

End Consequences.

End Nearest.

Import Nearest.

(** * The arithmetic of the generator, on values

    What the conversions, the quotient and the products of
    [generateSample] return, as rational numbers. *)

Lemma f32_rounding_error x r p :
  rounding_of 24 128 x r -> (Qabs x < 2 ^ p)%Q ->
  (Qabs (SF2Q r - x) <= 2 ^ (Z.max (p - 24) (-149) - 1))%Q.
Proof. apply (rounding_error 24 128). Qed.

Lemma f64_rounding_error x r p :
  rounding_of 53 1024 x r -> (Qabs x < 2 ^ p)%Q ->
  (Qabs (SF2Q r - x) <= 2 ^ (Z.max (p - 53) (-1074) - 1))%Q.
Proof. apply (rounding_error 53 1024). Qed.

(** A [float] is a [double]. *)
Lemma held_widen x : held 24 128 x -> held 53 1024 x.
Proof.
  intros (M & c & HM & Hc & E). exists M, c.
  change (2 ^ 24) with 16777216 in HM. change (2 ^ 53) with 9007199254740992.
  change (emin 24 128) with (-149) in Hc. change (emin 53 1024) with (-1074).
  repeat split; try lia. exact E.
Qed.

Lemma held_nonneg prec emax x : held prec emax x -> (0 <= x)%Q.
Proof.
  intros (M & c & HM & Hc & E). rewrite E.
  pose proof (Qpow_pos c). pose proof (inject_Z_nonneg M ltac:(lia)). nra.
Qed.

(** ** Conversions of the generator *)

Lemma to_float_rounding x p :
  Fmt.is_finite x = true -> (Qabs (SF2Q x) < 2 ^ p)%Q -> p < 128 ->
  rounding_of 24 128 (SF2Q x) (to_float x).
Proof. apply (round_rounding 24 128); lia. Qed.

Lemma to_double_exact x p :
  Fmt.is_finite x = true -> held 53 1024 (Qabs (SF2Q x)) ->
  (Qabs (SF2Q x) < 2 ^ p)%Q -> p < 1024 ->
  Fmt.is_finite (to_double x) = true /\ (SF2Q (to_double x) == SF2Q x)%Q.
Proof.
  intros Hf Hh Hp Hpe.
  pose proof (round_rounding 53 1024 ltac:(lia) ltac:(lia) x p Hf Hp Hpe) as H.
  split; [apply H|].
  apply (rounding_exact 53 1024 ltac:(lia) _ _ H Hh).
Qed.

Lemma float_of_ulong_rounding n :
  0 <= n < 2 ^ 32 -> rounding_of 24 128 (inject_Z n) (float_of_ulong n).
Proof.
  intros Hn. apply (of_Z_rounding 24 128 ltac:(lia) ltac:(lia) n 32); [|lia].
  assert (E : (Qabs (inject_Z n) == inject_Z n)%Q)
    by (apply Qabs_pos, inject_Z_nonneg, Hn).
  rewrite E, <- Qpow_inject by lia. rewrite <- Zlt_Qlt. apply Hn.
Qed.

(** The integers up to [2^24] convert exactly. *)
Lemma float_of_ulong_exact n :
  0 <= n <= 2 ^ 24 -> (SF2Q (float_of_ulong n) == inject_Z n)%Q.
Proof.
  intros Hn. change (2 ^ 24) with 16777216 in Hn.
  apply (rounding_exact 24 128 ltac:(lia)).
  - apply float_of_ulong_rounding. change (2 ^ 32) with 4294967296. lia.
  - apply (held_eq 24 128 (inject_Z n));
      [symmetry; apply Qabs_pos, inject_Z_nonneg; lia|].
    destruct (Z.eq_dec n 16777216) as [-> | Hne].
    + exists (2 ^ 23), 1. split; [|split]; cbv; intuition congruence.
    + exists n, 0. change (2 ^ 24) with 16777216.
      split; [lia|]. split; [cbv; congruence|].
      change (2 ^ 0)%Q with 1%Q. ring.
Qed.

(** The conversion of a positive integer is a positive number. *)
Lemma float_of_ulong_shape n :
  0 < n < 2 ^ 32 ->
  exists s m e, float_of_ulong n = S754_finite s m e
                /\ (1 <= SF2Q (S754_finite s m e))%Q.
Proof.
  intros Hn.
  pose proof (float_of_ulong_rounding n ltac:(lia)) as H.
  change (2 ^ 32) with 4294967296 in Hn.
  assert (H1 : (1 <= SF2Q (float_of_ulong n))%Q).
  { apply (rounding_ge 24 128 ltac:(lia) _ _ 1 H).
    - exists 1, 0. repeat split; cbv; congruence.
    - change 1%Q with (inject_Z 1). rewrite <- Zle_Qle. lia. }
  destruct H as [Hf _].
  destruct (float_of_ulong n) as [s|s| |s m e]; try discriminate Hf.
  - exfalso. cbn [SF2Q] in H1. apply H1. reflexivity.
  - exists s, m, e. split; [reflexivity | exact H1].
Qed.

Lemma float_of_ulong_le n :
  0 <= n < 2 ^ 32 -> (SF2Q (float_of_ulong n) <= 2 ^ 32)%Q.
Proof.
  intros Hn.
  apply (rounding_le 24 128 ltac:(lia) _ _ _ (float_of_ulong_rounding n Hn)).
  - exists (2 ^ 23), 9. repeat split; try (cbv; congruence).
  - rewrite <- Qpow_inject by lia. rewrite <- Zle_Qle. lia.
Qed.

(** ** The position in the run *)

(** The position is the rounding of the quotient of the two converted
    arguments. *)
Lemma position_rounding i n :
  0 <= i < 2 ^ 32 -> 0 < n < 2 ^ 32 ->
  rounding_of 24 128 (SF2Q (float_of_ulong i) / SF2Q (float_of_ulong n))
    (position i n).
Proof.
  intros Hi Hn. unfold position, Fmt.div.
  destruct (float_of_ulong_shape n Hn) as (sn & mn & en & En & Hn1).
  rewrite En.
  destruct (Z.eq_dec i 0) as [-> | Hi0].
  - change (float_of_ulong 0) with (S754_zero false). cbn [SFdiv].
    apply rounding_of_zero; [lia|]. cbn [SF2Q]. unfold Qdiv. ring.
  - destruct (float_of_ulong_shape i ltac:(lia)) as (si & mi & ei & Ei & Hi1).
    pose proof (float_of_ulong_le i Hi) as Hile. rewrite Ei in Hile |- *.
    apply (SFdiv_rounding 24 128 ltac:(lia) ltac:(lia) si mi ei sn mn en 33);
      [|lia].
    set (a := SF2Q (S754_finite si mi ei)) in *.
    set (b := SF2Q (S754_finite sn mn en)) in *.
    assert (Hq : (0 <= a / b <= a)%Q).
    { split.
      - apply Qle_shift_div_l; lra.
      - apply Qle_shift_div_r; [lra | nra]. }
    rewrite Qabs_pos by apply Hq.
    assert ((2 ^ 32 < 2 ^ 33)%Q) by reflexivity. lra.
Qed.

(** Both arguments convert exactly when they are at most [2^24]. *)
Lemma position_rounding_exact i n :
  0 <= i <= 2 ^ 24 -> 0 < n <= 2 ^ 24 ->
  rounding_of 24 128 (inject_Z i / inject_Z n) (position i n).
Proof.
  intros Hi Hn.
  assert (2 ^ 24 < 2 ^ 32) by reflexivity.
  apply (rounding_of_eq 24 128
           (SF2Q (float_of_ulong i) / SF2Q (float_of_ulong n))).
  - rewrite !float_of_ulong_exact by lia. reflexivity.
  - apply position_rounding; lia.
Qed.

Lemma Qdiv_int_bounds i n :
  0 <= i -> i < n ->
  (0 <= inject_Z i / inject_Z n < 1)%Q.
Proof.
  intros Hi Hn.
  pose proof (inject_Z_pos n ltac:(lia)) as Hq.
  pose proof (inject_Z_nonneg i Hi) as Hiq.
  assert (Hlt : (inject_Z i < inject_Z n)%Q) by (rewrite <- Zlt_Qlt; exact Hn).
  split.
  - apply Qle_shift_div_l; lra.
  - apply Qlt_shift_div_r; lra.
Qed.

(** For a total of at most [2^24] the position is within 2^-25 of
    [i / n], and at most the largest [float] below one. *)
Lemma position_error i n :
  0 <= i -> i < n -> n <= 2 ^ 24 ->
  Fmt.is_finite (position i n) = true
  /\ (Qabs (SF2Q (position i n) - inject_Z i / inject_Z n) <= 1 # 2 ^ 25)%Q
  /\ (0 <= SF2Q (position i n) <= 1 - (1 # 2 ^ 24))%Q
  /\ held 24 128 (SF2Q (position i n)).
Proof.
  intros Hi Hin Hn.
  pose proof (position_rounding_exact i n ltac:(lia) ltac:(lia)) as H.
  destruct (Qdiv_int_bounds i n Hi Hin) as [Hq0 Hq1].
  set (q := (inject_Z i / inject_Z n)%Q) in *.
  assert (H0 : (0 <= SF2Q (position i n))%Q).
  { apply (rounding_ge 24 128 ltac:(lia) _ _ 0 H); [|exact Hq0].
    exists 0, 0. repeat split; cbv; congruence. }
  split; [apply H|]. split; [|split].
  - pose proof (f32_rounding_error _ _ 0 H) as He.
    rewrite Qabs_pos in He by exact Hq0. exact (He Hq1).
  - split; [exact H0|].
    apply (rounding_le 24 128 ltac:(lia) _ _ _ H).
    + exists (2 ^ 24 - 1), (-24). repeat split; cbv; congruence.
    + (* i / n <= (n - 1) / n <= 1 - 2^-24 *)
      pose proof (inject_Z_pos n ltac:(lia)) as Hnq.
      apply Qle_shift_div_r; [exact Hnq|].
      assert (H1 : (inject_Z i <= inject_Z (n + -1))%Q)
        by (rewrite <- Zle_Qle; lia).
      rewrite inject_Z_plus in H1. change (inject_Z (-1)) with (-1)%Q in H1.
      assert (H2 : (inject_Z n <= 16777216)%Q).
      { change 16777216%Q with (inject_Z (2 ^ 24)). rewrite <- Zle_Qle. lia. }
      change (1 # 2 ^ 24)%Q with (1 # 16777216)%Q. lra.
  - apply (held_eq 24 128 (Qabs (SF2Q (position i n)))).
    + rewrite Qabs_pos by exact H0. reflexivity.
    + apply (rounding_held 24 128 ltac:(lia) _ _ H).
Qed.

(** The product of a [float] in [0, 1] by a small integer constant is
    exact in [double]. *)
Lemma double_mul_const t k :
  Fmt.is_finite t = true -> held 24 128 (SF2Q t) -> (SF2Q t <= 1)%Q ->
  0 < k < 128 ->
  full_mantissa 53 (double_lit k) = true ->
  Fmt.is_finite (double_lit k) = true ->
  (SF2Q (double_lit k) == inject_Z k)%Q ->
  Fmt.is_finite (Fmt.mul f64 (to_double t) (double_lit k)) = true
  /\ (SF2Q (Fmt.mul f64 (to_double t) (double_lit k))
      == SF2Q t * inject_Z k)%Q.
Proof.
  intros Hf Hh H1 Hk Hfull Hfc Ec.
  pose proof (held_nonneg _ _ _ Hh) as H0.
  assert (Habs : (Qabs (SF2Q t) == SF2Q t)%Q) by (apply Qabs_pos; exact H0).
  destruct (to_double_exact t 1 Hf) as [Hfd Ed]; [| |lia|].
  { apply held_widen. apply (held_eq 24 128 (SF2Q t)); [lra | exact Hh]. }
  { rewrite Habs. change (2 ^ 1)%Q with 2%Q. lra. }
  assert (Hkq : (0 <= inject_Z k <= 127)%Q).
  { split; [apply inject_Z_nonneg; lia|].
    change 127%Q with (inject_Z 127). rewrite <- Zle_Qle. lia. }
  pose proof (SFmul_rounding 53 1024 ltac:(lia) ltac:(lia)
                (to_double t) (double_lit k) 7 Hfd Hfc
                (or_intror Hfull)) as Hm.
  assert (Hb : (Qabs (SF2Q (to_double t) * SF2Q (double_lit k)) < 2 ^ 7)%Q).
  { rewrite Ed, Ec.
    rewrite Qabs_pos by nra. change (2 ^ 7)%Q with 128%Q. nra. }
  specialize (Hm Hb ltac:(lia)).
  split; [apply Hm|].
  rewrite <- Ed, <- Ec.
  apply (rounding_exact 53 1024 ltac:(lia) _ _ Hm).
  destruct Hh as (M & c & HM & Hcm & Et).
  apply (held_eq 53 1024 (inject_Z (M * k) * 2 ^ c)).
  - rewrite Ed, Ec, Et.
    assert (HMq : (0 <= inject_Z M)%Q) by (apply inject_Z_nonneg; lia).
    pose proof (Qpow_pos c).
    rewrite Qabs_pos by nra. rewrite inject_Z_mult. ring.
  - exists (M * k), c. change (2 ^ 24) with 16777216 in HM.
    change (2 ^ 53) with 9007199254740992.
    change (emin 24 128) with (-149) in Hcm. change (emin 53 1024) with (-1074).
    split; [nia|]. split; [lia | reflexivity].
Qed.

(** ** The ramp *)

(** [t * 100.0] is exact in [double]; its conversion to [float] is the
    only rounding. *)
Lemma ramp_raw_rounding t :
  Fmt.is_finite t = true -> held 24 128 (SF2Q t) -> (SF2Q t <= 1)%Q ->
  rounding_of 24 128 (100 * SF2Q t) (ramp_raw t).
Proof.
  intros Hf Hh H1. unfold ramp_raw.
  pose proof (held_nonneg _ _ _ Hh) as H0.
  destruct (double_mul_const t 100 Hf Hh H1 ltac:(lia)
              eq_refl eq_refl ltac:(reflexivity)) as [Hfp Ep].
  change (inject_Z 100) with 100%Q in Ep.
  apply (rounding_of_eq 24 128
           (SF2Q (Fmt.mul f64 (to_double t) (double_lit 100))));
    [rewrite Ep; ring|].
  apply (to_float_rounding _ 7 Hfp); [|lia].
  rewrite Ep, Qabs_pos by lra. change (2 ^ 7)%Q with 128%Q. lra.
Qed.

Lemma Qabs_le_iff x b : (Qabs x <= b)%Q <-> (- b <= x <= b)%Q.
Proof. apply Qabs_Qle_condition. Qed.

Lemma Qabs_lt_of x b : (- b < x < b)%Q -> (Qabs x < b)%Q.
Proof.
  intros [H1 H2]. apply Qabs_case; intros; lra.
Qed.

(** ** The angle of the sine *)

Lemma PI_bounds : (3 <= SF2Q PI <= 22 # 7)%Q.
Proof. vm_compute. split; discriminate. Qed.

(** [t * 2.0] is exact; the product by [PI] is rounded to [double] and
    then to [float]. *)
Lemma sine_angle_error t :
  Fmt.is_finite t = true -> held 24 128 (SF2Q t) -> (SF2Q t <= 1)%Q ->
  Fmt.is_finite (sine_angle t) = true
  /\ (Qabs (SF2Q (sine_angle t) - 2 * SF2Q t * SF2Q PI)
      <= (1 # 2 ^ 22) + (1 # 2 ^ 51))%Q.
Proof.
  intros Hf Hh H1. unfold sine_angle.
  pose proof (held_nonneg _ _ _ Hh) as H0.
  pose proof PI_bounds as HPI.
  destruct (double_mul_const t 2 Hf Hh H1 ltac:(lia)
              eq_refl eq_refl ltac:(reflexivity)) as [Hf2 E2].
  change (inject_Z 2) with 2%Q in E2.
  set (p2 := Fmt.mul f64 (to_double t) (double_lit 2)) in *.
  assert (Hm : rounding_of 53 1024 (SF2Q p2 * SF2Q PI) (Fmt.mul f64 p2 PI)).
  { apply (SFmul_rounding 53 1024 ltac:(lia) ltac:(lia) p2 PI 3 Hf2 eq_refl
             (or_intror eq_refl)); [|lia].
    rewrite E2. apply Qabs_lt_of. change (2 ^ 3)%Q with 8%Q. split; nra. }
  set (a := Fmt.mul f64 p2 PI) in *.
  assert (Ha : (Qabs (SF2Q a - SF2Q p2 * SF2Q PI) <= 1 # 2 ^ 51)%Q).
  { apply (f64_rounding_error _ _ 3 Hm).
    rewrite E2. apply Qabs_lt_of. change (2 ^ 3)%Q with 8%Q. split; nra. }
  apply Qabs_le_iff in Ha. rewrite E2 in Ha.
  change (1 # 2 ^ 51)%Q with (1 # 2251799813685248)%Q in *.
  assert (Hab : (Qabs (SF2Q a) < 2 ^ 3)%Q).
  { apply Qabs_lt_of. change (2 ^ 3)%Q with 8%Q. split; nra. }
  pose proof (to_float_rounding a 3 (proj1 Hm) Hab ltac:(lia)) as Hr.
  split; [apply Hr|].
  pose proof (f32_rounding_error _ _ 3 Hr Hab) as He.
  change (2 ^ (Z.max (3 - 24) (-149) - 1))%Q with (1 # 4194304)%Q in He.
  apply Qabs_le_iff in He. apply Qabs_le_iff.
  change (1 # 2 ^ 22)%Q with (1 # 4194304)%Q.
  split; lra.
Qed.

(** ** The value of the sine pattern *)

Lemma double_lit_50 : double_lit 50 = S754_finite false 7036874417766400 (-47).
Proof. reflexivity. Qed.

Section Sine.

Context {P : Platform}.

(** The value before noise against the exact [50 + 45 s], for the sine
    [s] that the library returns. *)
Lemma sine_raw_error t :
  let s := sin (to_double (sine_angle t)) in
  Fmt.is_finite s = true -> (-1 <= SF2Q s <= 1)%Q ->
  Fmt.is_finite (sine_raw t) = true
  /\ (Qabs (SF2Q (sine_raw t) - (50 + 45 * SF2Q s)) <= 1 # 2 ^ 17)%Q.
Proof.
  intros s Hfs Hs. unfold sine_raw. fold s.
  assert (E45 : (SF2Q (double_lit 45) == 45)%Q) by reflexivity.
  assert (E50 : (SF2Q (S754_finite false 7036874417766400 (-47)) == 50)%Q)
    by reflexivity.
  assert (Hm : rounding_of 53 1024 (SF2Q (double_lit 45) * SF2Q s)
                 (Fmt.mul f64 (double_lit 45) s)).
  { apply (SFmul_rounding 53 1024 ltac:(lia) ltac:(lia) (double_lit 45) s 6
             eq_refl Hfs (or_introl eq_refl)); [|lia].
    rewrite E45.
    apply Qabs_lt_of. change (2 ^ 6)%Q with 64%Q. split; lra. }
  assert (Em : (Qabs (SF2Q (Fmt.mul f64 (double_lit 45) s) - 45 * SF2Q s)
                <= 1 # 2 ^ 48)%Q).
  { rewrite <- E45. apply (f64_rounding_error _ _ 6 Hm).
    rewrite E45.
    apply Qabs_lt_of. change (2 ^ 6)%Q with 64%Q. split; lra. }
  set (m := Fmt.mul f64 (double_lit 45) s) in *.
  change (1 # 2 ^ 48)%Q with (1 # 281474976710656)%Q in Em.
  apply Qabs_le_iff in Em.
  assert (Ha : Fmt.is_finite (Fmt.add f64 (double_lit 50) m) = true
               /\ (Qabs (SF2Q (Fmt.add f64 (double_lit 50) m)
                         - (50 + SF2Q m)) <= 1 # 2 ^ 47)%Q).
  { destruct Hm as [Hfm _]. rewrite double_lit_50.
    destruct m as [sm|sm| |sm mm em]; try discriminate Hfm.
    - cbn [Fmt.add f64 Fmt.prec Fmt.emax Fmt.binary64 SFadd].
      split; [reflexivity|]. vm_compute. discriminate.
    - assert (Hb : (Qabs (SF2Q (S754_finite false 7036874417766400 (-47))
                          + SF2Q (S754_finite sm mm em)) < 2 ^ 7)%Q).
      { rewrite E50.
        apply Qabs_lt_of. change (2 ^ 7)%Q with 128%Q. split; lra. }
      pose proof (SFadd_rounding 53 1024 ltac:(lia) ltac:(lia)
                    false 7036874417766400 (-47) sm mm em 7 Hb ltac:(lia))
        as Hadd.
      split; [apply Hadd|].
      pose proof (f64_rounding_error _ _ 7 Hadd Hb) as He.
      rewrite E50 in He. exact He. }
  destruct Ha as [Hfa Ea].
  set (a := Fmt.add f64 (double_lit 50) m) in *.
  change (1 # 2 ^ 47)%Q with (1 # 140737488355328)%Q in Ea.
  apply Qabs_le_iff in Ea.
  assert (Hab : (Qabs (SF2Q a) < 2 ^ 7)%Q).
  { apply Qabs_lt_of. change (2 ^ 7)%Q with 128%Q. split; lra. }
  pose proof (to_float_rounding a 7 Hfa Hab ltac:(lia)) as Hr.
  split; [apply Hr|].
  pose proof (f32_rounding_error _ _ 7 Hr Hab) as He.
  change (2 ^ (Z.max (7 - 24) (-149) - 1))%Q with (1 # 262144)%Q in He.
  apply Qabs_le_iff in He. apply Qabs_le_iff.
  change (1 # 2 ^ 17)%Q with (1 # 131072)%Q.
  split; lra.
Qed.

End Sine.

(** ** The position in the run, for any total *)

(** The conversion of an index or of a total is off by at most one part
    in [2^24]. *)
Lemma float_of_ulong_relative n :
  0 <= n < 2 ^ 32 ->
  (Qabs (SF2Q (float_of_ulong n) - inject_Z n) <= inject_Z n * (1 # 2 ^ 24))%Q.
Proof.
  intros Hn. destruct (Z.eq_dec n 0) as [-> | Hne].
  - vm_compute. discriminate.
  - apply (rounding_relative 24 128 _ _ (float_of_ulong_rounding n Hn)).
    assert (H1 : (inject_Z 1 <= inject_Z n)%Q) by (rewrite <- Zle_Qle; lia).
    change (inject_Z 1) with 1%Q in H1.
    assert ((2 ^ (emin 24 128 + 24) <= 1)%Q) by (vm_compute; discriminate).
    lra.
Qed.

(** For any total of the type the position is within 2^-21 of
    [i / n], and at most one. *)
Lemma position_error_wide i n :
  0 <= i -> i < n -> n < 2 ^ 32 ->
  Fmt.is_finite (position i n) = true
  /\ (Qabs (SF2Q (position i n) - inject_Z i / inject_Z n) <= 1 # 2 ^ 21)%Q
  /\ (0 <= SF2Q (position i n) <= 1)%Q
  /\ held 24 128 (SF2Q (position i n)).
Proof.
  intros Hi Hin Hn.
  assert (Hi32 : 0 <= i < 2 ^ 32) by lia.
  assert (Hn32 : 0 <= n < 2 ^ 32) by lia.
  pose proof (position_rounding i n Hi32 ltac:(lia)) as H.
  pose proof (float_of_ulong_rounding i Hi32) as Ri.
  pose proof (float_of_ulong_rounding n Hn32) as Rn.
  pose proof (float_of_ulong_relative i Hi32) as Ei.
  pose proof (float_of_ulong_relative n Hn32) as En.
  assert (Hmono : (SF2Q (float_of_ulong i) <= SF2Q (float_of_ulong n))%Q).
  { apply (rounding_mono 24 128 ltac:(lia) _ _ _ _ Ri Rn).
    rewrite <- Zle_Qle. lia. }
  assert (Hfi0 : (0 <= SF2Q (float_of_ulong i))%Q).
  { apply (rounding_ge 24 128 ltac:(lia) _ _ 0 Ri).
    - exists 0, 0. repeat split; cbv; congruence.
    - apply inject_Z_nonneg. lia. }
  assert (Hfn1 : (1 <= SF2Q (float_of_ulong n))%Q).
  { apply (rounding_ge 24 128 ltac:(lia) _ _ 1 Rn).
    - exists 1, 0. repeat split; cbv; congruence.
    - change 1%Q with (inject_Z 1). rewrite <- Zle_Qle. lia. }
  destruct (Qdiv_int_bounds i n Hi Hin) as [Hq0 Hq1].
  pose proof (inject_Z_pos n ltac:(lia)) as Hnq.
  pose proof (inject_Z_nonneg i Hi) as Hiq.
  assert (Hin' : (inject_Z i <= inject_Z n)%Q) by (rewrite <- Zle_Qle; lia).
  assert (Eq : (inject_Z i / inject_Z n * inject_Z n == inject_Z i)%Q)
    by (field; lra).
  set (q := (inject_Z i / inject_Z n)%Q) in *.
  set (fi := SF2Q (float_of_ulong i)) in *.
  set (fn := SF2Q (float_of_ulong n)) in *.
  set (iq := inject_Z i) in *. set (nq := inject_Z n) in *.
  assert (Ey : (fi / fn * fn == fi)%Q) by (field; lra).
  set (y := (fi / fn)%Q) in *.
  assert (Hy : (0 <= y <= 1)%Q).
  { split.
    - apply Qle_shift_div_l; lra.
    - apply Qle_shift_div_r; lra. }
  change (1 # 2 ^ 24)%Q with (1 # 16777216)%Q in Ei, En.
  apply Qabs_le_iff in Ei. apply Qabs_le_iff in En.
  (* the quotient of the conversions is near the quotient *)
  assert (Hyq : (- (1 # 4194304) <= y - q <= 1 # 4194304)%Q).
  { assert (A1 : (0 <= iq * nq)%Q) by nra.
    assert (A2 : (iq * nq <= nq * nq)%Q) by nra.
    assert (A3 : (fi * nq <= (1 + (1 # 16777216)) * (iq * nq))%Q) by nra.
    assert (A4 : ((1 - (1 # 16777216)) * (iq * nq) <= fi * nq)%Q) by nra.
    assert (A5 : (iq * fn <= (1 + (1 # 16777216)) * (iq * nq))%Q) by nra.
    assert (A6 : ((1 - (1 # 16777216)) * (iq * nq) <= iq * fn)%Q) by nra.
    assert (A7 : ((1 - (1 # 16777216)) * (nq * nq) <= fn * nq)%Q) by nra.
    assert (A8 : (0 < fn * nq)%Q) by nra.
    assert (E : ((y - q) * (fn * nq) == fi * nq - iq * fn)%Q).
    { rewrite <- Ey, <- Eq. ring. }
    split.
    - apply Qmult_le_r with (z := (fn * nq)%Q); [exact A8|].
      rewrite E. lra.
    - apply Qmult_le_r with (z := (fn * nq)%Q); [exact A8|].
      rewrite E. lra. }
  (* the rounding of the quotient *)
  assert (H1 : (SF2Q (position i n) <= 1)%Q).
  { apply (rounding_le 24 128 ltac:(lia) _ _ 1 H); [|apply Hy].
    exists 1, 0. repeat split; cbv; congruence. }
  assert (H0 : (0 <= SF2Q (position i n))%Q).
  { apply (rounding_ge 24 128 ltac:(lia) _ _ 0 H); [|apply Hy].
    exists 0, 0. repeat split; cbv; congruence. }
  assert (Hty : (- (1 # 33554432) <= SF2Q (position i n) - y <= 1 # 33554432)%Q).
  { destruct (Qlt_le_dec y 1) as [Hlt | Hge].
    - pose proof (f32_rounding_error _ _ 0 H) as He.
      rewrite Qabs_pos in He by apply Hy.
      apply Qabs_le_iff. exact (He Hlt).
    - assert (E1 : (y == 1)%Q) by lra.
      assert (Et : (SF2Q (position i n) == y)%Q).
      { apply (rounding_exact 24 128 ltac:(lia) _ _ H).
        apply (held_eq 24 128 1); [rewrite Qabs_pos; lra|].
        exists 1, 0. repeat split; cbv; congruence. }
      rewrite Et. split; lra. }
  split; [apply H|]. split; [|split].
  - apply Qabs_le_iff. change (1 # 2 ^ 21)%Q with (1 # 2097152)%Q.
    split; lra.
  - split; assumption.
  - apply (held_eq 24 128 (Qabs (SF2Q (position i n)))).
    + rewrite Qabs_pos by exact H0. reflexivity.
    + apply (rounding_held 24 128 ltac:(lia) _ _ H).
Qed.

(** ** Order *)

(** The position does not decrease with the index. *)
Lemma position_mono i j n :
  0 <= i -> i <= j -> j < 2 ^ 32 -> 0 < n < 2 ^ 32 ->
  (SF2Q (position i n) <= SF2Q (position j n))%Q.
Proof.
  intros Hi Hij Hj Hn.
  assert (Hi32 : 0 <= i < 2 ^ 32) by lia.
  assert (Hj32 : 0 <= j < 2 ^ 32) by lia.
  apply (rounding_mono 24 128 ltac:(lia) _ _ _ _
           (position_rounding i n Hi32 Hn) (position_rounding j n Hj32 Hn)).
  assert (Hm : (SF2Q (float_of_ulong i) <= SF2Q (float_of_ulong j))%Q).
  { apply (rounding_mono 24 128 ltac:(lia) _ _ _ _
             (float_of_ulong_rounding i Hi32) (float_of_ulong_rounding j Hj32)).
    rewrite <- Zle_Qle. exact Hij. }
  destruct (float_of_ulong_shape n Hn) as (s & m & e & -> & H1).
  apply Qmult_le_compat_r; [exact Hm|].
  apply Qinv_le_0_compat. lra.
Qed.

(** The number just below 100 to which the ramp rounds when the position
    is the largest [float] below one. *)
Lemma ramp_below_hundred :
  rounds 24 128 (100 * (1 - (1 # 2 ^ 24))) (100 - (1 # 2 ^ 17)).
Proof.
  left. split; [vm_compute; discriminate|].
  exists (-17), 13107199. split; [|split].
  - right. split; [reflexivity|]. split; vm_compute; [discriminate | reflexivity].
  - split; [vm_compute; discriminate|].
    intros H. vm_compute in H. discriminate H.
  - reflexivity.
Qed.

(** The value of the ramp is the rounding of one hundred times the
    position. *)
Lemma ramp_raw_facts i n :
  0 <= i -> i < n -> n < 2 ^ 32 ->
  rounding_of 24 128 (100 * SF2Q (position i n)) (ramp_raw (position i n))
  /\ (0 <= SF2Q (ramp_raw (position i n)) <= 100)%Q
  /\ (Qabs (SF2Q (ramp_raw (position i n)) - 100 * SF2Q (position i n))
      <= 1 # 2 ^ 18)%Q.
Proof.
  intros Hi Hin Hn.
  destruct (position_error_wide i n Hi Hin Hn) as (Hf & _ & [H0 H1] & Hh).
  pose proof (ramp_raw_rounding _ Hf Hh H1) as Hr.
  split; [exact Hr|]. split; [split|].
  - apply (rounding_ge 24 128 ltac:(lia) _ _ 0 Hr); [|lra].
    exists 0, 0. repeat split; cbv; congruence.
  - apply (rounding_le 24 128 ltac:(lia) _ _ 100 Hr); [|lra].
    exists 25, 2. repeat split; cbv; congruence.
  - apply (f32_rounding_error _ _ 7 Hr).
    rewrite Qabs_pos by lra. change (2 ^ 7)%Q with 128%Q. lra.
Qed.

(** ** The angle against the angle of the formula *)

(** The macro [PI] is the [double] nearest to the number pi. *)
Lemma PI_value : (Qabs (SF2Q PI - pi_20) <= 1 # 2 ^ 52)%Q.
Proof. vm_compute. discriminate. Qed.

(** The angle of a sample against the angle of the formula, for a
    position known to within [b]. *)
Lemma sine_angle_near t q p b :
  Fmt.is_finite t = true -> held 24 128 (SF2Q t) -> (SF2Q t <= 1)%Q ->
  (0 <= q <= 1)%Q -> (Qabs (SF2Q t - q) <= b)%Q ->
  (Qabs (p - pi_20) <= 1 # 2 ^ 40)%Q ->
  (Qabs (SF2Q (sine_angle t) - 2 * p * q)
   <= (1 # 2 ^ 22) + (1 # 2 ^ 38) + (44 # 7) * b)%Q.
Proof.
  intros Hf Hh H1 Hq Hb Hp.
  destruct (sine_angle_error t Hf Hh H1) as [_ Ha].
  pose proof PI_bounds as HPI. pose proof PI_value as Hd.
  apply Qabs_le_iff in Ha. apply Qabs_le_iff in Hb.
  apply Qabs_le_iff in Hp. apply Qabs_le_iff in Hd.
  change (1 # 2 ^ 22)%Q with (1 # 4194304)%Q in *.
  change (1 # 2 ^ 51)%Q with (1 # 2251799813685248)%Q in *.
  change (1 # 2 ^ 52)%Q with (1 # 4503599627370496)%Q in *.
  change (1 # 2 ^ 40)%Q with (1 # 1099511627776)%Q in *.
  change (1 # 2 ^ 38)%Q with (1 # 274877906944)%Q in *.
  set (a := SF2Q (sine_angle t)) in *. set (x := SF2Q t) in *.
  set (c := SF2Q PI) in *.
  assert (E : (a - 2 * p * q == (a - 2 * x * c) + 2 * c * (x - q)
                               + 2 * q * (c - p))%Q) by ring.
  assert (Hb0 : (0 <= b)%Q) by lra.
  assert (P1 : (0 <= c * (b - (x - q)))%Q) by (apply Qmult_le_0_compat; lra).
  assert (P2 : (0 <= c * (b + (x - q)))%Q) by (apply Qmult_le_0_compat; lra).
  assert (P3 : (0 <= ((22 # 7) - c) * b)%Q) by (apply Qmult_le_0_compat; lra).
  assert (B1 : (- ((44 # 7) * b) <= 2 * c * (x - q) <= (44 # 7) * b)%Q)
    by (split; nra).
  set (k := ((1 # 1099511627776) + (1 # 4503599627370496))%Q).
  assert (P4 : (0 <= q * (k - (c - p)))%Q)
    by (apply Qmult_le_0_compat; unfold k; lra).
  assert (P5 : (0 <= q * (k + (c - p)))%Q)
    by (apply Qmult_le_0_compat; unfold k; lra).
  assert (B2 : (- (2 * k) <= 2 * q * (c - p) <= 2 * k)%Q)
    by (unfold k in *; split; nra).
  unfold k in B2.
  apply Qabs_le_iff. rewrite E. split; lra.
Qed.

(** ** The middle of a run *)

(** Every number between [50 - 23/2^22] and [50 - 5/2^21] rounds to the
    next [float] below 50. *)
Lemma below_fifty x r :
  rounds 24 128 x r ->
  (50 - (23 # 2 ^ 22) <= x <= 50 - (5 # 2 ^ 21))%Q ->
  (r == 50 - (1 # 2 ^ 18))%Q.
Proof.
  intros Hr [Hlo Hhi].
  assert (HL : rounds 24 128 (50 - (23 # 2 ^ 22)) (50 - (1 # 2 ^ 18))).
  { left. split; [vm_compute; discriminate|].
    exists (-18), 13107199. split; [|split].
    - right. split; [reflexivity|]. split; vm_compute; [discriminate | reflexivity].
    - split; [vm_compute; discriminate|].
      intros H. vm_compute in H. discriminate H.
    - reflexivity. }
  assert (HU : rounds 24 128 (50 - (5 # 2 ^ 21)) (50 - (1 # 2 ^ 18))).
  { left. split; [vm_compute; discriminate|].
    exists (-18), 13107199. split; [|split].
    - right. split; [reflexivity|]. split; vm_compute; [discriminate | reflexivity].
    - split; [vm_compute; discriminate|].
      intros H. vm_compute in H. discriminate H.
    - reflexivity. }
  apply Qle_antisym.
  - apply (rounds_mono 24 128 ltac:(lia) _ _ _ _ Hr HU Hhi).
  - apply (rounds_mono 24 128 ltac:(lia) _ _ _ _ HL Hr Hlo).
Qed.

Section HalfTurn.

Context {P : Platform}.

(** At the middle of a run of 100 samples the value before noise is not
    50 for any sine routine that is accurate there: the angle is the
    [float] above pi, whose sine is about -8.74e-8, and for every sine
    between [-2^-23] and [-2^-24] the value is the [float] below 50. *)
Lemma sine_raw_half_turn :
  let t := position 50 100 in
  let s := sin (to_double (sine_angle t)) in
  Fmt.is_finite s = true ->
  (- (1 # 2 ^ 23) <= SF2Q s <= - (1 # 2 ^ 24))%Q ->
  (SF2Q (sine_raw t) == 50 - (1 # 2 ^ 18))%Q.
Proof.
  intros t s Hfs Hs. unfold sine_raw. fold s.
  change (1 # 2 ^ 23)%Q with (1 # 8388608)%Q in Hs.
  change (1 # 2 ^ 24)%Q with (1 # 16777216)%Q in Hs.
  assert (E45 : (SF2Q (double_lit 45) == 45)%Q) by reflexivity.
  assert (E50 : (SF2Q (S754_finite false 7036874417766400 (-47)) == 50)%Q)
    by reflexivity.
  assert (Hb45 : (Qabs (SF2Q (double_lit 45) * SF2Q s) < 2 ^ 6)%Q).
  { rewrite E45. apply Qabs_lt_of. change (2 ^ 6)%Q with 64%Q. split; lra. }
  assert (Hm : rounding_of 53 1024 (SF2Q (double_lit 45) * SF2Q s)
                 (Fmt.mul f64 (double_lit 45) s)).
  { apply (SFmul_rounding 53 1024 ltac:(lia) ltac:(lia) (double_lit 45) s 6
             eq_refl Hfs (or_introl eq_refl) Hb45). lia. }
  pose proof (f64_rounding_error _ _ 6 Hm Hb45) as Em.
  rewrite E45 in Em.
  change (2 ^ (Z.max (6 - 53) (-1074) - 1))%Q with (1 # 281474976710656)%Q in Em.
  apply Qabs_le_iff in Em.
  set (m := Fmt.mul f64 (double_lit 45) s) in *.
  destruct Hm as [Hfm _]. rewrite double_lit_50.
  destruct m as [sm|sm| |sm mm em]; try discriminate Hfm.
  { exfalso. cbn [SF2Q] in Em. lra. }
  assert (Hb : (Qabs (SF2Q (S754_finite false 7036874417766400 (-47))
                      + SF2Q (S754_finite sm mm em)) < 2 ^ 7)%Q).
  { rewrite E50. apply Qabs_lt_of. change (2 ^ 7)%Q with 128%Q. split; lra. }
  assert (Hadd : rounding_of 53 1024
                   (SF2Q (S754_finite false 7036874417766400 (-47))
                    + SF2Q (S754_finite sm mm em))
                   (Fmt.add f64 (S754_finite false 7036874417766400 (-47))
                      (S754_finite sm mm em))).
  { apply (SFadd_rounding 53 1024 ltac:(lia) ltac:(lia)
             false 7036874417766400 (-47) sm mm em 7 Hb). lia. }
  pose proof (f64_rounding_error _ _ 7 Hadd Hb) as Ea.
  rewrite E50 in Ea.
  change (2 ^ (Z.max (7 - 53) (-1074) - 1))%Q with (1 # 140737488355328)%Q in Ea.
  apply Qabs_le_iff in Ea.
  set (a := Fmt.add f64 (S754_finite false 7036874417766400 (-47))
              (S754_finite sm mm em)) in *.
  assert (Hab : (Qabs (SF2Q a) < 2 ^ 7)%Q).
  { apply Qabs_lt_of. change (2 ^ 7)%Q with 128%Q. split; lra. }
  destruct (to_float_rounding a 7 (proj1 Hadd) Hab ltac:(lia)) as [_ Hr].
  apply (below_fifty _ _ Hr).
  change (23 # 2 ^ 22)%Q with (23 # 4194304)%Q.
  change (5 # 2 ^ 21)%Q with (5 # 2097152)%Q.
  split; lra.
Qed.

End HalfTurn.

(** ** Frame conditions of the generator *)

Section Frame.

Context {P : Platform}.

Ltac by_cases st :=
  unfold generateSample;
  destruct (switch_case (currentPattern st));
  repeat match goal with
         | |- context [random ?a ?b ?g] => destruct (random a b g)
         end;
  simpl.

Lemma generateSample_testCount i n st g :
  testCount (snd (fst (generateSample i n st g))) = testCount st.
Proof. by_cases st; reflexivity. Qed.

Lemma generateSample_currentPattern i n st g :
  currentPattern (snd (fst (generateSample i n st g))) = currentPattern st.
Proof. by_cases st; reflexivity. Qed.

Lemma generateSample_state i n st g :
  switch_case (currentPattern st) <> CaseRandomWalk ->
  snd (fst (generateSample i n st g)) = st.
Proof. by_cases st; intros H; congruence. Qed.

Lemma sample_step_testCount i st g :
  testCount (state_of (sample_step i st g)) = testCount st.
Proof.
  unfold sample_step.
  pose proof (generateSample_testCount i SAMPLES_PER_TEST st g) as H.
  destruct (generateSample i SAMPLES_PER_TEST st g) as [[v st'] g'].
  exact H.
Qed.

Lemma sample_step_currentPattern i st g :
  currentPattern (state_of (sample_step i st g)) = currentPattern st.
Proof.
  unfold sample_step.
  pose proof (generateSample_currentPattern i SAMPLES_PER_TEST st g) as H.
  destruct (generateSample i SAMPLES_PER_TEST st g) as [[v st'] g'].
  exact H.
Qed.

Lemma sample_loop_frame n : forall i st g,
  testCount (state_of (sample_loop n i st g)) = testCount st
  /\ currentPattern (state_of (sample_loop n i st g)) = currentPattern st.
Proof.
  induction n as [|n IH]; intros i st g; simpl; [split; reflexivity|].
  pose proof (sample_step_testCount i st g) as Ht.
  pose proof (sample_step_currentPattern i st g) as Hp.
  destruct (sample_step i st g) as [[st1 g1] out1].
  specialize (IH (i + 1) st1 g1).
  destruct (sample_loop n (i + 1) st1 g1) as [[st2 g2] out2].
  unfold state_of in *; simpl in *.
  destruct IH as [IHt IHp]. split; congruence.
Qed.

Lemma runTest_testCount st g :
  testCount (state_of (runTest st g)) = Word.incr (testCount st).
Proof.
  unfold runTest.
  pose proof (sample_loop_frame (Z.to_nat SAMPLES_PER_TEST) 0 (begin_run st) g)
    as [Ht _].
  destruct (sample_loop _ 0 (begin_run st) g) as [[st' g'] out].
  unfold state_of in *; simpl in *. exact Ht.
Qed.

Lemma runTest_currentPattern st g :
  currentPattern (state_of (runTest st g))
  = Word.incr (testCount st) mod PATTERN_COUNT.
Proof.
  unfold runTest.
  pose proof (sample_loop_frame (Z.to_nat SAMPLES_PER_TEST) 0 (begin_run st) g)
    as [_ Hp].
  destruct (sample_loop _ 0 (begin_run st) g) as [[st' g'] out].
  unfold state_of in *; simpl in *. exact Hp.
Qed.

Lemma loop_state st g : state_of (loop st g) = state_of (runTest st g).
Proof.
  unfold loop. destruct (runTest st g) as [[st' g'] out]. reflexivity.
Qed.

Lemma loops_succ n st g :
  state_of (loops (S n) st g)
  = state_of (loop (state_of (loops n st g))
                   (snd (fst (loops n st g)))).
Proof.
  simpl. destruct (loops n st g) as [[st1 g1] out1].
  unfold state_of; simpl.
  destruct (loop st1 g1) as [[st2 g2] out2]. reflexivity.
Qed.

Lemma incr_wrap a : Word.incr (Word.wrap a) = Word.wrap (a + 1).
Proof.
  unfold Word.incr, Word.wrap. apply Zplus_mod_idemp_l.
Qed.

Lemma loops_testCount n : forall g,
  testCount (state_of (loops n initial_state g)) = Word.wrap (Z.of_nat n).
Proof.
  induction n as [|n IH]; intros g.
  - reflexivity.
  - rewrite loops_succ, loop_state, runTest_testCount, IH, incr_wrap.
    f_equal. lia.
Qed.

Lemma loops_currentPattern n g :
  currentPattern (state_of (loops (S n) initial_state g))
  = Word.wrap (Z.of_nat (S n)) mod PATTERN_COUNT.
Proof.
  rewrite loops_succ, loop_state, runTest_currentPattern.
  rewrite loops_testCount, incr_wrap. do 2 f_equal. lia.
Qed.

Lemma pattern_of_run_eq g n :
  1 <= n -> pattern_of_run g n = Word.wrap n mod PATTERN_COUNT.
Proof.
  intros Hn. unfold pattern_of_run.
  destruct (Z.to_nat n) as [|k] eqn:E; [lia|].
  rewrite loops_currentPattern, <- E, Z2Nat.id by lia. reflexivity.
Qed.

End Frame.

(** ** Pattern selection *)

(** C2, as stated: the patterns of runs [n] and [n + 3] always agree.
    This fails when the 32-bit run counter wraps: run [2^32 - 1] uses
    Sine and run [2^32 + 2] uses RandomWalk. *)
Lemma C2_counterexample :
  ~ (forall n : Z, 1 <= n ->
       @pattern_of_run Reference.platform 0 (n + 3)
       = @pattern_of_run Reference.platform 0 n).
Proof.
  intros H.
  assert (H1 : 1 <= 2 ^ 32 - 1) by lia.
  apply H in H1.
  rewrite !pattern_of_run_eq in H1 by lia.
  vm_compute in H1. discriminate H1.
Qed.

(** C2, amended: every run increments the counter first and then takes
    the counter modulo 3, whatever the platform and the random state; runs
    1 to 4 use Ramp, RandomWalk, Sine, Ramp, so the first run does not use
    Sine; and runs [n] and [n + 3] use the same pattern as long as the
    32-bit counter does not wrap in between. *)
Theorem C2_pattern_round_robin {P : Platform} (g : rng) (n : Z) :
  1 <= n ->
  pattern_of_run g n = (n mod 2 ^ 32) mod PATTERN_COUNT
  /\ (forall (P' : Platform) (g' : @rng P'),
        @pattern_of_run P' g' n = pattern_of_run g n)
  /\ (n + 3 < 2 ^ 32 -> pattern_of_run g (n + 3) = pattern_of_run g n)
  /\ pattern_of_run g 1 = PATTERN_RAMP
  /\ pattern_of_run g 2 = PATTERN_RANDOM_WALK
  /\ pattern_of_run g 3 = PATTERN_SINE
  /\ pattern_of_run g 4 = PATTERN_RAMP
  /\ pattern_of_run g 1 <> PATTERN_SINE.
Proof.
  intros Hn.
  assert (Hw : forall k, Word.wrap k = k mod 4294967296) by reflexivity.
  repeat split.
  - rewrite pattern_of_run_eq by lia. reflexivity.
  - intros P' g'. now rewrite !pattern_of_run_eq by lia.
  - intros Hlt. rewrite !pattern_of_run_eq by lia.
    change (2 ^ 32) with 4294967296 in *.
    rewrite !Hw.
    rewrite (Z.mod_small n), (Z.mod_small (n + 3)) by lia.
    unfold PATTERN_COUNT.
    replace (n + 3) with (n + 1 * 3) by lia. apply Z_mod_plus_full.
  - now rewrite pattern_of_run_eq by lia.
  - now rewrite pattern_of_run_eq by lia.
  - now rewrite pattern_of_run_eq by lia.
  - now rewrite pattern_of_run_eq by lia.
  - rewrite pattern_of_run_eq by lia. discriminate.
Qed.

Lemma C2_witness :
  1 <= 5
  /\ @pattern_of_run Reference.platform 7 5 = (5 mod 2 ^ 32) mod PATTERN_COUNT.
Proof.
  split; [lia|].
  apply (@C2_pattern_round_robin Reference.platform 7 5). lia.
Defined.

(** ** Reset of the random walk *)

(** C7: the assignments that open a run leave [randomWalkValue] at
    exactly 50.0, whatever the previous state was, and the samples of the
    run are generated from the state these assignments produce. *)
Theorem C7_random_walk_reset {P : Platform} (st : State) (g : rng) :
  randomWalkValue (begin_run st) = to_float (double_lit 50)
  /\ (SF2Q (randomWalkValue (begin_run st)) == 50)%Q
  /\ (forall st', randomWalkValue (begin_run st')
                  = randomWalkValue (begin_run st))
  /\ runTest st g
     = (let '(st', g', out) :=
          sample_loop (Z.to_nat SAMPLES_PER_TEST) 0 (begin_run st) g in
        (st', g', out ++ [EvLed false])).
Proof.
  repeat split.
Qed.

(** After a RandomWalk run the walk has drifted away from 50, and the
    next run starts from 50 again. *)
Example reset_after_drift :
  let st := state_of (@loops Reference.platform 2 initial_state 12345) in
  currentPattern st = PATTERN_RANDOM_WALK
  /\ ~ (SF2Q (randomWalkValue st) == 50)%Q
  /\ (SF2Q (randomWalkValue (begin_run st)) == 50)%Q.
Proof. vm_compute. repeat split; discriminate. Qed.

(** ** Side effects of sample generation *)

(** C9: sample generation never changes [testCount] or
    [currentPattern], and unless the pattern is RandomWalk it returns the
    state it was given. *)
Theorem C9_generateSample_frame {P : Platform} (i n : Z) (st : State) (g : rng) :
  let st' := snd (fst (generateSample i n st g)) in
  testCount st' = testCount st
  /\ currentPattern st' = currentPattern st
  /\ (switch_case (currentPattern st) <> CaseRandomWalk -> st' = st).
Proof.
  intros st'. subst st'. repeat split.
  - apply generateSample_testCount.
  - apply generateSample_currentPattern.
  - apply generateSample_state.
Qed.

(** Under RandomWalk the stored value does change. *)
Example random_walk_mutates :
  let st := set_currentPattern PATTERN_RANDOM_WALK initial_state in
  randomWalkValue
    (snd (fst (@generateSample Reference.platform 0 100 st 1)))
  <> randomWalkValue st.
Proof. vm_compute. discriminate. Qed.

(** ** Validity of the pattern *)

Section Reachable.

Context {P : Platform}.

Lemma step_pattern st st' :
  step st st' ->
  0 <= currentPattern st < PATTERN_COUNT ->
  0 <= currentPattern st' < PATTERN_COUNT.
Proof.
  intros Hs Hp. destruct Hs; simpl; trivial.
  - apply Z.mod_pos_bound. reflexivity.
  - now rewrite generateSample_currentPattern.
Qed.

Lemma switch_case_valid p :
  0 <= p < PATTERN_COUNT -> switch_case p <> CaseDefault.
Proof.
  unfold PATTERN_COUNT. intros Hp.
  assert (p = 0 \/ p = 1 \/ p = 2) as [-> | [-> | ->]] by lia;
    discriminate.
Qed.

Lemma reachable_begin_run st : reachable st -> reachable (begin_run st).
Proof.
  intros H. unfold begin_run.
  eapply reach_step; [eapply reach_step; [eapply reach_step; [exact H|]|]|].
  - apply step_count.
  - apply step_reset.
  - apply step_select.
Qed.

Lemma reachable_sample_loop n : forall i st g,
  reachable st -> reachable (state_of (sample_loop n i st g)).
Proof.
  induction n as [|n IH]; intros i st g H; simpl; [exact H|].
  assert (H1 : reachable (state_of (sample_step i st g))).
  { unfold sample_step.
    pose proof (step_sample st i SAMPLES_PER_TEST g) as Hs.
    destruct (generateSample i SAMPLES_PER_TEST st g) as [[v st1] g1].
    eapply reach_step; [exact H | exact Hs]. }
  destruct (sample_step i st g) as [[st1 g1] out1].
  specialize (IH (i + 1) st1 g1 H1).
  destruct (sample_loop n (i + 1) st1 g1) as [[st2 g2] out2].
  exact IH.
Qed.

Lemma reachable_runTest st g :
  reachable st -> reachable (state_of (runTest st g)).
Proof.
  intros H. unfold runTest.
  pose proof (reachable_sample_loop (Z.to_nat SAMPLES_PER_TEST) 0
                (begin_run st) g (reachable_begin_run st H)) as H1.
  destruct (sample_loop _ 0 (begin_run st) g) as [[st' g'] out].
  exact H1.
Qed.

Lemma reachable_loops n g : reachable (state_of (loops n initial_state g)).
Proof.
  induction n as [|n IH].
  - apply reach_init.
  - rewrite loops_succ, loop_state. now apply reachable_runTest.
Qed.

End Reachable.

(** C10: in every state the program reaches, [currentPattern] is one of
    the three enumerators, so the [switch] of [generateSample] never
    takes its [default] label. *)
Theorem C10_pattern_valid {P : Platform} (st : State) :
  reachable st ->
  0 <= currentPattern st < PATTERN_COUNT
  /\ switch_case (currentPattern st) <> CaseDefault.
Proof.
  intros H.
  assert (Hp : 0 <= currentPattern st < PATTERN_COUNT).
  { induction H as [|st st' _ IH Hs].
    - unfold PATTERN_COUNT, initial_state, PATTERN_SINE; simpl; lia.
    - eapply step_pattern; eassumption. }
  split; [exact Hp | now apply switch_case_valid].
Qed.

Lemma C10_witness :
  0 <= currentPattern (begin_run initial_state) < PATTERN_COUNT
  /\ switch_case (currentPattern (begin_run initial_state)) <> CaseDefault.
Proof.
  apply (@C10_pattern_valid Reference.platform).
  apply reachable_begin_run. apply reach_init.
Defined.

(** ** Range of the random walk *)

Lemma randomWalkValue_between {P : Platform} (st : State) :
  reachable st -> SFbetween 0 100 (randomWalkValue st) = true.
Proof.
  intros H. induction H as [|st st' _ IH Hs]; [reflexivity|].
  destruct Hs as [st | st | st | st i n g]; try exact IH; [reflexivity|].
  unfold generateSample.
  destruct (switch_case (currentPattern st));
    repeat match goal with
           | |- context [random ?a ?b ?g] => destruct (random a b g)
           end;
    cbn [fst snd]; try exact IH.
  cbn [set_randomWalkValue randomWalkValue].
  apply clamp_between.
  - apply float_add_assign_not_nan; [exact IH | apply noise_not_nan].
  - apply to_float_valid.
Qed.

(** C1: in every state the program reaches, [randomWalkValue] is a
    number in [0, 100]; a RandomWalk sample is the clamped sum of the
    stored value and the noise, whatever integer was drawn, it is stored
    before it is returned, and it is a number in [0, 100]. *)
Theorem C1_random_walk_range {P : Platform} (st : State) :
  reachable st ->
  (Fmt.is_finite (randomWalkValue st) = true
   /\ (0 <= SF2Q (randomWalkValue st) <= 100)%Q)
  /\ forall i n g,
      switch_case (currentPattern st) = CaseRandomWalk ->
      let r := generateSample i n st g in
      let v := fst (fst r) in
      v = clamp (float_add_assign (randomWalkValue st)
                   (noise (fst (random (-200) 200 g))))
      /\ randomWalkValue (snd (fst r)) = v
      /\ Fmt.is_finite v = true
      /\ (0 <= SF2Q v <= 100)%Q.
Proof.
  intros H. split.
  - apply (SFbetween_Q 0 100). now apply randomWalkValue_between.
  - intros i n g Hc r v.
    assert (Hr : reachable (snd (fst r))).
    { eapply reach_step; [exact H | apply step_sample]. }
    apply randomWalkValue_between in Hr.
    subst v r. revert Hr. unfold generateSample. rewrite Hc.
    destruct (random (-200) 200 g) as [d g'].
    cbn [fst snd set_randomWalkValue randomWalkValue].
    intros Hr. apply (SFbetween_Q 0 100) in Hr. tauto.
Qed.

Lemma C1_witness :
  let st := begin_run (begin_run initial_state) in
  (Fmt.is_finite (randomWalkValue st) = true
   /\ (0 <= SF2Q (randomWalkValue st) <= 100)%Q)
  /\ forall i n g,
      switch_case (currentPattern st) = CaseRandomWalk ->
      let r := @generateSample Reference.platform i n st g in
      let v := fst (fst r) in
      v = clamp (float_add_assign (randomWalkValue st)
                   (noise (fst (Reference.random_long (-200) 200 g))))
      /\ randomWalkValue (snd (fst r)) = v
      /\ Fmt.is_finite v = true
      /\ (0 <= SF2Q v <= 100)%Q.
Proof.
  apply (@C1_random_walk_range Reference.platform).
  apply reachable_begin_run, reachable_begin_run, reach_init.
Defined.

(** The scenarios of the random walk: draws of +200, -100, +200 from
    50 give 52, 51, 53, and a walk driven below zero is stored as 0. *)
Example random_walk_scenarios :
  let step x r := clamp (float_add_assign x (noise r)) in
  let x0 := to_float (double_lit 50) in
  let x1 := step x0 200 in
  let x2 := step x1 (-100) in
  let x3 := step x2 200 in
  (SF2Q x1 == 52)%Q /\ (SF2Q x2 == 51)%Q /\ (SF2Q x3 == 53)%Q
  /\ step (float_of_int 1) (-400) = float_of_int 0.
Proof. vm_compute. repeat split. Qed.

(** ** Noise draws *)

Lemma reference_random_in_range : random_in_range Reference.platform.
Proof.
  intros lo hi g H. cbn [random Reference.platform].
  unfold Reference.random_long.
  destruct (Z.leb_spec hi lo); cbn [fst]; [lia|].
  pose proof (Z.mod_pos_bound (Reference.raw (Reference.next g)) (hi - lo)).
  lia.
Qed.



(** ** The sine pattern *)

(** C5, as stated: the value before noise equals
    [50 + 45 * sin(2 pi i / N)].  With [N = 100] and [i = 50] the position
    is exactly one half and the formula gives [50 + 45 * sin(pi) = 50].  The
    angle of the code is the [float] nearest to pi, which is above pi by
    about 8.74e-8; its sine is about -8.74e-8, and the value is the next
    [float] below 50. *)
Lemma C5_counterexample :
  let i := 50 in
  let n := 100 in
  let t := position i n in
  let s := Reference.sin_taylor (to_double (sine_angle t)) in
  0 <= i < n
  /\ (SF2Q t == 1 # 2)%Q
  /\ sine_angle t = S754_finite false 13176795 (-22)
  /\ (pi_20 < SF2Q (sine_angle t) < pi_20 + (1 # 10 ^ 7))%Q
  /\ (- (1 # 10 ^ 7) < SF2Q s < - (8 # 10 ^ 8))%Q
  /\ (SF2Q (@sine_raw Reference.platform t) == 50 - (1 # 2 ^ 18))%Q
  /\ ~ (SF2Q (@sine_raw Reference.platform t) == 50)%Q.
Proof.
  vm_compute. repeat split; try discriminate.
Qed.

(** C5, amended: for every index [i < N] and every total [N] of the
    type, when [sin] returns a number in [-1, 1] for the angle of the
    sample.  The position is within 2^-21 of [i / N]; the angle is within
    2^-18 of [2 pi i / N], where pi is any number within 2^-40 of its first
    twenty decimal places; for [N <= 2^24], where both arguments convert
    exactly, the two bounds are 2^-25 and 2^-21.  The value before noise is
    within 2^-17 of [50 + 45 s], where [s] is the sine returned for that
    angle; it is a number in [5, 95]; and the sample is that value plus the
    noise, with no clamping. *)
Theorem C5_sine_before_noise {P : Platform} (i n : Z) (p : Q) :
  0 <= i -> i < n -> n < 2 ^ 32 ->
  (Qabs (p - pi_20) <= 1 # 2 ^ 40)%Q ->
  let q := (inject_Z i / inject_Z n)%Q in
  let t := position i n in
  let angle := sine_angle t in
  let s := sin (to_double angle) in
  Fmt.is_finite s = true -> (-1 <= SF2Q s <= 1)%Q ->
  (Qabs (SF2Q t - q) <= 1 # 2 ^ 21)%Q
  /\ (Qabs (SF2Q angle - 2 * p * q) <= 1 # 2 ^ 18)%Q
  /\ (n <= 2 ^ 24 ->
      (Qabs (SF2Q t - q) <= 1 # 2 ^ 25)%Q
      /\ (Qabs (SF2Q angle - 2 * p * q) <= 1 # 2 ^ 21)%Q)
  /\ Fmt.is_finite (sine_raw t) = true
  /\ (Qabs (SF2Q (sine_raw t) - (50 + 45 * SF2Q s)) <= 1 # 2 ^ 17)%Q
  /\ (5 <= SF2Q (sine_raw t) <= 95)%Q
  /\ forall st g,
      switch_case (currentPattern st) = CaseSine ->
      fst (fst (generateSample i n st g))
      = float_add_assign (sine_raw t) (noise (fst (random (-500) 500 g))).
Proof.
  intros Hi Hin Hn Hp q t angle s Hfs Hs.
  destruct (position_error_wide i n Hi Hin Hn) as (Hf & Ht & [H0 H1] & Hh).
  destruct (Qdiv_int_bounds i n Hi Hin) as [Hq0 Hq1]. fold q in Hq0, Hq1, Ht.
  fold t in Hf, Ht, H0, H1, Hh.
  assert (Hq : (0 <= q <= 1)%Q) by lra.
  destruct (sine_raw_error t Hfs Hs) as [Hfr Her].
  split; [exact Ht|]. split; [|split; [|split; [|split; [|split]]]].
  - pose proof (sine_angle_near t q p _ Hf Hh H1 Hq Ht Hp) as Ha.
    eapply Qle_trans; [exact Ha|]. vm_compute. discriminate.
  - intros Hn24.
    destruct (position_error i n Hi Hin Hn24) as (_ & Ht' & _ & _).
    fold q t in Ht'. split; [exact Ht'|].
    pose proof (sine_angle_near t q p _ Hf Hh H1 Hq Ht' Hp) as Ha.
    eapply Qle_trans; [exact Ha|]. vm_compute. discriminate.
  - exact Hfr.
  - exact Her.
  - assert (Hb : SFbetween (-1) 1 s = true) by (apply SFbetween_Q; tauto).
    apply sine_value_between in Hb. apply (SFbetween_Q 5 95) in Hb.
    apply Hb.
  - intros st g Hc. unfold generateSample. rewrite Hc.
    destruct (random (-500) 500 g) as [d g']. reflexivity.
Qed.

Lemma C5_witness :
  let t := position 10 100 in
  (Qabs (SF2Q t - (1 # 10)) <= 1 # 2 ^ 25)%Q
  /\ (Qabs (SF2Q (@sine_raw Reference.platform t)
            - (50 + 45 * SF2Q (Reference.sin_taylor
                                 (to_double (sine_angle t)))))
      <= 1 # 2 ^ 17)%Q
  /\ (5 <= SF2Q (@sine_raw Reference.platform t) <= 95)%Q.
Proof.
  assert (Hf : Fmt.is_finite
                 (Reference.sin_taylor (to_double (sine_angle (position 10 100))))
               = true) by (vm_compute; reflexivity).
  assert (Hq : (-1 <= SF2Q (Reference.sin_taylor
                              (to_double (sine_angle (position 10 100)))) <= 1)%Q)
    by (vm_compute; split; discriminate).
  assert (Hp : (Qabs (pi_20 - pi_20) <= 1 # 2 ^ 40)%Q)
    by (vm_compute; discriminate).
  pose proof (@C5_sine_before_noise Reference.platform 10 100 pi_20
                ltac:(lia) ltac:(lia) ltac:(reflexivity) Hp Hf Hq)
    as (_ & _ & H24 & _ & He & Hb & _).
  destruct (H24 ltac:(vm_compute; discriminate)) as [Ht _].
  split; [|split]; assumption.
Defined.

(** ** The peak of the sine *)

(** A valid [double] within 2^-43 of one is one itself or one of the
    1024 doubles just below it. *)
Lemma near_one s :
  valid_binary 53 1024 s = true ->
  (1 - (1 # 2 ^ 43) <= SF2Q s <= 1)%Q ->
  s = S754_finite false (2 ^ 52) (-52)
  \/ exists k, 0 <= k < 1024
               /\ s = S754_finite false (Z.to_pos (2 ^ 53 - 1 - k)) (-53).
Proof.
  intros Hv [Hlo Hhi].
  destruct s as [sg|sg| |sg m e];
    try (exfalso; apply Hlo; reflexivity).
  unfold Qle in Hlo, Hhi. cbn [SF2Q] in Hlo, Hhi.
  cbn [valid_binary] in Hv. unfold bounded, canonical_mantissa in Hv.
  apply andb_true_iff in Hv. destruct Hv as [Hc _]. apply Z.eqb_eq in Hc.
  unfold fexp, emin in Hc.
  pose proof (Rounding.digits2_lower m) as Hd1.
  pose proof (Rounding.digits2_upper m) as Hd2.
  set (D := Zpos (digits2_pos m)) in *.
  assert (HD : 0 < D) by (unfold D; lia).
  change (Qnum (1 - (1 # 2 ^ 43))) with 8796093022207 in Hlo.
  change (Qden (1 - (1 # 2 ^ 43))) with (8796093022208%positive) in Hlo.
  change (Qnum 1) with 1 in Hhi. change (Qden 1) with 1%positive in Hhi.
  assert (Hsg : sg = false).
  { destruct sg; [exfalso | reflexivity].
    destruct e; cbn [Qnum Qden inject_Z cond_Zopp] in Hlo;
      try (assert (0 < 2 ^ Zpos p) by (apply Z.pow_pos_nonneg; lia)); nia. }
  subst sg. cbn [cond_Zopp] in Hlo, Hhi.
  destruct e as [|p|p]; cbn [Qnum Qden inject_Z] in Hlo, Hhi.
  - exfalso. assert (D = 1); [|lia].
    assert (Zpos m = 1) by lia.
    unfold D. replace m with 1%positive by lia. reflexivity.
  - exfalso.
    assert (2 <= 2 ^ Zpos p).
    { change 2 with (2 ^ 1) at 1. apply Z.pow_le_mono_r; lia. }
    nia.
  - rewrite Pos2Z.inj_pow in Hlo, Hhi.
    change (Zpos 2) with 2 in *.
    set (E := Zpos p) in *.
    assert (HE : 0 < E) by (unfold E; lia).
    change (Zneg p) with (- E) in Hc.
    assert (HP : 0 < 2 ^ E) by (apply Z.pow_pos_nonneg; lia).
    assert (H1 : D - 1 <= E).
    { apply (Z.pow_le_mono_r_iff 2); lia. }
    assert (H2 : E <= D).
    { destruct (Z_le_gt_dec E D) as [|Hgt]; [assumption | exfalso].
      assert (2 ^ D * 2 <= 2 ^ E).
      { rewrite Z.mul_comm, <- Z.pow_succ_r by lia.
        apply Z.pow_le_mono_r; lia. }
      nia. }
    assert (Hcase : (D = E + 1 /\ E = 52) \/ (D = E /\ E = 53)) by lia.
    destruct Hcase as [[HDE HE52] | [HDE HE53]].
    + left. rewrite HDE, HE52 in *.
      change (2 ^ (52 + 1 - 1)) with 4503599627370496 in Hd1.
      change (2 ^ 52) with 4503599627370496 in Hhi.
      assert (Zpos m = 4503599627370496) by lia.
      assert (p = 52%positive) by (apply Pos2Z.inj; exact HE52).
      subst p. f_equal. apply Pos2Z.inj. exact H.
    + right. rewrite HDE, HE53 in *.
      change (2 ^ 53) with 9007199254740992 in *.
      exists (9007199254740992 - 1 - Zpos m). split; [lia|].
      assert (p = 53%positive) by (apply Pos2Z.inj; exact HE53).
      subst p. f_equal.
      replace (9007199254740992 - 1 - (9007199254740992 - 1 - Zpos m))
        with (Zpos m) by lia.
      reflexivity.
Qed.

Lemma sine_peak_exact s :
  valid_binary 53 1024 s = true ->
  (1 - (1 # 2 ^ 43) <= SF2Q s <= 1)%Q ->
  to_float (Fmt.add f64 (double_lit 50) (Fmt.mul f64 (double_lit 45) s))
  = float_of_int 95.
Proof.
  intros Hv Hq. destruct (near_one s Hv Hq) as [-> | (k & Hk & ->)].
  - vm_compute. reflexivity.
  - apply SFsame_eq.
    apply (forall_Zrange
             (fun k =>
                SFsame
                  (to_float
                     (Fmt.add f64 (double_lit 50)
                        (Fmt.mul f64 (double_lit 45)
                           (S754_finite false (Z.to_pos (2 ^ 53 - 1 - k))
                              (-53)))))
                  (float_of_int 95))
             0 (Z.to_nat 1024));
      [vm_compute; reflexivity | lia].
Qed.

(** C8: with 100 samples, index 25 is the position 1/4 and the angle is
    the [float] nearest to pi/2; whenever [sin] returns, for that angle, a
    [double] within 2^-43 of one, the value before noise is exactly 95. *)
Theorem C8_sine_peak {P : Platform} :
  let t := position 25 100 in
  let s := sin (to_double (sine_angle t)) in
  valid_binary 53 1024 s = true ->
  (1 - (1 # 2 ^ 43) <= SF2Q s <= 1)%Q ->
  (SF2Q t == 1 # 4)%Q
  /\ sine_angle t = S754_finite false 13176795 (-23)
  /\ sine_raw t = float_of_int 95
  /\ (SF2Q (sine_raw t) == 95)%Q.
Proof.
  intros t s Hv Hq.
  assert (H : sine_raw t = float_of_int 95).
  { unfold sine_raw. fold s. apply sine_peak_exact; assumption. }
  repeat split; try exact H.
  rewrite H. reflexivity.
Qed.

Lemma C8_witness :
  @sine_raw Reference.platform (position 25 100) = float_of_int 95.
Proof.
  assert (Hv : valid_binary 53 1024
                 (Reference.sin_taylor
                    (to_double (sine_angle (position 25 100)))) = true)
    by (vm_compute; reflexivity).
  assert (Hq : (1 - (1 # 2 ^ 43)
                <= SF2Q (Reference.sin_taylor
                           (to_double (sine_angle (position 25 100)))) <= 1)%Q)
    by (vm_compute; split; discriminate).
  apply (@C8_sine_peak Reference.platform Hv Hq).
Defined.

(** ** The ramp pattern *)

(** C6, as stated, for every total [N > 0]: the value before noise
    equals [100 * i / N] and is below 100 at the last index.  With
    [N = 100] and [i = 15] the value is [15 + 2^-20]; with [N = 2^24 + 1]
    the index [N - 1] and [N] convert to the same [float], the position is
    1 and the value is exactly 100. *)
Lemma C6_counterexample :
  (0 <= 15 < 100
   /\ (SF2Q (ramp_raw (position 15 100)) == 15 + (1 # 2 ^ 20))%Q
   /\ ~ (SF2Q (ramp_raw (position 15 100)) == 100 * 15 / 100)%Q)
  /\ let n := 16777217 in
     let i := n - 1 in
     0 <= i < n
     /\ (SF2Q (position i n) == 1)%Q
     /\ (SF2Q (ramp_raw (position i n)) == 100)%Q
     /\ ~ (SF2Q (ramp_raw (position i n)) < 100)%Q.
Proof.
  vm_compute. repeat split; discriminate.
Qed.

(** C6, amended: for all indices [i <= j < N] and every total [N] of
    the type, the value before noise is a number in [0, 100], within 2^-14
    of [100 i / N]; it does not decrease with the index; and it is 0 at
    index 0.  For [N <= 2^24], where both arguments convert exactly, it is
    within 2^-17 of [100 i / N], and at the last index it is at most
    [100 - 2^-17], the largest [float] below 100.  The sample is that value
    plus the noise, with no clamping. *)
Theorem C6_ramp_before_noise {P : Platform} (i j n : Z) :
  0 <= i -> i <= j -> j < n -> n < 2 ^ 32 ->
  let v k := ramp_raw (position k n) in
  Fmt.is_finite (v i) = true
  /\ (Qabs (SF2Q (v i) - 100 * (inject_Z i / inject_Z n)) <= 1 # 2 ^ 14)%Q
  /\ (SF2Q (v i) <= SF2Q (v j))%Q
  /\ (SF2Q (v 0%Z) == 0)%Q
  /\ (0 <= SF2Q (v i) <= 100)%Q
  /\ (n <= 2 ^ 24 ->
      (Qabs (SF2Q (v i) - 100 * (inject_Z i / inject_Z n)) <= 1 # 2 ^ 17)%Q
      /\ (SF2Q (v (n - 1)%Z) <= 100 - (1 # 2 ^ 17))%Q)
  /\ forall st g,
      switch_case (currentPattern st) = CaseRamp ->
      fst (fst (generateSample i n st g))
      = float_add_assign (v i) (noise (fst (random (-200) 200 g))).
Proof.
  intros Hi Hij Hjn Hn v. unfold v.
  destruct (ramp_raw_facts i n Hi ltac:(lia) Hn) as (Hri & Hbi & Hei).
  destruct (ramp_raw_facts j n ltac:(lia) Hjn Hn) as (Hrj & _ & _).
  destruct (ramp_raw_facts 0 n ltac:(lia) ltac:(lia) Hn) as (Hr0 & _ & _).
  destruct (position_error_wide i n Hi ltac:(lia) Hn) as (_ & Hti & _ & _).
  destruct (position_error_wide 0 n ltac:(lia) ltac:(lia) Hn)
    as (_ & _ & [H00 _] & _).
  apply Qabs_le_iff in Hei. apply Qabs_le_iff in Hti.
  change (1 # 2 ^ 18)%Q with (1 # 262144)%Q in Hei.
  change (1 # 2 ^ 21)%Q with (1 # 2097152)%Q in Hti.
  split; [apply Hri|]. split; [|split; [|split; [|split; [|split]]]].
  - apply Qabs_le_iff. change (1 # 2 ^ 14)%Q with (1 # 16384)%Q. split; lra.
  - apply (rounding_mono 24 128 ltac:(lia) _ _ _ _ Hri Hrj).
    pose proof (position_mono i j n Hi Hij ltac:(lia) ltac:(lia)). lra.
  - assert (E0 : (SF2Q (position 0 n) == 0)%Q).
    { apply Qle_antisym; [|exact H00].
      apply (rounding_le 24 128 ltac:(lia) _ _ 0
               (position_rounding 0 n ltac:(lia) ltac:(lia))).
      - exists 0, 0. repeat split; cbv; congruence.
      - change (float_of_ulong 0) with (S754_zero false). cbn [SF2Q].
        unfold Qdiv. rewrite Qmult_0_l. lra. }
    assert (Hr0' : rounding_of 24 128 0 (ramp_raw (position 0 n))).
    { apply (rounding_of_eq 24 128 (100 * SF2Q (position 0 n)));
        [rewrite E0; ring | exact Hr0]. }
    apply (rounding_exact 24 128 ltac:(lia) _ _ Hr0').
    exists 0, 0. repeat split; cbv; congruence.
  - exact Hbi.
  - intros Hn24. split.
    + destruct (position_error i n Hi ltac:(lia) Hn24) as (_ & Hti' & _ & _).
      apply Qabs_le_iff in Hti'.
      change (1 # 2 ^ 25)%Q with (1 # 33554432)%Q in Hti'.
      apply Qabs_le_iff. change (1 # 2 ^ 17)%Q with (1 # 131072)%Q.
      split; lra.
    + destruct (ramp_raw_facts (n - 1) n ltac:(lia) ltac:(lia) Hn)
        as ([_ Hrl] & _ & _).
      destruct (position_error (n - 1) n ltac:(lia) ltac:(lia) Hn24)
        as (_ & _ & [_ Hl] & _).
      apply (rounds_mono 24 128 ltac:(lia) _ _ _ _ Hrl ramp_below_hundred).
      lra.
  - intros st g Hc. unfold generateSample. rewrite Hc.
    destruct (random (-200) 200 g) as [d g']. reflexivity.
Qed.

Lemma C6_witness :
  (SF2Q (ramp_raw (position 15 100)) <= SF2Q (ramp_raw (position 60 100)))%Q
  /\ (Qabs (SF2Q (ramp_raw (position 15 100)) - 100 * (15 / 100)) <= 1 # 2 ^ 17)%Q
  /\ (SF2Q (ramp_raw (position 99 100)) <= 100 - (1 # 2 ^ 17))%Q.
Proof.
  pose proof (@C6_ramp_before_noise Reference.platform 15 60 100
                ltac:(lia) ltac:(lia) ltac:(lia) ltac:(reflexivity))
    as (_ & _ & Hm & _ & _ & H24 & _).
  destruct (H24 ltac:(vm_compute; discriminate)) as [He Hl].
  split; [exact Hm|]. split; [exact He | exact Hl].
Defined.

(** With the total the runner passes, [SAMPLES_PER_TEST], the value
    before noise is within 2^-18 of [i], and it is 99 at the last
    index. *)
Lemma ramp_standard_run (i : Z) :
  0 <= i < SAMPLES_PER_TEST ->
  let v k := ramp_raw (position k SAMPLES_PER_TEST) in
  (Qabs (SF2Q (v i) - inject_Z i) <= 1 # 2 ^ 18)%Q
  /\ (SF2Q (v (SAMPLES_PER_TEST - 1)%Z) == 99)%Q.
Proof.
  intros Hi v. unfold SAMPLES_PER_TEST in Hi. split; [|reflexivity].
  apply Qle_bool_iff.
  apply (forall_Zrange
           (fun k => Qle_bool
                       (Qabs (SF2Q (ramp_raw (position k 100)) - inject_Z k))
                       (1 # 2 ^ 18))
           0 100); [vm_compute; reflexivity | lia].
Qed.

(** At indices 15 and 60 the value before noise is one unit in the last
    place above the index; at index 50 it is exactly 50. *)
Example ramp_rounding :
  (SF2Q (ramp_raw (position 15 100)) == 15 + (1 # 2 ^ 20))%Q
  /\ (SF2Q (ramp_raw (position 60 100)) == 60 + (1 # 2 ^ 18))%Q
  /\ (SF2Q (ramp_raw (position 50 100)) == 50)%Q.
Proof. vm_compute. repeat split. Qed.

(** ** The wire format *)

Module PrintFacts.

Import Print.
Local Open Scope string_scope.

Lemma length_snoc s c :
  String.length (s ++ String c EmptyString) = S (String.length s).
Proof. induction s as [|a s IH]; simpl; congruence. Qed.

Lemma all_digits_app s1 s2 :
  all_digits (s1 ++ s2) = all_digits s1 && all_digits s2.
Proof.
  induction s1 as [|a s1 IH]; simpl; [reflexivity|].
  rewrite IH. apply andb_assoc.
Qed.

Lemma digit_char_is_digit d : is_digit (digit_char d) = true.
Proof.
  unfold is_digit, digit_char.
  pose proof (Z.mod_pos_bound d 10 ltac:(lia)) as H.
  rewrite nat_ascii_embedding by lia.
  apply andb_true_iff. split; apply Nat.leb_le; lia.
Qed.

Lemma all_digits_digit d :
  all_digits (String (digit_char d) EmptyString) = true.
Proof.
  cbn [all_digits]. rewrite digit_char_is_digit. reflexivity.
Qed.

Lemma padded_length k : forall n, String.length (padded k n) = k.
Proof.
  induction k as [|k IH]; intros n; cbn [padded]; [reflexivity|].
  rewrite length_snoc, IH. reflexivity.
Qed.

Lemma padded_digits k : forall n, all_digits (padded k n) = true.
Proof.
  induction k as [|k IH]; intros n; cbn [padded]; [reflexivity|].
  rewrite all_digits_app, IH, all_digits_digit. reflexivity.
Qed.

Lemma decimal_digits fuel : forall n, all_digits (decimal fuel n) = true.
Proof.
  induction fuel as [|fuel IH]; intros n; cbn [decimal].
  - apply all_digits_digit.
  - destruct (n <? 10)%Z.
    + apply all_digits_digit.
    + rewrite all_digits_app, IH, all_digits_digit. reflexivity.
Qed.

Lemma decimal_nonempty fuel n : decimal fuel n <> EmptyString.
Proof.
  destruct fuel as [|fuel]; cbn [decimal]; [discriminate|].
  destruct (n <? 10)%Z; [discriminate|].
  destruct (decimal fuel (n / 10)); discriminate.
Qed.

(** Every number is printed as a line of the wire format. *)
Lemma println_fixed x digits :
  Fmt.is_finite x = true -> is_fixed_line digits (println x digits).
Proof.
  intros Hx. destruct x as [s|s| |s m e]; try discriminate Hx.
  - exists EmptyString, "0", (padded digits 0). repeat split.
    + now left.
    + discriminate.
    + apply padded_length.
    + apply padded_digits.
  - cbn [println].
    exists (if s then "-" else EmptyString),
           (natural (scaled digits m e / 10 ^ Z.of_nat digits)),
           (padded digits (scaled digits m e mod 10 ^ Z.of_nat digits)).
    repeat split.
    + destruct s; [now right | now left].
    + apply decimal_nonempty.
    + apply decimal_digits.
    + apply padded_length.
    + apply padded_digits.
Qed.

End PrintFacts.

(** ** The samples of a run *)

Lemma float_add_assign_between a b c d x y :
  - 2 ^ 24 < a -> b < 2 ^ 24 -> - 2 ^ 24 < a + c -> b + d < 2 ^ 24 ->
  SFbetween a b x = true -> SFbetween c d y = true ->
  SFbetween (a + c) (b + d) (float_add_assign x y) = true.
Proof.
  change (2 ^ 24) with 16777216. intros Ha Hb Hac Hbd Hx Hy.
  assert (H53 : 16777216 < 2 ^ 53) by reflexivity.
  unfold float_add_assign.
  apply to_float_between; [exact Hac | exact Hbd |].
  apply double_add_between; [lia | lia | | exact Hy].
  apply to_double_between; [lia | lia | exact Hx].
Qed.

Lemma ramp_between i :
  0 <= i < SAMPLES_PER_TEST ->
  SFbetween 0 99 (ramp_raw (position i SAMPLES_PER_TEST)) = true.
Proof.
  unfold SAMPLES_PER_TEST. intros H.
  apply (forall_Zrange (fun i => SFbetween 0 99 (ramp_raw (position i 100)))
           0 100); [vm_compute; reflexivity | lia].
Qed.

Section Run.

Context {P : Platform}.
Hypothesis random_ok : random_in_range P.
Hypothesis sine_ok : sine_in_range P.

(** Every sample of a run is a number in [-2, 101], and the stored
    random-walk value stays in [0, 100]. *)
Lemma sample_between i st g :
  0 <= i < SAMPLES_PER_TEST ->
  SFbetween 0 100 (randomWalkValue st) = true ->
  let r := generateSample i SAMPLES_PER_TEST st g in
  SFbetween (-2) 101 (fst (fst r)) = true
  /\ SFbetween 0 100 (randomWalkValue (snd (fst r))) = true.
Proof.
  intros Hi Hw. unfold generateSample.
  destruct (switch_case (currentPattern st)).
  - pose proof (random_ok (-500) 500 g ltac:(lia)) as Hd.
    destruct (random (-500) 500 g) as [d g']. cbn [fst snd] in *.
    split; [|exact Hw].
    apply (Rounding.SFbetween_weaken (5 + -5) (95 + 5)); [|lia|lia].
    apply float_add_assign_between; try reflexivity.
    + apply sine_value_between, sine_ok, Hi.
    + apply noise_between_5, Hd.
  - pose proof (random_ok (-200) 200 g ltac:(lia)) as Hd.
    destruct (random (-200) 200 g) as [d g']. cbn [fst snd] in *.
    split; [|exact Hw].
    apply (Rounding.SFbetween_weaken (0 + -2) (99 + 2)); [|lia|lia].
    apply float_add_assign_between; try reflexivity.
    + apply ramp_between, Hi.
    + apply noise_between_2, Hd.
  - destruct (random (-200) 200 g) as [d g'].
    cbn [fst snd set_randomWalkValue randomWalkValue].
    assert (Hc : SFbetween 0 100
                   (clamp (float_add_assign (randomWalkValue st) (noise d)))
                 = true).
    { apply clamp_between; [|apply to_float_valid].
      apply float_add_assign_not_nan; [exact Hw | apply noise_not_nan]. }
    split; [|exact Hc].
    eapply Rounding.SFbetween_weaken; [exact Hc | lia | lia].
  - cbn [fst snd]. split; [reflexivity | exact Hw].
Qed.

Lemma sample_values_between n : forall i st g,
  0 <= i -> i + Z.of_nat n <= SAMPLES_PER_TEST ->
  SFbetween 0 100 (randomWalkValue st) = true ->
  Forall (fun v => SFbetween (-2) 101 v = true) (sample_values n i st g).
Proof.
  induction n as [|n IH]; intros i st g Hi Hn Hw; cbn [sample_values].
  - constructor.
  - pose proof (sample_between i st g ltac:(lia) Hw) as Hs.
    destruct (generateSample i SAMPLES_PER_TEST st g) as [[v st'] g'].
    cbn [fst snd] in Hs. destruct Hs as [Hv Hw'].
    constructor; [exact Hv|].
    apply IH; [lia | lia | exact Hw'].
Qed.

End Run.

Lemma sample_values_length {P : Platform} n : forall i st g,
  List.length (sample_values n i st g) = n.
Proof.
  induction n as [|n IH]; intros i st g; cbn [sample_values]; [reflexivity|].
  destruct (generateSample i SAMPLES_PER_TEST st g) as [[v st'] g'].
  cbn [List.length]. now rewrite IH.
Qed.

Lemma serial_lines_app out1 out2 :
  serial_lines (out1 ++ out2) = serial_lines out1 ++ serial_lines out2.
Proof.
  induction out1 as [|[t|t|h|ms] out1 IH]; cbn [serial_lines app];
    rewrite ?IH; reflexivity.
Qed.

Lemma usb_lines_app out1 out2 :
  usb_lines (out1 ++ out2) = usb_lines out1 ++ usb_lines out2.
Proof.
  induction out1 as [|[t|t|h|ms] out1 IH]; cbn [usb_lines app];
    rewrite ?IH; reflexivity.
Qed.

(** Each iteration writes the line of its sample once to each channel. *)
Lemma sample_loop_lines {P : Platform} n : forall i st g,
  let out := output_of (sample_loop n i st g) in
  let lines :=
    map (fun v => Print.println (to_double v) 6) (sample_values n i st g) in
  serial_lines out = lines /\ usb_lines out = lines.
Proof.
  induction n as [|n IH]; intros i st g;
    cbn [sample_loop sample_values]; [split; reflexivity|].
  unfold sample_step.
  destruct (generateSample i SAMPLES_PER_TEST st g) as [[v st1] g1].
  specialize (IH (i + 1) st1 g1).
  destruct (sample_loop n (i + 1) st1 g1) as [[st2 g2] out2].
  unfold output_of in *. cbn [snd] in *.
  cbn [map app serial_lines usb_lines].
  destruct IH as [IH1 IH2]. rewrite IH1, IH2. split; reflexivity.
Qed.

(** C3: a run writes, for each of its samples in order, the same line
    to both channels and nothing else to either; with a random source
    that keeps to its range and a sine in [-1, 1], every sample is a
    number, and its line is an optional sign, the integer digits, a point,
    exactly 6 digits and a newline. *)
Theorem C3_wire_format {P : Platform} (st : State) (g : rng) :
  random_in_range P -> sine_in_range P ->
  let out := output_of (runTest st g) in
  let values :=
    sample_values (Z.to_nat SAMPLES_PER_TEST) 0 (begin_run st) g in
  serial_lines out = map (fun v => Print.println (to_double v) 6) values
  /\ usb_lines out = serial_lines out
  /\ List.length values = Z.to_nat SAMPLES_PER_TEST
  /\ Forall (fun v => Fmt.is_finite v = true) values
  /\ Forall (Print.is_fixed_line 6) (serial_lines out).
Proof.
  intros Hr Hs out values.
  pose proof (sample_loop_lines (Z.to_nat SAMPLES_PER_TEST) 0 (begin_run st) g)
    as Hl.
  assert (Hout : serial_lines out
                 = map (fun v => Print.println (to_double v) 6) values
                 /\ usb_lines out
                    = map (fun v => Print.println (to_double v) 6) values).
  { subst out values. unfold runTest.
    destruct (sample_loop _ 0 (begin_run st) g) as [[st' g'] o].
    unfold output_of in *. cbn [snd] in *.
    rewrite serial_lines_app, usb_lines_app.
    cbn [serial_lines usb_lines]. rewrite !app_nil_r. exact Hl. }
  destruct Hout as [H1 H2].
  assert (Hv : Forall (fun v => SFbetween (-2) 101 v = true) values).
  { apply sample_values_between; try assumption;
      [lia | unfold SAMPLES_PER_TEST; lia | reflexivity]. }
  repeat split.
  - exact H1.
  - now rewrite H1, H2.
  - apply sample_values_length.
  - eapply Forall_impl; [|exact Hv].
    intros v. apply SFbetween_is_finite.
  - rewrite H1. apply Forall_map.
    eapply Forall_impl; [|exact Hv].
    intros v Hb. apply PrintFacts.println_fixed.
    apply (SFbetween_is_finite (-2) 101).
    apply to_double_between; [reflexivity | reflexivity | exact Hb].
Qed.

Lemma reference_sine_in_range : sine_in_range Reference.platform.
Proof.
  intros i Hi. unfold SAMPLES_PER_TEST in *.
  apply (forall_Zrange
           (fun i => SFbetween (-1) 1
                       (Reference.sin_taylor
                          (to_double (sine_angle (position i 100)))))
           0 100); [vm_compute; reflexivity | lia].
Qed.

Lemma C3_witness :
  let out := output_of (@runTest Reference.platform initial_state 12345) in
  usb_lines out = serial_lines out
  /\ Forall (Print.is_fixed_line 6) (serial_lines out).
Proof.
  pose proof (@C3_wire_format Reference.platform initial_state 12345
                reference_random_in_range reference_sine_in_range) as H.
  split; apply H.
Defined.

(** The first lines of the first run on the reference platform, and the
    line of the interface description. *)
Example first_lines :
  firstn 2 (serial_lines
              (output_of (@runTest Reference.platform initial_state 12345)))
  = [("-0.860000" ++ Print.newline)%string;
     ("1.020000" ++ Print.newline)%string]
  /\ Print.is_fixed_line 6 ("52.384910" ++ Print.newline)%string.
Proof.
  split; [vm_compute; reflexivity|].
  exists EmptyString, "52"%string, "384910"%string. repeat split.
  - now left.
  - discriminate.
Qed.

(** * Further properties of the firmware *)

(** ** The startup wait *)

(** X1: how the wait for a serial connection ends.  It ends connected
    at the first poll that finds a port ready, timed out at the first poll
    that finds none ready and more than 5000 ms elapsed, and goes on
    otherwise; every poll before the last one found no port ready and at
    most 5000 ms elapsed (exactly 5000 ms is not a timeout). *)
Theorem X1_wait_outcome (startTime : Z) (polls : list Poll) :
  let w := fst (wait_for_serial startTime polls) in
  let k := snd (wait_for_serial startTime polls) in
  (forall j p, (j < k)%nat -> nth_error polls j = Some p ->
     serial_ready p = false /\ usb_ready p = false
     /\ elapsed startTime (clock p) <= STARTUP_TIMEOUT_MS)
  /\ match w with
     | Connected =>
         exists p, nth_error polls k = Some p
                   /\ (serial_ready p = true \/ usb_ready p = true)
     | TimedOut =>
         exists p, nth_error polls k = Some p
                   /\ serial_ready p = false /\ usb_ready p = false
                   /\ STARTUP_TIMEOUT_MS < elapsed startTime (clock p)
     | Pending => k = List.length polls
     end.
Proof.
  induction polls as [|p rest IH]; cbn [wait_for_serial].
  - cbn [fst snd]. split; [intros j p Hj; lia | reflexivity].
  - destruct (serial_ready p) eqn:Es; cbn [negb andb].
    { cbn [fst snd]. split; [intros j q Hj; lia|].
      exists p. split; [reflexivity | now left]. }
    destruct (usb_ready p) eqn:Eu; cbn [negb].
    { cbn [fst snd]. split; [intros j q Hj; lia|].
      exists p. split; [reflexivity | now right]. }
    destruct (Z.ltb_spec STARTUP_TIMEOUT_MS (elapsed startTime (clock p)))
      as [Ht | Ht].
    { cbn [fst snd]. split; [intros j q Hj; lia|].
      exists p. repeat split; assumption. }
    destruct (wait_for_serial startTime rest) as [w k]. cbn [fst snd] in *.
    destruct IH as [IH1 IH2]. split.
    + intros [|j] q Hj Hq; cbn [nth_error] in Hq.
      * injection Hq as <-. repeat split; assumption.
      * apply (IH1 j q); [lia | exact Hq].
    + destruct w; cbn [nth_error List.length]; [exact IH2 | exact IH2 | lia].
Qed.

(** X2: the wait is bounded by the clock, also across its wrap-around.
    If the poll of index [j] is taken [e] real milliseconds after the
    start, with [5000 < e < 2^32], the loop has ended at that poll or
    before, whatever the ports did and wherever the 32-bit clock stood
    at the start. *)
Theorem X2_wait_bounded (startTime : Z) (polls : list Poll)
        (j : nat) (p : Poll) (e : Z) :
  0 <= startTime < Word.modulus ->
  nth_error polls j = Some p ->
  STARTUP_TIMEOUT_MS < e < Word.modulus ->
  clock p = Word.wrap (startTime + e) ->
  elapsed startTime (clock p) = e
  /\ fst (wait_for_serial startTime polls) <> Pending
  /\ (snd (wait_for_serial startTime polls) <= j)%nat.
Proof.
  intros Hs Hp He Hc.
  assert (He0 : 0 <= e) by (unfold STARTUP_TIMEOUT_MS in He; lia).
  assert (Hel : elapsed startTime (clock p) = e).
  { unfold elapsed, Word.wrap in *. rewrite Hc.
    rewrite Zminus_mod_idemp_l.
    replace (startTime + e - startTime) with e by lia.
    apply Z.mod_small. lia. }
  split; [exact Hel|].
  revert j Hp. induction polls as [|q rest IH]; intros j Hp.
  - destruct j; discriminate Hp.
  - cbn [wait_for_serial].
    destruct (negb (serial_ready q) && negb (usb_ready q));
      [|cbn [fst snd]; split; [discriminate | lia]].
    destruct (Z.ltb_spec STARTUP_TIMEOUT_MS (elapsed startTime (clock q)))
      as [Ht | Ht]; [cbn [fst snd]; split; [discriminate | lia]|].
    destruct j as [|j]; cbn [nth_error] in Hp.
    + injection Hp as ->. lia.
    + specialize (IH j Hp).
      destruct (wait_for_serial startTime rest) as [w k]. cbn [fst snd] in *.
      split; [tauto | lia].
Qed.

Lemma X2_witness :
  let polls := [ {| serial_ready := false; usb_ready := false;
                    clock := 4294967000 |};
                 {| serial_ready := false; usb_ready := false;
                    clock := 4705 |} ] in
  elapsed 4294966000 4705 = 6001
  /\ fst (wait_for_serial 4294966000 polls) <> Pending
  /\ (snd (wait_for_serial 4294966000 polls) <= 1)%nat.
Proof.
  apply (X2_wait_bounded 4294966000 _ 1
           {| serial_ready := false; usb_ready := false; clock := 4705 |}
           6001).
  - unfold Word.modulus, Word.width. lia.
  - reflexivity.
  - unfold STARTUP_TIMEOUT_MS, Word.modulus, Word.width. lia.
  - reflexivity.
Defined.

(** ** Timing and the activity indicator *)

Lemma delays_app out1 out2 : delays (out1 ++ out2) = delays out1 + delays out2.
Proof.
  induction out1 as [|[t|t|h|ms] out1 IH]; cbn [delays app];
    rewrite ?IH; lia.
Qed.

Lemma led_states_app out1 out2 :
  led_states (out1 ++ out2) = led_states out1 ++ led_states out2.
Proof.
  induction out1 as [|[t|t|h|ms] out1 IH]; cbn [led_states app];
    rewrite ?IH; reflexivity.
Qed.

Lemma land_one_odd i : negb (Z.land i 1 =? 0) = Z.odd i.
Proof.
  change 1 with (Z.ones 1) at 1. rewrite Z.land_ones by lia.
  change (2 ^ 1) with 2. rewrite Zmod_odd.
  destruct (Z.odd i); reflexivity.
Qed.

Lemma Zrange_succ lo n : Zrange lo (S n) = lo :: Zrange (lo + 1) n.
Proof.
  unfold Zrange. cbn [seq map]. f_equal; [lia|].
  rewrite <- seq_shift, map_map. apply map_ext. intros k. lia.
Qed.

Section Traces.

Context {P : Platform}.

Lemma sample_loop_trace n : forall i st g,
  let out := output_of (sample_loop n i st g) in
  delays out = Z.of_nat n * SAMPLE_INTERVAL_MS
  /\ led_states out = map Z.odd (Zrange i n).
Proof.
  induction n as [|n IH]; intros i st g.
  - split; reflexivity.
  - cbn [sample_loop]. unfold sample_step.
    destruct (generateSample i SAMPLES_PER_TEST st g) as [[v st1] g1].
    specialize (IH (i + 1) st1 g1).
    destruct (sample_loop n (i + 1) st1 g1) as [[st2 g2] out2].
    unfold output_of in *. cbn [snd] in *. destruct IH as [IHd IHl].
    cbn [app delays led_states]. rewrite IHd, IHl, Zrange_succ, land_one_odd.
    split; [lia | reflexivity].
Qed.

Lemma runTest_trace st g :
  let out := output_of (runTest st g) in
  delays out = SAMPLES_PER_TEST * SAMPLE_INTERVAL_MS
  /\ led_states out
     = map Z.odd (Zrange 0 (Z.to_nat SAMPLES_PER_TEST)) ++ [false].
Proof.
  unfold runTest.
  pose proof (sample_loop_trace (Z.to_nat SAMPLES_PER_TEST) 0 (begin_run st) g)
    as H.
  destruct (sample_loop _ 0 (begin_run st) g) as [[st' g'] out].
  unfold output_of in *. cbn [snd] in *. destruct H as [Hd Hl].
  rewrite delays_app, led_states_app, Hd, Hl. cbn [delays led_states].
  split; [reflexivity | reflexivity].
Qed.

Lemma loop_output st g :
  output_of (loop st g)
  = output_of (runTest st g) ++ [EvDelay PAUSE_BETWEEN_TESTS_MS].
Proof.
  unfold loop. destruct (runTest st g) as [[st' g'] out]. reflexivity.
Qed.

Lemma loops_output n st g :
  output_of (loops (S n) st g)
  = output_of (loops n st g)
    ++ output_of (loop (state_of (loops n st g)) (snd (fst (loops n st g)))).
Proof.
  cbn [loops]. destruct (loops n st g) as [[st1 g1] out1].
  unfold state_of, output_of. cbn [fst snd].
  destruct (loop st1 g1) as [[st2 g2] out2]. reflexivity.
Qed.

End Traces.

(** X3: a run waits [SAMPLES_PER_TEST * SAMPLE_INTERVAL_MS] = 10000 ms
    in all and a call of [loop()] 12000 ms, whatever the pattern, the
    state and the draws; [n] calls wait [12000 * n] ms. *)
Theorem X3_waiting_time {P : Platform} (n : nat) (st : State) (g : rng) :
  delays (output_of (runTest st g)) = 10000
  /\ delays (output_of (loop st g)) = 12000
  /\ delays (output_of (loops n st g)) = 12000 * Z.of_nat n.
Proof.
  assert (Hrun : forall st g, delays (output_of (runTest st g)) = 10000).
  { intros st0 g0. now destruct (runTest_trace st0 g0) as [-> _]. }
  assert (Hloop : forall st g, delays (output_of (loop st g)) = 12000).
  { intros st0 g0. rewrite loop_output, delays_app, Hrun. reflexivity. }
  repeat split; [apply Hrun | apply Hloop |].
  induction n as [|n IH]; [reflexivity|].
  rewrite loops_output, delays_app, IH, Hloop. lia.
Qed.

(** X4: during a run the LED is written once per sample, high at the
    odd indices and low at the even ones, and once more, low, after the
    last sample. *)
Theorem X4_led_in_run {P : Platform} (st : State) (g : rng) :
  let leds := led_states (output_of (runTest st g)) in
  List.length leds = S (Z.to_nat SAMPLES_PER_TEST)
  /\ (forall i, 0 <= i < SAMPLES_PER_TEST ->
        nth_error leds (Z.to_nat i) = Some (Z.odd i))
  /\ nth_error leds (Z.to_nat SAMPLES_PER_TEST) = Some false.
Proof.
  intros leds. subst leds.
  pose proof (runTest_trace st g) as Ht. cbv zeta in Ht.
  destruct Ht as [_ Ht]. rewrite Ht. clear Ht.
  assert (Hlen : List.length (map Z.odd (Zrange 0 (Z.to_nat SAMPLES_PER_TEST)))
                 = Z.to_nat SAMPLES_PER_TEST).
  { unfold Zrange. now rewrite !List.length_map, List.length_seq. }
  split; [|split].
  - rewrite List.length_app, Hlen. cbn [List.length]. lia.
  - intros i Hi. rewrite nth_error_app1 by (rewrite Hlen; lia).
    unfold Zrange. rewrite map_map.
    rewrite nth_error_map, nth_error_seq.
    destruct (Nat.ltb_spec (Z.to_nat i) (Z.to_nat SAMPLES_PER_TEST)) as [_|Hge];
      [|lia].
    cbn [option_map]. do 2 f_equal. lia.
  - rewrite nth_error_app2 by (rewrite Hlen; lia).
    rewrite Hlen, Nat.sub_diag. reflexivity.
Qed.

Lemma X4_witness :
  nth_error
    (led_states (output_of (@runTest Reference.platform initial_state 1)))
    (Z.to_nat 7)
  = Some (Z.odd 7).
Proof.
  apply (@X4_led_in_run Reference.platform initial_state 1).
  unfold SAMPLES_PER_TEST. lia.
Defined.

Lemma setup_events_eq startTime polls :
  snd (setup startTime polls) = EvLed false :: startup_blink 3.
Proof.
  unfold setup. destruct (wait_for_serial startTime polls). reflexivity.
Qed.

Lemma loops_led_last {P : Platform} n st g :
  led_states (output_of (loops (S n) st g))
  = (led_states (output_of (loops n st g))
     ++ map Z.odd (Zrange 0 (Z.to_nat SAMPLES_PER_TEST))) ++ [false].
Proof.
  rewrite loops_output, led_states_app, loop_output, led_states_app.
  destruct (runTest_trace (state_of (loops n st g)) (snd (fst (loops n st g))))
    as [_ Hl].
  rewrite Hl. cbn [led_states]. rewrite app_nil_r, app_assoc. reflexivity.
Qed.

(** X5: the LED is never left on between tests: the last level written
    to it by [setup()] followed by any number of calls of [loop()] is
    low, however the startup wait went. *)
Theorem X5_led_off_between_tests {P : Platform} (startTime : Z)
        (polls : list Poll) (n : nat) (g : rng) :
  last (led_states (firmware startTime polls n g)) true = false.
Proof.
  unfold firmware. rewrite setup_events_eq, led_states_app.
  destruct n as [|n].
  - reflexivity.
  - rewrite loops_led_last, app_assoc. apply last_last.
Qed.

(** ** The two channels over the life of the program *)

Lemma runTest_lines {P : Platform} st g :
  let lines :=
    map (fun v => Print.println (to_double v) 6)
        (sample_values (Z.to_nat SAMPLES_PER_TEST) 0 (begin_run st) g) in
  serial_lines (output_of (runTest st g)) = lines
  /\ usb_lines (output_of (runTest st g)) = lines.
Proof.
  pose proof (sample_loop_lines (Z.to_nat SAMPLES_PER_TEST) 0 (begin_run st) g)
    as Hl.
  unfold runTest.
  destruct (sample_loop _ 0 (begin_run st) g) as [[st' g'] o].
  unfold output_of in *. cbn [snd] in *.
  rewrite serial_lines_app, usb_lines_app.
  cbn [serial_lines usb_lines]. rewrite !app_nil_r. exact Hl.
Qed.

Lemma loops_lines {P : Platform} n st g :
  let lines :=
    map (fun v => Print.println (to_double v) 6) (loops_values n st g) in
  serial_lines (output_of (loops n st g)) = lines
  /\ usb_lines (output_of (loops n st g)) = lines.
Proof.
  induction n as [|n IH]; [split; reflexivity|].
  cbv zeta in *. rewrite loops_output, loop_output.
  rewrite !serial_lines_app, !usb_lines_app.
  destruct IH as [IH1 IH2]. rewrite IH1, IH2.
  destruct (runTest_lines (state_of (loops n st g)) (snd (fst (loops n st g))))
    as [H1 H2].
  rewrite H1, H2. cbn [serial_lines usb_lines loops_values].
  rewrite !app_nil_r.
  destruct (loops n st g) as [[st1 g1] out1].
  unfold state_of. cbn [fst snd]. rewrite map_app. split; reflexivity.
Qed.

Lemma loops_values_length {P : Platform} n st g :
  List.length (loops_values n st g) = (n * Z.to_nat SAMPLES_PER_TEST)%nat.
Proof.
  induction n as [|n IH]; [reflexivity|].
  cbn [loops_values]. destruct (loops n st g) as [[st1 g1] out1].
  rewrite List.length_app, IH, sample_values_length. lia.
Qed.

(** X6: over [setup()] and any number of calls of [loop()], the two
    channels receive the same lines in the same order: one line for each
    generated sample, 100 for each call, and nothing from [setup()] or
    between the runs. *)
Theorem X6_channels_agree {P : Platform} (startTime : Z) (polls : list Poll)
        (n : nat) (g : rng) :
  let out := firmware startTime polls n g in
  usb_lines out = serial_lines out
  /\ serial_lines out
     = map (fun v => Print.println (to_double v) 6)
           (loops_values n initial_state g)
  /\ List.length (serial_lines out) = (100 * n)%nat.
Proof.
  unfold firmware. rewrite setup_events_eq.
  change (EvLed false :: startup_blink 3)
    with ([EvLed false] ++ startup_blink 3).
  rewrite !serial_lines_app, !usb_lines_app.
  cbn [serial_lines usb_lines startup_blink app].
  destruct (loops_lines n initial_state g) as [H1 H2]. rewrite H1, H2.
  split; [reflexivity|]. split; [reflexivity|].
  rewrite List.length_map, loops_values_length.
  change (Z.to_nat SAMPLES_PER_TEST) with 100%nat. lia.
Qed.

(** ** The counters between runs *)

(** X7: after any number of calls of [loop()], [testCount] is the
    number of calls modulo 2^32 and [currentPattern] is [testCount]
    modulo 3, whatever was drawn. *)
Theorem X7_counters {P : Platform} (n : nat) (g : rng) :
  let st := state_of (loops n initial_state g) in
  testCount st = Z.of_nat n mod 2 ^ 32
  /\ currentPattern st = testCount st mod PATTERN_COUNT.
Proof.
  cbv zeta. rewrite loops_testCount. split; [reflexivity|].
  destruct n as [|n]; [reflexivity|].
  rewrite loops_currentPattern. reflexivity.
Qed.

(** X8: away from the wrap of the counter, any three consecutive runs
    use the three patterns, each once; at the wrap, runs [2^32 - 1] and
    [2^32] both use Sine. *)
Theorem X8_three_runs {P : Platform} (g : rng) (n : Z) :
  1 <= n -> n + 2 < 2 ^ 32 ->
  pattern_of_run g (n + 1) = (pattern_of_run g n + 1) mod PATTERN_COUNT
  /\ pattern_of_run g (n + 2) = (pattern_of_run g n + 2) mod PATTERN_COUNT
  /\ pattern_of_run g n <> pattern_of_run g (n + 1)
  /\ pattern_of_run g (n + 1) <> pattern_of_run g (n + 2)
  /\ pattern_of_run g n <> pattern_of_run g (n + 2)
  /\ pattern_of_run g (2 ^ 32 - 1) = PATTERN_SINE
  /\ pattern_of_run g (2 ^ 32) = PATTERN_SINE.
Proof.
  intros Hn Hlt. change (2 ^ 32) with 4294967296 in *.
  rewrite !pattern_of_run_eq by lia.
  unfold Word.wrap, Word.modulus, Word.width, PATTERN_COUNT.
  change (2 ^ 32) with 4294967296.
  rewrite (Z.mod_small n), (Z.mod_small (n + 1)), (Z.mod_small (n + 2)) by lia.
  pose proof (Z.mod_pos_bound n 3 ltac:(lia)) as Hb.
  assert (H1 : (n + 1) mod 3 = (n mod 3 + 1) mod 3)
    by (now rewrite Zplus_mod_idemp_l).
  assert (H2 : (n + 2) mod 3 = (n mod 3 + 2) mod 3)
    by (now rewrite Zplus_mod_idemp_l).
  rewrite H1, H2.
  assert (Hc : n mod 3 = 0 \/ n mod 3 = 1 \/ n mod 3 = 2) by lia.
  destruct Hc as [-> | [-> | ->]]; repeat split; discriminate.
Qed.

Lemma X8_witness :
  @pattern_of_run Reference.platform 3 (4 + 1)
  = (@pattern_of_run Reference.platform 3 4 + 1) mod PATTERN_COUNT.
Proof.
  apply (@X8_three_runs Reference.platform 3 4); lia.
Defined.

(** ** The clamp *)

Lemma SFbetween_inter a b c d x :
  SFbetween a b x = true -> SFbetween c d x = true ->
  SFbetween (Z.max a c) (Z.min b d) x = true.
Proof.
  intros H1 H2. destruct x as [s|s| |s m e]; try discriminate H1.
  - apply Rounding.SFbetween_zero in H1. apply Rounding.SFbetween_zero in H2.
    apply Rounding.SFbetween_zero. lia.
  - apply Rounding.SFbetween_finite in H1.
    apply Rounding.SFbetween_finite in H2.
    apply Rounding.SFbetween_finite.
    unfold dyadic_ge, dyadic_le in *.
    destruct (Z.max_spec a c) as [[_ ->] | [_ ->]];
      destruct (Z.min_spec b d) as [[_ ->] | [_ ->]]; tauto.
Qed.

(** A single-precision number that compares above 100 is above 100. *)
Lemma above_hundred m e :
  valid_binary 24 128 (S754_finite false m e) = true ->
  SFltb (float_of_int 100) (S754_finite false m e) = true ->
  100 * pow2 (- e) < Zpos m * pow2 e.
Proof.
  intros Hv E.
  change (float_of_int 100) with (S754_finite false 13107200 (-17)) in E.
  cbn [valid_binary] in Hv. unfold bounded, canonical_mantissa in Hv.
  apply andb_true_iff in Hv. destruct Hv as [Hc _]. apply Z.eqb_eq in Hc.
  unfold fexp, emin in Hc.
  pose proof (Rounding.digits2_lower m) as Hd.
  unfold SFltb, SFcompare in E.
  destruct (Z.compare_spec (-17) e) as [He | He | He]; try discriminate E.
  - subst e. change (pow2 (-17)) with 1. change (pow2 (- -17)) with 131072.
    destruct (Pos.compare_cont Eq 13107200 m) eqn:Ec; try discriminate E.
    change (Pos.compare_cont Eq 13107200 m) with (13107200 ?= m)%positive in Ec.
    apply Pos.compare_lt_iff, Pos2Z.pos_lt_pos in Ec. clear - Ec. lia.
  - assert (Hdig : Zpos (digits2_pos m) = 24) by lia.
    rewrite Hdig in Hd. change (2 ^ (24 - 1)) with 8388608 in Hd.
    clear Hc Hdig E.
    destruct (Z_le_gt_dec 0 e) as [Hpos | Hneg].
    + rewrite (Rounding.pow2_nonneg e), (Rounding.pow2_nonpos (- e)) by lia.
      assert (0 < 2 ^ e) by (apply Z.pow_pos_nonneg; lia). nia.
    + rewrite (Rounding.pow2_nonpos e), (Rounding.pow2_nonneg (- e)) by lia.
      assert (2 ^ (- e) <= 2 ^ 16) by (apply Z.pow_le_mono_r; lia).
      change (2 ^ 16) with 65536 in *. lia.
Qed.

Lemma clamp_finite m e :
  clamp (S754_finite false m e)
  = if SFltb (float_of_int 100) (S754_finite false m e)
    then float_of_int 100 else S754_finite false m e.
Proof. reflexivity. Qed.

(** The clamp of a number known to lie in [a, b], an interval that
    meets [0, 100], lies in both intervals. *)
Lemma clamp_interval a b x :
  valid_binary 24 128 x = true -> a <= 100 -> 0 <= b ->
  SFbetween a b x = true ->
  SFbetween (Z.max a 0) (Z.min b 100) (clamp x) = true.
Proof.
  intros Hv Ha Hb Hx.
  assert (Hc : SFbetween 0 100 (clamp x) = true).
  { apply clamp_between; [|exact Hv]. intros ->. discriminate Hx. }
  destruct x as [s|s| |s m e]; try discriminate Hx.
  - apply SFbetween_inter; [|exact Hc].
    destruct s; exact Hx.
  - destruct s.
    + change (clamp (S754_finite true m e)) with (S754_zero false).
      apply Rounding.SFbetween_finite in Hx. destruct Hx as [Hl _].
      unfold dyadic_ge, signed in Hl. cbn [cond_Zopp] in Hl.
      pose proof (Rounding.pow2_pos e). pose proof (Rounding.pow2_pos (- e)).
      apply Rounding.SFbetween_zero. nia.
    + rewrite clamp_finite in *.
      destruct (SFltb (float_of_int 100) (S754_finite false m e)) eqn:E.
      * pose proof (above_hundred m e Hv E) as Hgt.
        apply Rounding.SFbetween_finite in Hx. destruct Hx as [_ Hh].
        unfold dyadic_le, signed in Hh. cbn [cond_Zopp] in Hh.
        pose proof (Rounding.pow2_pos (- e)).
        assert (100 < b) by nia.
        apply (Rounding.SFbetween_weaken 100 100); [reflexivity | lia | lia].
      * apply SFbetween_inter; assumption.
Qed.

(** X9: what the two [if] statements do.  A single-precision number
    in [0, 100] is returned as it is; a NaN is returned as it is, since
    both comparisons fail on it; and clamping twice is clamping once. *)
Theorem X9_clamp (x : spec_float) :
  valid_binary 24 128 x = true ->
  (SFbetween 0 100 x = true -> clamp x = x)
  /\ clamp S754_nan = S754_nan
  /\ clamp (clamp x) = clamp x.
Proof.
  intros Hv.
  assert (Hid : forall y, valid_binary 24 128 y = true ->
                  SFbetween 0 100 y = true -> clamp y = y).
  { intros y Hy Hb. destruct y as [s|s| |s m e]; try discriminate Hb.
    - destruct s; reflexivity.
    - destruct s.
      + exfalso. apply Rounding.SFbetween_finite in Hb. destruct Hb as [Hl _].
        unfold dyadic_ge, signed in Hl. cbn [cond_Zopp] in Hl.
        pose proof (Rounding.pow2_pos e). nia.
      + rewrite clamp_finite.
        destruct (SFltb (float_of_int 100) (S754_finite false m e)) eqn:E;
          [exfalso | reflexivity].
        pose proof (above_hundred m e Hy E) as Hgt.
        apply Rounding.SFbetween_finite in Hb. destruct Hb as [_ Hh].
        unfold dyadic_le, signed in Hh. cbn [cond_Zopp] in Hh. lia. }
  split; [apply Hid, Hv|]. split; [reflexivity|].
  destruct x as [s|s| |s m e].
  - destruct s; reflexivity.
  - destruct s; reflexivity.
  - reflexivity.
  - destruct s; [reflexivity|].
    rewrite clamp_finite.
    destruct (SFltb (float_of_int 100) (S754_finite false m e)) eqn:E;
      [reflexivity|].
    rewrite clamp_finite, E. reflexivity.
Qed.

Lemma X9_witness :
  clamp (to_float (double_lit 37)) = to_float (double_lit 37).
Proof.
  apply (X9_clamp (to_float (double_lit 37))); reflexivity.
Defined.

(** ** The drift of the random walk *)

Lemma random_walk_step a b w d :
  0 <= a -> a <= b -> b <= 100 -> -200 <= d <= 200 ->
  SFbetween a b w = true ->
  SFbetween (Z.max (a - 2) 0) (Z.min (b + 2) 100)
    (clamp (float_add_assign w (noise d))) = true.
Proof.
  intros Ha Hab Hb Hd Hw.
  apply clamp_interval; [apply to_float_valid | lia | lia |].
  change (a - 2) with (a + -2).
  apply float_add_assign_between;
    try (change (2 ^ 24) with 16777216; lia); [exact Hw|].
  apply noise_between_2, Hd.
Qed.

Lemma random_walk_values {P : Platform} :
  random_in_range P ->
  forall n i st g c k v,
    0 <= c ->
    switch_case (currentPattern st) = CaseRandomWalk ->
    SFbetween (Z.max (50 - c) 0) (Z.min (50 + c) 100) (randomWalkValue st)
    = true ->
    nth_error (sample_values n i st g) k = Some v ->
    SFbetween (Z.max (50 - c - 2 * (Z.of_nat k + 1)) 0)
              (Z.min (50 + c + 2 * (Z.of_nat k + 1)) 100) v = true.
Proof.
  intros Hr. induction n as [|n IH]; intros i st g c k v Hc Hp Hw Hk.
  - destruct k; discriminate Hk.
  - cbn [sample_values] in Hk.
    unfold generateSample in Hk. rewrite Hp in Hk.
    pose proof (Hr (-200) 200 g ltac:(lia)) as Hd.
    destruct (random (-200) 200 g) as [d g']. cbn [fst snd] in Hd.
    pose proof (random_walk_step (Z.max (50 - c) 0) (Z.min (50 + c) 100)
                  (randomWalkValue st) d ltac:(lia) ltac:(lia) ltac:(lia)
                  Hd Hw) as Hv.
    set (w := clamp (float_add_assign (randomWalkValue st) (noise d))) in *.
    assert (Hv' : SFbetween (Z.max (50 - (c + 2)) 0) (Z.min (50 + (c + 2)) 100)
                    w = true).
    { eapply Rounding.SFbetween_weaken; [exact Hv | lia | lia]. }
    destruct k as [|k]; cbn [nth_error] in Hk.
    + injection Hk as <-.
      eapply Rounding.SFbetween_weaken; [exact Hv' | lia | lia].
    + specialize (IH (i + 1) (set_randomWalkValue w st) g' (c + 2) k v
                    ltac:(lia)).
      cbn [set_randomWalkValue currentPattern randomWalkValue] in IH.
      specialize (IH Hp Hv' Hk).
      eapply Rounding.SFbetween_weaken; [exact IH | lia | lia].
Qed.

(** X10: in a RandomWalk run the walk drifts by at most 2 per sample:
    with a random source that keeps to its range, the sample of index [k]
    is a number between [48 - 2k] and [52 + 2k], and within [0, 100]: for
    the first 24 samples of a run the bound is tighter than the clamp's. *)
Theorem X10_random_walk_drift {P : Platform} (st : State) (g : rng)
        (k : nat) (v : spec_float) :
  random_in_range P ->
  switch_case (currentPattern (begin_run st)) = CaseRandomWalk ->
  nth_error (sample_values (Z.to_nat SAMPLES_PER_TEST) 0 (begin_run st) g) k
  = Some v ->
  Fmt.is_finite v = true
  /\ (inject_Z (Z.max (48 - 2 * Z.of_nat k) 0) <= SF2Q v
      <= inject_Z (Z.min (52 + 2 * Z.of_nat k) 100))%Q.
Proof.
  intros Hr Hp Hk.
  apply SFbetween_Q.
  pose proof (random_walk_values Hr _ 0 (begin_run st) g 0 k v ltac:(lia) Hp
                eq_refl Hk) as H.
  eapply Rounding.SFbetween_weaken; [exact H | lia | lia].
Qed.

Lemma X10_witness :
  let st := begin_run initial_state in
  let v := fst (fst (@generateSample Reference.platform 0 100 (begin_run st) 5)) in
  Fmt.is_finite v = true
  /\ (inject_Z (Z.max (48 - 2 * Z.of_nat 0) 0) <= SF2Q v
      <= inject_Z (Z.min (52 + 2 * Z.of_nat 0) 100))%Q.
Proof.
  apply (@X10_random_walk_drift Reference.platform
           (begin_run initial_state) 5 0).
  - exact reference_random_in_range.
  - reflexivity.
  - vm_compute. reflexivity.
Defined.

(** ** The range of the samples *)

(** X11: a Sine sample needs no clamp: with a random source that keeps
    to its range and a sine in [-1, 1] for the angle of the sample, the
    value with its noise is a number in [0, 100], for every index and
    total. *)
Theorem X11_sine_sample_range {P : Platform} (i n : Z) (st : State) (g : rng) :
  random_in_range P ->
  SFbetween (-1) 1 (sin (to_double (sine_angle (position i n)))) = true ->
  switch_case (currentPattern st) = CaseSine ->
  let v := fst (fst (generateSample i n st g)) in
  Fmt.is_finite v = true /\ (0 <= SF2Q v <= 100)%Q.
Proof.
  intros Hr Hs Hp v. subst v. apply (SFbetween_Q 0 100).
  unfold generateSample. rewrite Hp.
  pose proof (Hr (-500) 500 g ltac:(lia)) as Hd.
  destruct (random (-500) 500 g) as [d g']. cbn [fst snd] in *.
  change 0 with (5 + -5). change 100 with (95 + 5).
  apply float_add_assign_between; try reflexivity.
  - apply sine_value_between, Hs.
  - apply noise_between_5, Hd.
Qed.

Lemma X11_witness :
  let v := fst (fst (@generateSample Reference.platform 75 100
                       initial_state 9)) in
  Fmt.is_finite v = true /\ (0 <= SF2Q v <= 100)%Q.
Proof.
  apply (@X11_sine_sample_range Reference.platform 75 100 initial_state 9).
  - exact reference_random_in_range.
  - vm_compute. reflexivity.
  - reflexivity.
Defined.

(** X12: a Ramp sample is not clamped and can leave [0, 100] at both
    ends: for the indices of a run, with a random source that keeps to its
    range, it is a number in [-2, 101]; at index 0 it is the noise itself,
    negative for a negative draw. *)
Theorem X12_ramp_sample_range {P : Platform} (i : Z) (st : State) (g : rng) :
  random_in_range P ->
  0 <= i < SAMPLES_PER_TEST ->
  switch_case (currentPattern st) = CaseRamp ->
  let v := fst (fst (generateSample i SAMPLES_PER_TEST st g)) in
  let d := fst (random (-200) 200 g) in
  Fmt.is_finite v = true
  /\ (-2 <= SF2Q v <= 101)%Q
  /\ (i = 0 -> v = to_float (noise d))
  /\ (i = 0 -> d < 0 -> (SF2Q v < 0)%Q).
Proof.
  intros Hr Hi Hp v d. subst v d.
  unfold generateSample. rewrite Hp.
  pose proof (Hr (-200) 200 g ltac:(lia)) as Hd.
  destruct (random (-200) 200 g) as [d g']. cbn [fst snd] in *.
  assert (Hb : SFbetween (-2) 101
                 (float_add_assign (ramp_raw (position i SAMPLES_PER_TEST))
                    (noise d)) = true).
  { change (-2) with (0 + -2). change 101 with (99 + 2).
    apply float_add_assign_between; try reflexivity.
    - apply ramp_between, Hi.
    - apply noise_between_2, Hd. }
  apply (SFbetween_Q (-2) 101) in Hb. destruct Hb as [Hf Hq].
  split; [exact Hf|]. split; [exact Hq|].
  assert (H0 : float_add_assign (ramp_raw (position 0 SAMPLES_PER_TEST))
                 (noise d) = to_float (noise d)).
  { apply SFsame_eq.
    apply (forall_Zrange
             (fun d => SFsame
                         (float_add_assign
                            (ramp_raw (position 0 SAMPLES_PER_TEST)) (noise d))
                         (to_float (noise d)))
             (-200) 401); [vm_compute; reflexivity | lia]. }
  split.
  - intros ->. exact H0.
  - intros -> Hneg. rewrite H0. apply Qlt_alt.
    pose (neg := fun d => match Qcompare (SF2Q (to_float (noise d))) 0 with
                          | Lt => true
                          | _ => false
                          end).
    assert (Hc : neg d = true).
    { apply (forall_Zrange neg (-200) 200); [vm_compute; reflexivity | lia]. }
    unfold neg in Hc.
    destruct (SF2Q (to_float (noise d)) ?= 0)%Q; [discriminate | reflexivity | discriminate].
Qed.

Lemma X12_witness :
  let v := fst (fst (@generateSample Reference.platform 0 SAMPLES_PER_TEST
                       (begin_run initial_state) 12345)) in
  Fmt.is_finite v = true /\ (-2 <= SF2Q v <= 101)%Q.
Proof.
  pose proof (@X12_ramp_sample_range Reference.platform 0
                (begin_run initial_state) 12345 reference_random_in_range)
    as H.
  assert (Hi : 0 <= 0 < SAMPLES_PER_TEST) by (unfold SAMPLES_PER_TEST; lia).
  specialize (H Hi eq_refl). cbv zeta in H. split; apply H.
Defined.

(** ** A total of zero *)

(** The conversion of a positive integer is positive: a finite number
    or, past the range of the format, plus infinity. *)
Lemma float_of_ulong_positive i :
  0 < i ->
  float_of_ulong i = S754_infinity false
  \/ exists m e, float_of_ulong i = S754_finite false m e.
Proof.
  intros Hi. destruct i as [|p|p]; try lia.
  unfold float_of_ulong, Fmt.of_Z. cbn [binary_normalize f32 Fmt.prec Fmt.emax
                                        Fmt.binary32].
  unfold binary_round.
  assert (Hz : exists mz ez,
             shl_align p 0 (fexp 24 128 (Zpos (digits2_pos p) + 0)) = (mz, ez)
             /\ dyadic_ge (Zpos mz) ez 1).
  { destruct (Rounding.shl_align_spec p 0
                (fexp 24 128 (Zpos (digits2_pos p) + 0)))
      as [(Hlt & He & Hm) | (_ & E)].
    - destruct (shl_align p 0 _) as [mz ez]. cbn [fst snd] in He, Hm.
      exists mz, ez. split; [reflexivity|]. subst ez. rewrite Hm.
      set (e' := fexp 24 128 (Zpos (digits2_pos p) + 0)) in *.
      replace e' with (0 - (0 - e')) at 2 by lia.
      apply Rounding.dyadic_ge_shift; [lia|].
      unfold dyadic_ge. change (pow2 (- 0)) with 1. change (pow2 0) with 1. lia.
    - exists p, 0. split; [exact E|].
      unfold dyadic_ge. change (pow2 (- 0)) with 1. change (pow2 0) with 1. lia. }
  destruct Hz as (mz & ez & -> & Hge).
  unfold binary_round_aux.
  assert (Hm : 0 <= Zpos mz) by lia.
  destruct (Rounding.shr_fexp_exact 24 128 (Zpos mz) ez Hm) as [_ H1].
  destruct (shr_fexp 24 128 (Zpos mz) ez loc_Exact) as [mrs1 e1].
  cbn [fst snd] in H1. fold (round_up mrs1).
  pose proof (Rounding.rounds_to_nonneg _ _ _ _ _ _ H1 Hm) as Hm1.
  destruct (Rounding.shr_fexp_exact 24 128 (round_up mrs1) e1 Hm1) as [H2 _].
  destruct (shr_fexp 24 128 (round_up mrs1) e1 loc_Exact) as [mrs2 e2].
  cbn [fst snd] in H2.
  pose proof (Rounding.rounds_to_nonneg _ _ _ _ _ _ H2 Hm1) as Hm2.
  assert (Hge2 : dyadic_ge (shr_m mrs2) e2 1).
  { eapply (Rounding.rounds_to_ge 24 128); [reflexivity | discriminate
                                            | exact H2 | exact Hm1 | | ].
    - split; [lia | reflexivity].
    - eapply (Rounding.rounds_to_ge 24 128); [reflexivity | discriminate
                                              | exact H1 | exact Hm | | exact Hge].
      split; [lia | reflexivity]. }
  destruct (shr_m mrs2) as [|q|q]; [| |lia].
  - exfalso. unfold dyadic_ge in Hge2. pose proof (Rounding.pow2_pos (- e2)). lia.
  - destruct (e2 <=? 128 - 24); [right; eauto | left; reflexivity].
Qed.

(** X13: [generateSample] does not guard a total of zero.  Under Ramp
    the division yields no trap: at index 0 the sample is a NaN, and at
    every positive index it is plus infinity, whatever the noise. *)
Theorem X13_zero_total {P : Platform} (i : Z) (st : State) (g : rng) :
  random_in_range P ->
  switch_case (currentPattern st) = CaseRamp ->
  let v := fst (fst (generateSample i 0 st g)) in
  (i = 0 -> v = S754_nan) /\ (0 < i -> v = S754_infinity false).
Proof.
  intros Hr Hp v. subst v. unfold generateSample. rewrite Hp.
  pose proof (Hr (-200) 200 g ltac:(lia)) as Hd.
  destruct (random (-200) 200 g) as [d g']. cbn [fst snd] in *.
  pose proof (noise_between_2 d Hd) as Hn.
  split.
  - intros ->. change (ramp_raw (position 0 0)) with S754_nan.
    reflexivity.
  - intros Hi.
    assert (Ht : position i 0 = S754_infinity false).
    { unfold position. change (float_of_ulong 0) with (S754_zero false).
      destruct (float_of_ulong_positive i Hi) as [-> | (m & e & ->)];
        reflexivity. }
    rewrite Ht. change (ramp_raw (S754_infinity false))
      with (S754_infinity false).
    unfold float_add_assign.
    change (to_double (S754_infinity false)) with (S754_infinity false).
    destruct (noise d) as [s|s| |s m e]; try discriminate Hn; reflexivity.
Qed.

Lemma X13_witness :
  fst (fst (@generateSample Reference.platform 3 0
              (begin_run initial_state) 11))
  = S754_infinity false.
Proof.
  apply (@X13_zero_total Reference.platform 3 (begin_run initial_state) 11).
  - exact reference_random_in_range.
  - reflexivity.
  - lia.
Defined.

(** ** The state after a run *)

Lemma sample_loop_state {P : Platform} n : forall i st g,
  switch_case (currentPattern st) <> CaseRandomWalk ->
  state_of (sample_loop n i st g) = st.
Proof.
  induction n as [|n IH]; intros i st g Hp; [reflexivity|].
  cbn [sample_loop]. unfold sample_step.
  pose proof (generateSample_state i SAMPLES_PER_TEST st g Hp) as Hs.
  destruct (generateSample i SAMPLES_PER_TEST st g) as [[v st1] g1].
  cbn [fst snd] in Hs. subst st1.
  specialize (IH (i + 1) st g1 Hp).
  destruct (sample_loop n (i + 1) st g1) as [[st2 g2] out2].
  exact IH.
Qed.

(** X14: a run that is not a RandomWalk run changes nothing after its
    first three assignments: the state it leaves is the one it started
    its samples from, with [randomWalkValue] at exactly 50.0. *)
Theorem X14_state_after_run {P : Platform} (st : State) (g : rng) :
  switch_case (currentPattern (begin_run st)) <> CaseRandomWalk ->
  state_of (runTest st g) = begin_run st
  /\ randomWalkValue (state_of (runTest st g)) = to_float (double_lit 50).
Proof.
  intros Hp.
  assert (H : state_of (runTest st g) = begin_run st).
  { unfold runTest.
    pose proof (sample_loop_state (Z.to_nat SAMPLES_PER_TEST) 0 (begin_run st)
                  g Hp) as Hs.
    destruct (sample_loop _ 0 (begin_run st) g) as [[st' g'] out].
    exact Hs. }
  split; [exact H | rewrite H; reflexivity].
Qed.

Lemma X14_witness :
  state_of (@runTest Reference.platform initial_state 4)
  = begin_run initial_state.
Proof.
  apply (@X14_state_after_run Reference.platform initial_state 4).
  discriminate.
Defined.

(** ** The samples over the life of the program *)

Lemma loops_values_between {P : Platform} :
  random_in_range P -> sine_in_range P ->
  forall n g,
    Forall (fun v => SFbetween (-2) 101 v = true)
           (loops_values n initial_state g).
Proof.
  intros Hr Hs n g. induction n as [|n IH]; cbn [loops_values].
  - constructor.
  - destruct (loops n initial_state g) as [[st1 g1] out1].
    apply Forall_app. split; [exact IH|].
    apply sample_values_between; try assumption;
      [lia | unfold SAMPLES_PER_TEST; lia | reflexivity].
Qed.

(** X15: with a random source that keeps to its range and a sine in
    [-1, 1], every sample generated over any number of calls of [loop()]
    is a number, never a NaN or an infinity, and lies in [-2, 101]. *)
Theorem X15_samples_are_numbers {P : Platform} (n : nat) (g : rng) :
  random_in_range P -> sine_in_range P ->
  Forall (fun v => Fmt.is_finite v = true
                   /\ (-2 <= SF2Q v <= 101)%Q)
         (loops_values n initial_state g).
Proof.
  intros Hr Hs.
  eapply Forall_impl; [|apply (loops_values_between Hr Hs)].
  intros v Hv. apply (SFbetween_Q (-2) 101). exact Hv.
Qed.

Lemma X15_witness :
  Forall (fun v => Fmt.is_finite v = true /\ (-2 <= SF2Q v <= 101)%Q)
         (@loops_values Reference.platform 2 initial_state 12345).
Proof.
  exact (@X15_samples_are_numbers Reference.platform 2 12345
           reference_random_in_range reference_sine_in_range).
Defined.

(** ** The order of the effects of a run *)

Lemma sample_loop_events {P : Platform} n : forall i st g,
  output_of (sample_loop n i st g)
  = run_events i (sample_values n i st g).
Proof.
  induction n as [|n IH]; intros i st g; [reflexivity|].
  cbn [sample_loop sample_values]. unfold sample_step.
  destruct (generateSample i SAMPLES_PER_TEST st g) as [[v st1] g1].
  specialize (IH (i + 1) st1 g1).
  destruct (sample_loop n (i + 1) st1 g1) as [[st2 g2] out2].
  unfold output_of in *. cbn [snd] in *.
  cbn [run_events]. unfold sample_events.
  rewrite IH, land_one_odd. reflexivity.
Qed.

(** X16: the trace of a run, in full: for each sample in the order of
    the indices, its line on [Serial], the same line on [SerialUSB], the
    LED level of the index and the wait of one sample interval; then the
    LED low; and nothing else. *)
Theorem X16_run_trace {P : Platform} (st : State) (g : rng) :
  output_of (runTest st g)
  = run_events 0
      (sample_values (Z.to_nat SAMPLES_PER_TEST) 0 (begin_run st) g)
    ++ [EvLed false].
Proof.
  unfold runTest.
  pose proof (sample_loop_events (Z.to_nat SAMPLES_PER_TEST) 0 (begin_run st) g)
    as H.
  destruct (sample_loop _ 0 (begin_run st) g) as [[st' g'] out].
  unfold output_of in *. cbn [snd] in *. rewrite H. reflexivity.
Qed.
